(** * EchoPay backend: command parser, contact directory, token registry,
      transfer executor and command orchestrator.

    A shallow embedding of
      - src/utlis/commandParser.js       (module [CommandParser])
      - models/Contact.js                (module [ContactModel])
      - src/services/blockchainService.js (module [Blockchain])
      - src/app.js                       (module [App])
    and the properties of the specification that were checked against it.

    Conventions.
    - A JavaScript string is a sequence of UTF-16 code units.  The model
      uses [string], whose characters are the 256 code units below U+0100
      (ASCII and Latin-1); the character classes and case mappings below
      are the ECMAScript ones restricted to that range.
    - A thrown [Error] is modelled by its [message] and optional [code].
    - A table lookup [T[key]] reads an own property of [T]: a token
      symbol is taken not to name a member of [Object.prototype] (app.js
      upper-cases every symbol, and no such name is in upper case).
    - The JSON-RPC provider, the signing wallet and the ERC-20 contracts
      (the ethers library) are an oracle whose answers may depend on every
      call made so far; each call is appended to a trace.
    - MongoDB/mongoose is modelled by the declared schema: a collection
      is the list of its documents in insertion order. *)

From stdpp Require Import base decidable option list strings gmap pretty.
From Stdlib Require Import ZArith Lia Ascii String.

Open Scope string_scope.
Open Scope Z_scope.

(* ================================================================== *)
(** * JavaScript strings *)
(* ================================================================== *)

Module JsString.

Definition code_unit (c : ascii) : N := N_of_ascii c.

Definition in_range (lo hi : N) (c : ascii) : bool :=
  ((lo <=? code_unit c) && (code_unit c <=? hi))%N.

(** [\d] *)
Definition is_digit (c : ascii) : bool := in_range 48 57 c.
Definition is_upper (c : ascii) : bool := in_range 65 90 c.
Definition is_lower (c : ascii) : bool := in_range 97 122 c.
(** [[a-zA-Z]] *)
Definition is_alpha (c : ascii) : bool := is_upper c || is_lower c.
(** [\w] is [[A-Za-z0-9_]] *)
Definition is_word (c : ascii) : bool :=
  is_alpha c || is_digit c || (code_unit c =? 95)%N.
(** LineTerminator: LF and CR (U+2028 and U+2029 are out of range). *)
Definition is_line_terminator (c : ascii) : bool :=
  ((code_unit c =? 10) || (code_unit c =? 13))%N.
(** [\s], also the set removed by [String.prototype.trim]: WhiteSpace
    and LineTerminator, i.e. TAB, LF, VT, FF, CR, SP and NBSP. *)
Definition is_space (c : ascii) : bool :=
  (in_range 9 13 c || (code_unit c =? 32) || (code_unit c =? 160))%N.
(** [.] without the [s] flag *)
Definition is_dot (c : ascii) : bool := negb (is_line_terminator c).
(** [[a-fA-F0-9]] *)
Definition is_hex (c : ascii) : bool :=
  is_digit c || in_range 97 102 c || in_range 65 70 c.

(** Latin-1 letters with a case pair inside the range: U+00C0..U+00DE
    without U+00D7 (upper) and U+00E0..U+00FE without U+00F7 (lower). *)
Definition is_upper_latin1 (c : ascii) : bool :=
  in_range 192 222 c && negb (code_unit c =? 215)%N.
Definition is_lower_latin1 (c : ascii) : bool :=
  in_range 224 254 c && negb (code_unit c =? 247)%N.

Definition lower_char (c : ascii) : ascii :=
  if is_upper c || is_upper_latin1 c then ascii_of_N (code_unit c + 32) else c.

(** Upper-casing is only ever applied to a capture of [[a-zA-Z]+];
    U+00B5, U+00DF and U+00FF, whose upper case leaves the range, are
    left as they are. *)
Definition upper_char (c : ascii) : ascii :=
  if is_lower c || is_lower_latin1 c then ascii_of_N (code_unit c - 32) else c.

Fixpoint map_string (f : ascii -> ascii) (s : string) : string :=
  match s with
  | EmptyString => EmptyString
  | String c s' => String (f c) (map_string f s')
  end.

Fixpoint filter_string (p : ascii -> bool) (s : string) : string :=
  match s with
  | EmptyString => EmptyString
  | String c s' => if p c then String c (filter_string p s')
                   else filter_string p s'
  end.

Fixpoint all_string (p : ascii -> bool) (s : string) : bool :=
  match s with
  | EmptyString => true
  | String c s' => p c && all_string p s'
  end.

Definition toLowerCase : string -> string := map_string lower_char.
Definition toUpperCase : string -> string := map_string upper_char.

Fixpoint trimStart (s : string) : string :=
  match s with
  | EmptyString => EmptyString
  | String c s' => if is_space c then trimStart s' else s
  end.

Fixpoint trimEnd (s : string) : string :=
  match s with
  | EmptyString => EmptyString
  | String c s' =>
      match trimEnd s' with
      | EmptyString => if is_space c then EmptyString
                       else String c EmptyString
      | t => String c t
      end
  end.

Definition trim (s : string) : string := trimEnd (trimStart s).

(** A string is falsy exactly when it is empty. *)
Definition truthy (s : string) : bool :=
  match s with EmptyString => false | _ => true end.

(** [a || b] on strings *)
Definition or_else (a b : string) : string := if truthy a then a else b.

End JsString.

(* ================================================================== *)
(** * Regular expressions *)
(* ================================================================== *)

(** The fragment of ECMAScript regular expressions that the sources use,
    with the backtracking semantics of the language: alternatives are
    tried left to right, quantifiers are greedy, and a match attempt
    starts at every index from the left until one succeeds.  Every
    quantified atom in the sources is a single-character class. *)
Module Regex.
Import JsString.

Inductive regex : Type :=
| Eps
| Chr (p : ascii -> bool)
| Seq (r1 r2 : regex)
| Alt (r1 r2 : regex)
| Star (p : ascii -> bool)
| Group (n : nat) (r : regex)
| Bol
| Eol.

(** Capture groups: an absent key is [undefined]. *)
Abbreviation captures := (gmap nat string).

(** Continuations receive the index reached, the rest of the input and
    the captures so far. *)
Definition cont : Type := nat -> string -> captures -> option captures.

Fixpoint star (p : ascii -> bool) (k : cont)
         (i : nat) (s : string) (caps : captures) : option captures :=
  match s with
  | String c s' =>
      if p c then
        match star p k (S i) s' caps with
        | Some r => Some r
        | None => k i s caps
        end
      else k i s caps
  | EmptyString => k i s caps
  end.

Fixpoint take (n : nat) (s : string) : string :=
  match n, s with
  | S n', String c s' => String c (take n' s')
  | _, _ => EmptyString
  end.

Fixpoint m (r : regex) (k : cont)
         (i : nat) (s : string) (caps : captures) : option captures :=
  match r with
  | Eps => k i s caps
  | Chr p =>
      match s with
      | String c s' => if p c then k (S i) s' caps else None
      | EmptyString => None
      end
  | Seq r1 r2 => m r1 (m r2 k) i s caps
  | Alt r1 r2 =>
      match m r1 k i s caps with
      | Some r => Some r
      | None => m r2 k i s caps
      end
  | Star p => star p k i s caps
  | Group n r1 =>
      m r1 (fun j s' caps' => k j s' (<[n := take (j - i) s]> caps')) i s caps
  | Bol => if (i =? 0)%nat then k i s caps else None
  | Eol => match s with EmptyString => k i s caps | _ => None end
  end.

Definition accept : cont := fun _ _ caps => Some caps.

Fixpoint search_from (r : regex) (i : nat) (s : string) : option captures :=
  match m r accept i s ∅ with
  | Some caps => Some caps
  | None =>
      match s with
      | String _ s' => search_from r (S i) s'
      | EmptyString => None
      end
  end.

(** [s.match(r)] for a regex without the [g] flag; [None] is [null]. *)
Definition exec (r : regex) (s : string) : option captures :=
  search_from r 0 s.

(** [r.test(s)] *)
Definition test (r : regex) (s : string) : bool :=
  match exec r s with Some _ => true | None => false end.

(** Derived forms *)
Definition Plus (p : ascii -> bool) : regex := Seq (Chr p) (Star p).
Definition Opt (r : regex) : regex := Alt r Eps.
Fixpoint Rep (n : nat) (r : regex) : regex :=
  match n with O => Eps | S n' => Seq r (Rep n' r) end.
Fixpoint seqs (rs : list regex) : regex :=
  match rs with
  | [] => Eps
  | [r] => r
  | r :: rs' => Seq r (seqs rs')
  end.

(** A pattern character under the [i] flag.  Canonicalization never
    maps a code unit above 127 to one below 128, so an ASCII character
    of a pattern matches its ASCII case variants and nothing else. *)
Definition lower_ascii (c : ascii) : ascii :=
  if is_upper c then ascii_of_N (code_unit c + 32) else c.

Definition ieq (a c : ascii) : bool :=
  bool_decide (lower_ascii c = lower_ascii a).

(** A literal, with and without the [i] flag. *)
Fixpoint lit_i (s : string) : regex :=
  match s with
  | EmptyString => Eps
  | String a s' => Seq (Chr (ieq a)) (lit_i s')
  end.

Fixpoint lit (s : string) : regex :=
  match s with
  | EmptyString => Eps
  | String a s' => Seq (Chr (fun c => bool_decide (c = a))) (lit s')
  end.

End Regex.

(* ================================================================== *)
(** * utils/commandParser.js *)
(* ================================================================== *)

Module CommandParser.
Import JsString Regex.

Definition dot_char : ascii := ascii_of_N 46.

(** [/^send\s+(\d+(?:\.\d+)?)\s+([a-zA-Z]+)\s+to\s+(.+)$/i] *)
Definition SEND_amount : regex :=
  Seq (Plus is_digit)
      (Opt (Seq (Chr (fun c => bool_decide (c = dot_char))) (Plus is_digit))).

Definition SEND : regex :=
  seqs [ Bol; lit_i "send"; Plus is_space;
         Group 1 SEND_amount; Plus is_space;
         Group 2 (Plus is_alpha); Plus is_space;
         lit_i "to"; Plus is_space;
         Group 3 (Plus is_dot); Eol ].

(** [/^(?:check|show|view)\s+(?:my)?\s*balance(?:\s+of\s+([a-zA-Z]+))?$/i] *)
Definition CHECK_BALANCE_re : regex :=
  seqs [ Bol;
         Alt (lit_i "check") (Alt (lit_i "show") (lit_i "view"));
         Plus is_space; Opt (lit_i "my"); Star is_space;
         lit_i "balance";
         Opt (seqs [ Plus is_space; lit_i "of"; Plus is_space;
                     Group 1 (Plus is_alpha) ]);
         Eol ].

(** [/^add\s+contact\s+([a-zA-Z0-9_]+)\s+(?:with\s+address\s+|as\s+)?(0x[a-fA-F0-9]{40})$/i] *)
Definition ADD_CONTACT_re : regex :=
  seqs [ Bol; lit_i "add"; Plus is_space; lit_i "contact"; Plus is_space;
         Group 1 (Plus is_word); Plus is_space;
         Opt (Alt (seqs [ lit_i "with"; Plus is_space;
                          lit_i "address"; Plus is_space ])
                  (seqs [ lit_i "as"; Plus is_space ]));
         Group 2 (Seq (lit_i "0x") (Rep 40 (Chr is_hex)));
         Eol ].

(** [/^(?:list|show|view)\s+(?:my)?\s*contacts$/i] *)
Definition LIST_CONTACTS_re : regex :=
  seqs [ Bol;
         Alt (lit_i "list") (Alt (lit_i "show") (lit_i "view"));
         Plus is_space; Opt (lit_i "my"); Star is_space;
         lit_i "contacts"; Eol ].

(** The object returned by [parseCommand], one constructor per [type]. *)
Inductive ParsedCommand : Type :=
| Send (amount token recipient : string)
| CheckBalance (token : string)
| AddContact (name address : string)
| ListContacts
| Unknown (originalCommand : string).

(** [token === 'MYTOKEN' || token === 'MY-TOKEN' || token === 'MY_TOKEN'] *)
Definition alias (token : string) : string :=
  if bool_decide (token = "MYTOKEN") || bool_decide (token = "MY-TOKEN")
     || bool_decide (token = "MY_TOKEN")
  then "MTK" else token.

(** [parseCommand(commandString)]; [None] is the [null] of the guard on
    line 21.  In a successful match of [SEND] groups 1 to 3 all take part,
    and so do groups 1 and 2 of [ADD_CONTACT]; the [None] answers of the
    inner matches stand for the [TypeError] of a method call on
    [undefined] there. *)
Definition parseCommand (commandString : string) : option ParsedCommand :=
  if negb (truthy commandString) then None
  else
    let command := trim commandString in
    match exec SEND command with
    | Some match_ =>
        match match_ !! 1%nat, match_ !! 2%nat, match_ !! 3%nat with
        | Some m1, Some m2, Some m3 =>
            Some (Send m1 (alias (toUpperCase m2)) (trim m3))
        | _, _, _ => None
        end
    | None =>
    match exec CHECK_BALANCE_re command with
    | Some match_ =>
        let token :=
          match match_ !! 1%nat with
          | Some m1 => if truthy m1 then toUpperCase m1 else "ALL"
          | None => "ALL"
          end in
        Some (CheckBalance (alias token))
    | None =>
    match exec ADD_CONTACT_re command with
    | Some match_ =>
        match match_ !! 1%nat, match_ !! 2%nat with
        | Some m1, Some m2 => Some (AddContact (trim m1) m2)
        | _, _ => None
        end
    | None =>
    match exec LIST_CONTACTS_re command with
    | Some _ => Some ListContacts
    | None => Some (Unknown command)
    end end end end.

(** A line feed, for examples. *)
Definition nl : string := String (ascii_of_N 10) "".

End CommandParser.

(* ================================================================== *)
(** * Errors and results *)
(* ================================================================== *)

Module Js.

(** A thrown error: its [message], and the [code] a MongoDB server error
    carries. *)
Record JsError : Type := mkError { code : option Z; message : string }.

(** [new Error(message)] *)
Definition Error (msg : string) : JsError := mkError None msg.

(** The outcome of a call: a value, or a thrown error (for an [async]
    function, a rejected promise). *)
Inductive result (A : Type) : Type :=
| Ok (a : A)
| Throw (e : JsError).
Arguments Ok {A} a.
Arguments Throw {A} e.

(** The double quote, for the messages that contain one. *)
Definition dq : string := String (ascii_of_N 34) "".

End Js.

(* ================================================================== *)
(** * models/Contact.js *)
(* ================================================================== *)

Module ContactModel.
Import JsString Regex Js.

(** A stored document (its [_id] is read by no operation modelled here). *)
Record Contact : Type := mkContact { name : string; address : string }.

Record ContactData : Type := mkData { data_name : string; data_address : string }.

(** The collection: its documents in insertion order. *)
Abbreviation collection := (list Contact).

(** [/^0x[a-fA-F0-9]{40}$/], the validator of [address]. *)
Definition ADDRESS_re : regex :=
  seqs [ Bol; lit "0x"; Rep 40 (Chr is_hex); Eol ].

Definition valid_address (value : string) : bool := test ADDRESS_re value.

(** The setters of [name]: [lowercase: true] and [trim: true] (they
    commute, see [trim_lower]). *)
Definition set_name (value : string) : string := trim (toLowerCase value).

(** Schema validation of a document, in path order; [required] rejects
    the empty string, and the first failing validator of a path gives its
    error.  The texts are mongoose's. *)
Definition validate (doc : Contact) : list (string * string) :=
  ((if truthy (name doc) then [] else [("name", "Path `name` is required.")])
   ++ (if negb (truthy (address doc))
       then [("address", "Path `address` is required.")]
       else if valid_address (address doc) then []
       else [("address", "Invalid Ethereum address format")]))%list.

Fixpoint join (sep : string) (l : list string) : string :=
  match l with
  | [] => ""
  | [x] => x
  | x :: l' => x ++ sep ++ join sep l'
  end.

Definition ValidationError (errors : list (string * string)) : JsError :=
  Error ("Contact validation failed: "
         ++ join ", " (map (fun e => fst e ++ ": " ++ snd e) errors)).

(** The error of the unique index on [name]. *)
Definition DuplicateKey : JsError :=
  mkError (Some 11000) "E11000 duplicate key error".

(** [new Contact(data).save()]: setters, validation, then the insert,
    which the unique index on [name] refuses for a name already stored. *)
Definition save (data : ContactData) (db : collection)
  : result Contact * collection :=
  let doc := mkContact (set_name (data_name data)) (data_address data) in
  match validate doc with
  | [] =>
      if existsb (fun c => bool_decide (name c = name doc)) db
      then (Throw DuplicateKey, db)
      else (Ok doc, (db ++ [doc])%list)
  | errors => (Throw (ValidationError errors), db)
  end.

(** [ContactRepository.create(contactData)] *)
Definition create (contactData : ContactData) (db : collection)
  : result Contact * collection :=
  match save contactData db with
  | (Ok contact, db') => (Ok contact, db')
  | (Throw error, db') =>
      if bool_decide (code error = Some 11000)
      then (Throw (Error ("Contact with name " ++ dq ++ data_name contactData
                          ++ dq ++ " already exists")), db')
      else (Throw error, db')
  end.

Section Queries.

(** Whether mongoose runs the setters of a path ([lowercase], [trim]) on
    the value of a query condition for it.  This depends on the release
    of mongoose (older ones had the option [runSettersOnQuery] for it),
    and the source pins none, so the lookups are modelled for both
    answers.  A [RegExp] condition is passed on as it is. *)
Variable runSettersOnQuery : bool.

Definition cast_query (value : string) : string :=
  if runSettersOnQuery then set_name value else value.

(** [Contact.findOne({ name: value })] *)
Definition findOne_name (value : string) (db : collection) : option Contact :=
  List.find (fun c => bool_decide (name c = cast_query value)) db.

(** [Contact.findOne({ name: { $regex: new RegExp('^' + source + '$', 'i') } })]
    for a [source] of word characters and blanks, which are literal in a
    pattern. *)
Definition findOne_regex_i (source : string) (db : collection)
  : option Contact :=
  List.find (fun c => test (seqs [Bol; lit_i source; Eol]) (name c)) db.

(** [name.toLowerCase().trim().replace(/[^\w\s]/g, '')] *)
Definition normalize (name_ : string) : string :=
  filter_string (fun c => is_word c || is_space c) (trim (toLowerCase name_)).

(** [ContactRepository.findByName(name)]; [None] is [null]. *)
Definition findByName (name_ : string) (db : collection) : option Contact :=
  let normalizedName := normalize name_ in
  match findOne_name normalizedName db with
  | Some contact => Some contact
  | None => findOne_regex_i normalizedName db
  end.

End Queries.

End ContactModel.

(* ================================================================== *)
(** * services/blockchainService.js *)
(* ================================================================== *)

Module Blockchain.
Import JsString Js.

(** ** The chain client *)

(** The calls the service makes on the provider, the wallet and the
    token contracts.  [Transfer] and [SendTransaction] sign and submit a
    transaction; [Wait] awaits its inclusion. *)
Inductive call : Type :=
| GetBalance (account : string)
| BalanceOf (contract account : string)
| Decimals (contract : string)
| Transfer (contract to : string) (amount gasLimit : Z)
| SendTransaction (to : string) (value gasLimit : Z)
| Wait (tx : string).

Definition is_submission (c : call) : bool :=
  match c with
  | Transfer _ _ _ _ | SendTransaction _ _ _ => true
  | _ => false
  end.

Record Receipt : Type :=
  mkReceipt { receipt_transactionHash : string; receipt_blockNumber : Z }.

(** The ethers library and the network behind it.  The pure helpers
    answer by their arguments alone; the answer of a remote call may
    depend on all calls made before it. *)
Record Ethers : Type := mkEthers {
  wallet_address : string;
  isAddress : string -> bool;
  parseUnits : string -> Z -> result Z;
  formatUnits : Z -> Z -> result string;
  getBalance : list call -> string -> result Z;
  balanceOf : list call -> string -> string -> result Z;
  decimals : list call -> string -> result Z;
  transfer : list call -> string -> string -> Z -> Z -> result string;
  sendTransaction : list call -> string -> Z -> Z -> result string;
  wait : list call -> string -> result Receipt
}.

(** ** Process state *)

(** The module-level [TOKEN_DECIMALS] object, which [getTokenDecimals]
    writes to, and the calls made so far. *)
Record State : Type := mkState {
  TOKEN_DECIMALS : gmap string Z;
  trace : list call
}.

(** An [async] method: it reads and writes the state and either returns
    or throws. *)
Definition M (A : Type) : Type := State -> result A * State.

Definition ret {A} (a : A) : M A := fun st => (Ok a, st).
Definition throw {A} (e : JsError) : M A := fun st => (Throw e, st).
Definition bind {A B} (c : M A) (f : A -> M B) : M B :=
  fun st => match c st with
            | (Ok a, st') => f a st'
            | (Throw e, st') => (Throw e, st')
            end.
(** [try { c } catch (error) { h error }] *)
Definition try_catch {A} (c : M A) (h : JsError -> M A) : M A :=
  fun st => match c st with
            | (Ok a, st') => (Ok a, st')
            | (Throw e, st') => h e st'
            end.
(** A helper that may throw, such as [parseUnits]. *)
Definition lift {A} (r : result A) : M A := fun st => (r, st).

Declare Scope js_scope.
Delimit Scope js_scope with js.
Notation "x <- c ;; k" := (bind c (fun x => k))
  (at level 100, c at next level, right associativity) : js_scope.
Open Scope js_scope.

(** A remote call: answered from the calls made so far, then recorded. *)
Definition remote {A} (c : call) (answer : list call -> result A) : M A :=
  fun st => (answer (trace st),
             mkState (TOKEN_DECIMALS st) (trace st ++ [c])%list).

Definition read_decimals (tokenSymbol : string) : M (option Z) :=
  fun st => (Ok (TOKEN_DECIMALS st !! tokenSymbol), st).

Definition write_decimals (tokenSymbol : string) (d : Z) : M unit :=
  fun st => (Ok tt, mkState (<[tokenSymbol := d]> (TOKEN_DECIMALS st)) (trace st)).

(** Truthiness of a table entry: a missing entry is [undefined], and the
    number 0 and the empty string are falsy. *)
Definition truthy_num (v : option Z) : option Z :=
  match v with
  | Some d => if (d =? 0)%Z then None else Some d
  | None => None
  end.

Definition truthy_str (v : option string) : option string :=
  match v with
  | Some a => if truthy a then Some a else None
  | None => None
  end.

(** ** Configuration: the two tables of the source *)

Definition TOKEN_ADDRESSES_sepolia : gmap string string :=
  <["MTK" := "0x0E4Dd0bA5a6f1bc0ffFE421dbB8E252dFF0C66f6"]>
  (<["ETH" := "NATIVE"]>
  (<["USDC" := "0x1c7D4B196Cb0C7B01d743Fbc6116a902379C7238"]>
  (<["DAI" := "0x68194a729C2450ad26072b3D33ADaCbcef39D574"]>
  (<["USDT" := "0xaA8E23Fb1079EA71e0a56F48a2aA51851D8433D0"]> ∅)))).

Definition TOKEN_DECIMALS_initial : gmap string Z :=
  <["MTK" := 18]> (<["USDC" := 6]> (<["ETH" := 18]>
  (<["DAI" := 18]> (<["USDT" := 6]> ∅)))).

Definition initial_state : State := mkState TOKEN_DECIMALS_initial [].

(** What a transfer returns once its receipt is there. *)
Record TransferResult : Type := mkTransferResult {
  transactionHash : string;
  from : string;
  to : string;
  amount : string;
  token : string;
  blockNumber : Z;
  network : string
}.

(** What a balance query returns; the fields a branch leaves out are
    [None]. *)
Record BalanceInfo : Type := mkBalanceInfo {
  b_token : string;
  b_balance : string;
  b_balanceRaw : option string;
  b_decimals : option Z;
  b_error : option string;
  b_network : string
}.

Section Service.

(** The service is written against the library and the address table. *)
Variable eth : Ethers.
Variable TOKEN_ADDRESSES : gmap string string.

(** [getTokenAddress(tokenSymbol)]; [None] is [null]. *)
Definition getTokenAddress (tokenSymbol : string) : option string :=
  truthy_str (TOKEN_ADDRESSES !! tokenSymbol).

Definition Unsupported (tokenSymbol : string) : JsError :=
  Error ("Unsupported token: " ++ tokenSymbol).

(** [getTokenDecimals(tokenSymbol)] *)
Definition getTokenDecimals (tokenSymbol : string) : M Z :=
  cached <- read_decimals tokenSymbol ;;
  match truthy_num cached with
  | Some d => ret d
  | None =>
      if bool_decide (tokenSymbol = "ETH") then ret 18
      else
        match getTokenAddress tokenSymbol with
        | None => throw (Unsupported tokenSymbol)
        | Some tokenAddress =>
            try_catch
              (d <- remote (Decimals tokenAddress)
                           (fun tr => decimals eth tr tokenAddress) ;;
               _ <- write_decimals tokenSymbol d ;;
               ret d)
              (fun error =>
                 again <- read_decimals tokenSymbol ;;
                 ret (default 18 (truthy_num again)))
        end
  end.

(** [error.message || 'Transaction error'] *)
Definition failed_to_send (tokenSymbol : string) (error : JsError) : JsError :=
  Error ("Failed to send " ++ tokenSymbol ++ ": "
         ++ or_else (message error) "Transaction error").

(** [sendEth(toAddress, amount)] *)
Definition sendEth (toAddress amount_ : string) : M TransferResult :=
  if negb (isAddress eth toAddress) then throw (Error "Invalid Ethereum address")
  else
    try_catch
      (amountInWei <- lift (parseUnits eth amount_ 18) ;;
       balance <- remote (GetBalance (wallet_address eth))
                         (fun tr => getBalance eth tr (wallet_address eth)) ;;
       if (balance <? amountInWei)%Z then throw (Error "Insufficient ETH balance")
       else
         tx <- remote (SendTransaction toAddress amountInWei 250000)
                 (fun tr => sendTransaction eth tr toAddress amountInWei 250000) ;;
         receipt <- remote (Wait tx) (fun tr => wait eth tr tx) ;;
         ret (mkTransferResult (receipt_transactionHash receipt)
                (wallet_address eth) toAddress amount_ "ETH"
                (receipt_blockNumber receipt) "testnet"))
      (fun error => throw (failed_to_send "ETH" error)).

(** [sendTokens(tokenSymbol, toAddress, amount)] *)
Definition sendTokens (tokenSymbol toAddress amount_ : string)
  : M TransferResult :=
  if negb (isAddress eth toAddress) then throw (Error "Invalid Ethereum address")
  else if bool_decide (tokenSymbol = "ETH") then sendEth toAddress amount_
  else
    match getTokenAddress tokenSymbol with
    | None => throw (Unsupported tokenSymbol)
    | Some tokenAddress =>
        decimals_ <- getTokenDecimals tokenSymbol ;;
        amountInTokenUnits <- lift (parseUnits eth amount_ decimals_) ;;
        try_catch
          (balance <- remote (BalanceOf tokenAddress (wallet_address eth))
                        (fun tr => balanceOf eth tr tokenAddress (wallet_address eth)) ;;
           if (balance <? amountInTokenUnits)%Z
           then throw (Error ("Insufficient " ++ tokenSymbol ++ " balance"))
           else
             tx <- remote (Transfer tokenAddress toAddress amountInTokenUnits 250000)
                     (fun tr => transfer eth tr tokenAddress toAddress
                                         amountInTokenUnits 250000) ;;
             receipt <- remote (Wait tx) (fun tr => wait eth tr tx) ;;
             ret (mkTransferResult (receipt_transactionHash receipt)
                    (wallet_address eth) toAddress amount_ tokenSymbol
                    (receipt_blockNumber receipt) "testnet"))
          (fun error => throw (failed_to_send tokenSymbol error))
    end.

(** The entry of the [catch] branches of the balance queries. *)
Definition zero_balance (tokenSymbol : string) (error : JsError) : BalanceInfo :=
  mkBalanceInfo tokenSymbol "0" None None (Some (message error)) "testnet".

(** [getTokenBalance(tokenSymbol, address = null)].  The two members of
    [Promise.all] are started in the order they are written. *)
Definition getTokenBalance (tokenSymbol : string) (address : option string)
  : M BalanceInfo :=
  let targetAddress := default (wallet_address eth) (truthy_str address) in
  try_catch
    (if bool_decide (tokenSymbol = "ETH") then
       balanceWei <- remote (GetBalance targetAddress)
                       (fun tr => getBalance eth tr targetAddress) ;;
       balanceEth <- lift (formatUnits eth balanceWei 18) ;;
       ret (mkBalanceInfo "ETH" balanceEth (Some (pretty balanceWei))
              (Some 18) None "testnet")
     else
       match getTokenAddress tokenSymbol with
       | None => throw (Unsupported tokenSymbol)
       | Some tokenAddress =>
           balanceRaw <-
             try_catch
               (remote (BalanceOf tokenAddress targetAddress)
                  (fun tr => balanceOf eth tr tokenAddress targetAddress))
               (fun _ => ret 0) ;;
           decimals_ <- getTokenDecimals tokenSymbol ;;
           balance <- lift (formatUnits eth balanceRaw decimals_) ;;
           ret (mkBalanceInfo tokenSymbol balance (Some (pretty balanceRaw))
                  (Some decimals_) None "testnet")
       end)
    (fun error => ret (zero_balance tokenSymbol error)).

Definition default_symbols : list string := ["ETH"; "MTK"; "USDC"; "DAI"; "USDT"].

(** [Promise.all] over per-symbol queries: the results come in the order
    of the symbols.  The queries are run one after the other here. *)
Fixpoint all {A} (qs : list (M A)) : M (list A) :=
  match qs with
  | [] => ret []
  | q :: qs' => x <- q ;; xs <- all qs' ;; ret (x :: xs)
  end.

(** [getBalances(tokenSymbols = [...], address = null)]; [None] for the
    first argument is a call without it. *)
Definition getBalances (tokenSymbols : option (list string))
           (address : option string) : M (list BalanceInfo) :=
  all (map (fun symbol =>
              try_catch (getTokenBalance symbol address)
                        (fun err => ret (zero_balance symbol err)))
           (default default_symbols tokenSymbols)).

End Service.

End Blockchain.

(* ================================================================== *)
(** * app.js: the command execution route *)
(* ================================================================== *)

Module App.
Import JsString Regex Js.

(** [/send\s+(\d+(?:\.\d+)?)\s+([a-zA-Z]+)\s+to\s+(.+)/i], the pattern of
    the helper in app.js: no anchors. *)
Definition send_re : regex :=
  seqs [ lit_i "send"; Plus is_space;
         Group 1 CommandParser.SEND_amount; Plus is_space;
         Group 2 (Plus is_alpha); Plus is_space;
         lit_i "to"; Plus is_space;
         Group 3 (Plus is_dot) ].

Record SendCommand : Type :=
  mkSend { amount : string; token : string; recipient : string }.

(** [parseCommand(command)] of app.js; [None] is [null].  Groups 1 to 3
    take part in every match (see [CommandParser.parseCommand]). *)
Definition parseCommand (command : string) : option SendCommand :=
  match exec send_re command with
  | None => None
  | Some match_ =>
      match match_ !! 1%nat, match_ !! 2%nat, match_ !! 3%nat with
      | Some m1, Some m2, Some m3 =>
          Some (mkSend m1 (CommandParser.alias (toUpperCase m2))
                       (toLowerCase (trim m3)))
      | _, _, _ => None
      end
  end.

(** The JSON body of a response. *)
Inductive Body : Type :=
| Failure (error : string) (suggestion : option string)
| Success (message : string) (transaction : Blockchain.TransferResult).

Record Response : Type := mkResponse { status : Z; body : Body }.

(** What the route works on: the contact collection and the state of the
    blockchain service. *)
Record World : Type := mkWorld {
  contacts : list ContactModel.Contact;
  service : Blockchain.State
}.

Section Routes.

Variable eth : Blockchain.Ethers.
Variable runSettersOnQuery : bool.

(** [POST /api/execute] with [req.body.command]; [None] is a body
    without the field.  The service is the one constructed in app.js,
    over the address table of the source. *)
Definition execute (command : option string) (w : World) : Response * World :=
  match Blockchain.truthy_str command with
  | None => (mkResponse 400 (Failure "Command is required" None), w)
  | Some command =>
      match parseCommand command with
      | None =>
          (mkResponse 400
             (Failure "Invalid command format"
                (Some ("Try something like " ++ dq ++ "Send 5 USDC to Alice" ++ dq))),
           w)
      | Some parsedCommand =>
          let recipient := recipient parsedCommand in
          match ContactModel.findByName runSettersOnQuery recipient
                  (contacts w) with
          | None =>
              (mkResponse 404
                 (Failure ("Contact " ++ dq ++ recipient ++ dq ++ " not found")
                    (Some ("Make sure you've added " ++ recipient
                           ++ " to your contacts first"))),
               w)
          | Some contact =>
              match Blockchain.sendTokens eth Blockchain.TOKEN_ADDRESSES_sepolia
                      (token parsedCommand) (ContactModel.address contact)
                      (amount parsedCommand) (service w) with
              | (Ok transaction, st') =>
                  (mkResponse 200
                     (Success ("Successfully sent " ++ amount parsedCommand ++ " "
                               ++ token parsedCommand ++ " to " ++ recipient)
                              transaction),
                   mkWorld (contacts w) st')
              | (Throw error, st') =>
                  (mkResponse 500 (Failure (message error) None),
                   mkWorld (contacts w) st')
              end
          end
      end
  end.

End Routes.

End App.

(* ================================================================== *)
(** * A chain client for examples *)
(* ================================================================== *)

(** Instances of the client and its network, used to run the service on
    concrete inputs.  The helpers follow the library on the inputs used:
    whole-number amounts for [parseUnits], and [formatUnits] in full. *)
Module Demo.
Import JsString Js Blockchain.

Definition wallet : string := "0x1111111111111111111111111111111111111111".
Definition alice : string := "0x2222222222222222222222222222222222222222".

Fixpoint digits_value (s : string) (acc : Z) : option Z :=
  match s with
  | EmptyString => Some acc
  | String c s' =>
      if is_digit c then digits_value s' (acc * 10 + (Z.of_N (code_unit c) - 48))
      else None
  end.

Definition parseUnits_whole (value : string) (d : Z) : result Z :=
  match (if truthy value then digits_value value 0 else None) with
  | Some n => Ok (n * 10 ^ d)
  | None => Throw (Error "invalid decimal value")
  end.

Fixpoint zeros (n : nat) : string :=
  match n with O => "" | S n' => String "0" (zeros n') end.

Definition pad_left (n : nat) (s : string) : string :=
  zeros (n - String.length s) ++ s.

Fixpoint strip_zeros (s : string) : string :=
  match s with
  | EmptyString => EmptyString
  | String c s' =>
      match strip_zeros s' with
      | EmptyString => if bool_decide (c = "0"%char) then EmptyString
                       else String c EmptyString
      | t => String c t
      end
  end.

Definition formatUnits_full (value d : Z) : result string :=
  let multiplier := 10 ^ d in
  let whole := pretty (Z.abs value / multiplier) in
  let fraction := strip_zeros (pad_left (Z.to_nat d)
                                 (pretty (Z.abs value mod multiplier))) in
  Ok ((if value <? 0 then "-" else "")
      ++ (if d =? 0 then whole
          else whole ++ "." ++ or_else fraction "0")).

(** A client whose native balance reads answer [native], whose token
    balance reads answer [erc20], whose decimals reads answer [dec], and
    whose submissions are accepted and included in block 7. *)
Definition client (native erc20 dec : result Z) : Ethers :=
  {| wallet_address := wallet;
     isAddress := ContactModel.valid_address;
     parseUnits := parseUnits_whole;
     formatUnits := formatUnits_full;
     getBalance := fun _ _ => native;
     balanceOf := fun _ _ _ => erc20;
     decimals := fun _ _ => dec;
     transfer := fun _ _ _ _ _ => Ok "0xabc";
     sendTransaction := fun _ _ _ _ => Ok "0xabc";
     wait := fun _ tx => Ok (mkReceipt tx 7) |}.

Definition unreachable : result Z := Throw (Error "network error").

(** An address table with a token that has no entry in [TOKEN_DECIMALS]. *)
Definition TOKEN_ADDRESSES_extended : gmap string string :=
  <["FOO" := "0x3333333333333333333333333333333333333333"]>
    TOKEN_ADDRESSES_sepolia.

End Demo.

(* ================================================================== *)
(** * The vocabulary of the properties *)
(* ================================================================== *)

Module StringSpec.
Import JsString.

Definition starts_with (p : ascii -> bool) (s : string) : bool :=
  match s with EmptyString => false | String c _ => p c end.

Fixpoint any_string (p : ascii -> bool) (s : string) : bool :=
  match s with
  | EmptyString => false
  | String c s' => p c || any_string p s'
  end.

(** A non-empty run of characters of one class. *)
Definition run (p : ascii -> bool) (s : string) : bool :=
  truthy s && all_string p s.

(** A decimal number: digits, and optionally a point and more digits. *)
Definition decimal (int : string) (frac : option string) : string :=
  int ++ match frac with Some f => "." ++ f | None => "" end.

Definition nonspace (c : ascii) : bool := negb (is_space c).

(** The words of a text: its maximal runs of characters other than
    blanks. *)
Fixpoint words (s : string) : list string :=
  match s with
  | EmptyString => []
  | String c s' =>
      if is_space c then words s'
      else if starts_with nonspace s' then
        match words s' with
        | w :: ws => String c w :: ws
        | [] => [String c EmptyString]
        end
      else String c EmptyString :: words s'
  end.

(** A text with its ASCII letters in lower case. *)
Definition low (s : string) : string := map_string Regex.lower_ascii s.

End StringSpec.

Module RegexSpec.
Import JsString Regex.

(** [consumes r w s]: at any index, [r] matches the prefix [w] of
    [w ++ s] on its first attempt, so the match of a sequence goes on
    with [s] whenever what follows succeeds there. *)
Definition consumes (r : regex) (w s : string) : Prop :=
  forall (k : cont) i caps res,
    k (i + String.length w)%nat s caps = Some res ->
    m r k i (w ++ s) caps = Some res.

(** [sets n r]: group [n] takes part in every match of [r]. *)
Fixpoint sets (n : nat) (r : regex) : bool :=
  match r with
  | Group n' r1 => (n' =? n)%nat || sets n r1
  | Seq r1 r2 => sets n r1 || sets n r2
  | Alt r1 r2 => sets n r1 && sets n r2
  | _ => false
  end.

(** [matches r i w rest]: the declarative reading of a pattern.  [r]
    matches the text [w] that starts at index [i] of the input and is
    followed by [rest]. *)
Fixpoint matches (r : regex) (i : nat) (w rest : string) : Prop :=
  match r with
  | Eps => w = ""
  | Chr p => exists c, w = String c "" /\ p c = true
  | Seq r1 r2 =>
      exists w1 w2, w = w1 ++ w2 /\ matches r1 i w1 (w2 ++ rest)
                    /\ matches r2 (i + String.length w1) w2 rest
  | Alt r1 r2 => matches r1 i w rest \/ matches r2 i w rest
  | Star p => all_string p w = true
  | Group _ r1 => matches r1 i w rest
  | Bol => w = "" /\ i = 0%nat
  | Eol => w = "" /\ rest = ""
  end.

(** [within P r]: every character class of [r] lies inside [P]. *)
Fixpoint within (P : ascii -> bool) (r : regex) : Prop :=
  match r with
  | Chr p | Star p => forall c, p c = true -> P c = true
  | Seq r1 r2 | Alt r1 r2 => within P r1 /\ within P r2
  | Group _ r1 => within P r1
  | _ => True
  end.

(** [requires Q r]: every match of [r] has a character of [Q] in it. *)
Fixpoint requires (Q : ascii -> bool) (r : regex) : Prop :=
  match r with
  | Chr p => forall c, p c = true -> Q c = true
  | Seq r1 r2 => requires Q r1 \/ requires Q r2
  | Alt r1 r2 => requires Q r1 /\ requires Q r2
  | Group _ r1 => requires Q r1
  | _ => False
  end.

(** The same two, decided over the 256 characters. *)
Definition subclass (p P : ascii -> bool) : bool :=
  forallb (fun n => implb (p (ascii_of_nat n)) (P (ascii_of_nat n)))
          (seq 0 256).

Fixpoint withinb (P : ascii -> bool) (r : regex) : bool :=
  match r with
  | Chr p | Star p => subclass p P
  | Seq r1 r2 | Alt r1 r2 => withinb P r1 && withinb P r2
  | Group _ r1 => withinb P r1
  | _ => true
  end.

Fixpoint requiresb (Q : ascii -> bool) (r : regex) : bool :=
  match r with
  | Chr p => subclass p Q
  | Seq r1 r2 => requiresb Q r1 || requiresb Q r2
  | Alt r1 r2 => requiresb Q r1 && requiresb Q r2
  | Group _ r1 => requiresb Q r1
  | _ => false
  end.

(** A pattern whose last element is [$]. *)
Fixpoint ends_eol (r : regex) : bool :=
  match r with
  | Eol => true
  | Seq _ r2 => ends_eol r2
  | _ => false
  end.

(** A letter or a blank. *)
Definition letter_or_blank (c : ascii) : bool := is_alpha c || is_space c.

End RegexSpec.

Module ParserSpec.
Import JsString Regex CommandParser.

(** The four patterns of the parser all fail on a command. *)
Definition matches_none (command : string) : Prop :=
  exec SEND command = None /\ exec CHECK_BALANCE_re command = None
  /\ exec ADD_CONTACT_re command = None /\ exec LIST_CONTACTS_re command = None.

(** The token of a command in the words of the specification: the symbol
    in upper case, where [MYTOKEN], [MY-TOKEN] and [MY_TOKEN] stand for
    [MTK].  It is written without the parser's [alias], to be compared
    with it. *)
Definition aliases : list string := ["MYTOKEN"; "MY-TOKEN"; "MY_TOKEN"].

Definition normalized (token : string) : string :=
  let upper := toUpperCase token in
  if bool_decide (upper ∈ aliases) then "MTK" else upper.

End ParserSpec.

Module ContactSpec.
Import JsString ContactModel.

(** A stored name that the lookup leaves as it is: word characters and
    blanks only. *)
Definition plain (s : string) : bool :=
  all_string (fun c => is_word c || is_space c) s.

End ContactSpec.

Module ServiceSpec.
Import JsString Js Blockchain.

(** A call that is not a submission. *)
Definition is_read (c : call) : bool := negb (is_submission c).

(** [grows c]: [c] only adds calls to the trace, and keeps every table
    entry that is a number other than 0. *)
Definition grows {A} (c : M A) : Prop :=
  forall st r st', c st = (r, st') ->
    (exists new, trace st' = (trace st ++ new)%list)
    /\ forall sym d, TOKEN_DECIMALS st !! sym = Some d -> d <> 0 ->
                     TOKEN_DECIMALS st' !! sym = Some d.

(** The error a transfer throws when the balance is too low: the
    message of the balance check inside the wrapper of the [catch]. *)
Definition InsufficientBalance (sym : string) : JsError :=
  Error ("Failed to send " ++ sym ++ ": Insufficient " ++ sym ++ " balance").

(** The calls made from [st] to [st']. *)
Definition calls_between (st st' : State) (new : list call) : Prop :=
  trace st' = (trace st ++ new)%list.

(** An entry of a balance answer: a zero balance with an error message,
    or a balance with its raw value and decimals and no error. *)
Definition failure_entry (sym : string) (info : BalanceInfo) : Prop :=
  exists e, info = zero_balance sym e.

Definition success_entry (sym : string) (info : BalanceInfo) : Prop :=
  b_token info = sym /\ b_error info = None
  /\ is_Some (b_balanceRaw info) /\ is_Some (b_decimals info).

(** The raw balance of a token: a failed read counts as 0. *)
Definition raw_balance (r : result Z) : Z :=
  match r with Ok v => v | Throw _ => 0 end.




Section Service.

Variable eth : Ethers.
Variable TOKEN_ADDRESSES : gmap string string.

Abbreviation getTokenAddress' := (getTokenAddress TOKEN_ADDRESSES).
Abbreviation getTokenDecimals' := (getTokenDecimals eth TOKEN_ADDRESSES).
Abbreviation sendTokens' := (sendTokens eth TOKEN_ADDRESSES).
Abbreviation getTokenBalance' := (getTokenBalance eth TOKEN_ADDRESSES).
Abbreviation getBalances' := (getBalances eth TOKEN_ADDRESSES).

(** [insufficient sym amount st st1 read]: in state [st] the balance of
    the signing account is strictly below the requested amount, both in
    the smallest unit of the token: the amount converts at the resolved
    decimals (18 for ETH), [st1] is the state once they are resolved,
    and the balance is the answer to the call [read] made then. *)
Inductive insufficient (sym amount_ : string) (st : State)
  : State -> call -> Prop :=
| insufficient_native a b :
    sym = "ETH" ->
    parseUnits eth amount_ 18 = Ok a ->
    getBalance eth (trace st) (wallet_address eth) = Ok b ->
    b < a ->
    insufficient sym amount_ st st (GetBalance (wallet_address eth))
| insufficient_token addr d st1 a b :
    sym <> "ETH" ->
    getTokenAddress' sym = Some addr ->
    getTokenDecimals' sym st = (Ok d, st1) ->
    parseUnits eth amount_ d = Ok a ->
    balanceOf eth (trace st1) addr (wallet_address eth) = Ok b ->
    b < a ->
    insufficient sym amount_ st st1 (BalanceOf addr (wallet_address eth)).

(** The error of a transfer whose amount does not convert:
    [unparseable sym amount st st1 err] when the conversion at the
    resolved decimals throws; [err] is what the transfer then throws (on
    the ETH path the conversion is inside the [try]), and [st1] the state
    once the decimals are resolved. *)
Inductive unparseable (sym amount_ : string) (st : State)
  : State -> JsError -> Prop :=
| unparseable_native e :
    sym = "ETH" ->
    parseUnits eth amount_ 18 = Throw e ->
    unparseable sym amount_ st st (failed_to_send "ETH" e)
| unparseable_token addr d st1 e :
    sym <> "ETH" ->
    getTokenAddress' sym = Some addr ->
    getTokenDecimals' sym st = (Ok d, st1) ->
    parseUnits eth amount_ d = Throw e ->
    unparseable sym amount_ st st1 e.

Definition target_of (address : option string) : string :=
  default (wallet_address eth) (truthy_str address).

(** [runs address syms st infos st']: the single-symbol queries for
    [syms], one after the other from [st], return [infos] and end in
    [st']. *)
Inductive runs (address : option string)
  : list string -> State -> list BalanceInfo -> State -> Prop :=
| runs_nil st : runs address [] st [] st
| runs_cons sym syms st info st1 infos st2 :
    getTokenBalance' sym address st = (Ok info, st1) ->
    runs address syms st1 infos st2 ->
    runs address (sym :: syms) st (info :: infos) st2.

(** One call of a method of the service.  The two methods left out do
    not touch the state: [getTokenAddress] only reads the address table,
    and [getNetworkInfo] asks the provider for its network and neither
    reads nor writes the decimals table. *)
Inductive step (st st' : State) : Prop :=
| step_getTokenDecimals sym r :
    getTokenDecimals' sym st = (r, st') -> step st st'
| step_sendEth toAddress amount_ r :
    sendEth eth toAddress amount_ st = (r, st') -> step st st'
| step_sendTokens sym toAddress amount_ r :
    sendTokens' sym toAddress amount_ st = (r, st') -> step st st'
| step_getTokenBalance sym address r :
    getTokenBalance' sym address st = (r, st') -> step st st'
| step_getBalances syms address r :
    getBalances' syms address st = (r, st') -> step st st'.

(** Any number of calls, one after the other. *)
Definition later : State -> State -> Prop := rtc step.

(** The cases of [getTokenDecimals] over any address table. *)
Definition decimals_cases_statement (sym : string) (st : State) : Prop :=
  (forall d, TOKEN_DECIMALS st !! sym = Some d -> d <> 0 ->
     forall st1, later st st1 -> getTokenDecimals' sym st1 = (Ok d, st1))
  /\ (truthy_num (TOKEN_DECIMALS st !! sym) = None -> sym <> "ETH" ->
      match getTokenAddress' sym with
      | Some addr =>
          match decimals eth (trace st) addr with
          | Ok d =>
              exists st', getTokenDecimals' sym st = (Ok d, st')
                /\ trace st' = (trace st ++ [Decimals addr])%list
                /\ TOKEN_DECIMALS st' = <[sym := d]> (TOKEN_DECIMALS st)
                /\ (d <> 0 -> forall st1, later st' st1 ->
                               getTokenDecimals' sym st1 = (Ok d, st1))
          | Throw _ =>
              exists st', getTokenDecimals' sym st = (Ok 18, st')
                /\ trace st' = (trace st ++ [Decimals addr])%list
                /\ TOKEN_DECIMALS st' = TOKEN_DECIMALS st
          end
      | None => getTokenDecimals' sym st = (Throw (Unsupported sym), st)
      end).

End Service.

End ServiceSpec.

Module RouteSpec.
Import JsString Regex Js App.

(** The intents of the parser of utils/commandParser.js other than
    [Send] and [Unknown]. *)
Definition other_intent (pc : CommandParser.ParsedCommand) : bool :=
  match pc with
  | CommandParser.CheckBalance _ | CommandParser.AddContact _ _
  | CommandParser.ListContacts => true
  | _ => false
  end.

Section Routes.

Variable eth : Blockchain.Ethers.
Variable runSettersOnQuery : bool.

(** The command a request carries and the helper of app.js reads. *)
Definition parsed (command : option string) : option SendCommand :=
  match Blockchain.truthy_str command with
  | Some text => parseCommand text
  | None => None
  end.

Definition invalid_command : Response :=
  mkResponse 400
    (Failure "Invalid command format"
       (Some ("Try something like " ++ dq ++ "Send 5 USDC to Alice" ++ dq))).

Definition not_found (recipient_ : string) : Response :=
  mkResponse 404
    (Failure ("Contact " ++ dq ++ recipient_ ++ dq ++ " not found")
       (Some ("Make sure you've added " ++ recipient_
              ++ " to your contacts first"))).

(** The route, case by case. *)
Definition dispatch_statement (command : option string) (w : World) : Prop :=
  let resp := fst (execute eth runSettersOnQuery command w) in
  let w' := snd (execute eth runSettersOnQuery command w) in
  contacts w' = contacts w
  /\ match parsed command with
     | None =>
         w' = w
         /\ resp = match Blockchain.truthy_str command with
                   | None => mkResponse 400 (Failure "Command is required" None)
                   | Some _ => invalid_command
                   end
     | Some cmd =>
         match ContactModel.findByName runSettersOnQuery (recipient cmd)
                 (contacts w) with
         | None => w' = w /\ resp = not_found (recipient cmd)
         | Some contact =>
             exists r,
               Blockchain.sendTokens eth Blockchain.TOKEN_ADDRESSES_sepolia
                 (token cmd) (ContactModel.address contact) (amount cmd)
                 (service w)
               = (r, service w')
               /\ resp = match r with
                         | Ok transaction =>
                             mkResponse 200
                               (Success ("Successfully sent " ++ amount cmd ++ " "
                                         ++ token cmd ++ " to " ++ recipient cmd)
                                  transaction)
                         | Throw error =>
                             mkResponse 500 (Failure (message error) None)
                         end
         end
     end.

End Routes.

Definition demo_world : World :=
  mkWorld [ContactModel.mkContact "alice" Demo.alice] Blockchain.initial_state.

End RouteSpec.

(* ================================================================== *)
(** * The rest of the sources *)
(* ================================================================== *)

(** ** utils/commandParser.js: the description of a command *)

Module CommandDescription.
Import JsString Js CommandParser.

(** [getCommandDescription(parsedCommand)]; [None] is a falsy argument,
    such as the [null] of [parseCommand]. *)
Definition getCommandDescription (parsedCommand : option ParsedCommand)
  : string :=
  match parsedCommand with
  | None => "Invalid command"
  | Some (Send amount token recipient) =>
      "Send " ++ amount ++ " " ++ token ++ " to " ++ recipient
  | Some (CheckBalance token) =>
      if bool_decide (token = "ALL") then "Check balance of all tokens"
      else "Check balance of " ++ token
  | Some (AddContact name address) =>
      "Add contact " ++ dq ++ name ++ dq ++ " with address " ++ address
  | Some ListContacts => "List all contacts"
  | Some (Unknown originalCommand) =>
      "Unknown command: " ++ dq ++ originalCommand ++ dq
  end.

End CommandDescription.

(** ** app.js: the contact and balance routes *)

Module AppRoutes.
Import JsString Js App.

Inductive ContactsBody : Type :=
| ContactsError (error : string)
| ContactDocument (contact : ContactModel.Contact).

Record ContactsResponse : Type :=
  mkContactsResponse { contacts_status : Z; contacts_body : ContactsBody }.

(** [POST /api/contacts] with the texts [req.body.name] and
    [req.body.address]; [None] is a body without the field. *)
Definition post_contacts (name address : option string) (w : World)
  : ContactsResponse * World :=
  match Blockchain.truthy_str name, Blockchain.truthy_str address with
  | Some name, Some address =>
      match ContactModel.create (ContactModel.mkData name address)
              (contacts w) with
      | (Ok contact, db) =>
          (mkContactsResponse 201 (ContactDocument contact),
           mkWorld db (service w))
      | (Throw error, db) =>
          (mkContactsResponse 500 (ContactsError (message error)),
           mkWorld db (service w))
      end
  | _, _ =>
      (mkContactsResponse 400 (ContactsError "Name and address are required"),
       w)
  end.

Inductive BalanceBody : Type :=
| BalanceError (error : string)
| OneBalance (balance : Blockchain.BalanceInfo)
| AllBalances (balances : list Blockchain.BalanceInfo).

Record BalanceResponse : Type :=
  mkBalanceResponse { balance_status : Z; balance_body : BalanceBody }.

(** The two characters of the model whose upper case is a code unit
    above U+00FF: U+00B5 (upper case U+039C) and U+00FF (upper case
    U+0178). *)
Definition upper_case_above (c : ascii) : bool :=
  ((code_unit c =? 181) || (code_unit c =? 255))%N.

(** [String.prototype.toUpperCase] on any text, as the route applies it
    to a query parameter: U+00DF becomes [SS], every other character is
    mapped by itself ([upper_char]).  The answer is [None] for a text
    whose upper case cannot be written with the characters of the
    model. *)
Fixpoint toUpperCase_text (s : string) : option string :=
  match s with
  | EmptyString => Some EmptyString
  | String c s' =>
      if upper_case_above c then None
      else
        match toUpperCase_text s' with
        | Some u =>
            Some (if (code_unit c =? 223)%N then String "S" (String "S" u)
                  else String (upper_char c) u)
        | None => None
        end
  end.

Section Routes.

Variable eth : Blockchain.Ethers.

(** [GET /api/balance] with the text [req.query.token]; [None] is a
    query without it.  A parameter that is not a text (one given more
    than once, say) is not modelled.  The answer is [None] where the
    upper case of the token is outside the model (see
    [toUpperCase_text]). *)
Definition get_balance (token : option string) (w : World)
  : option (BalanceResponse * World) :=
  match Blockchain.truthy_str token with
  | Some token =>
      match toUpperCase_text token with
      | Some symbol =>
          Some
            match Blockchain.getTokenBalance eth
                    Blockchain.TOKEN_ADDRESSES_sepolia symbol None
                    (service w) with
            | (Ok balance, st') =>
                (mkBalanceResponse 200 (OneBalance balance),
                 mkWorld (contacts w) st')
            | (Throw error, st') =>
                (mkBalanceResponse 500 (BalanceError (message error)),
                 mkWorld (contacts w) st')
            end
      | None => None
      end
  | None =>
      Some
        match Blockchain.getBalances eth Blockchain.TOKEN_ADDRESSES_sepolia
                None None (service w) with
        | (Ok balances, st') =>
            (mkBalanceResponse 200 (AllBalances balances),
             mkWorld (contacts w) st')
        | (Throw error, st') =>
            (mkBalanceResponse 500 (BalanceError (message error)),
             mkWorld (contacts w) st')
        end
  end.

End Routes.

End AppRoutes.

(** ** The vocabulary of the further properties *)

Module ShapeSpec.
Import JsString Regex StringSpec RegexSpec CommandParser.

(** A keyword of a list, in any letter case. *)
Definition keyword (kws : list string) (kw : string) : bool :=
  bool_decide (toLowerCase kw ∈ kws).

(** The optional [my] of the balance and list commands, with the blanks
    after it (there may be none). *)
Definition my_text (my : option (string * string)) : string :=
  match my with
  | Some (kw, ws) => kw ++ ws
  | None => ""
  end.

Definition my_ok (my : option (string * string)) : bool :=
  match my with
  | Some (kw, ws) => keyword ["my"] kw && all_string is_space ws
  | None => true
  end.

(** The optional [of <token>] of a balance command. *)
Definition of_text (tail : option (string * string * string * string))
  : string :=
  match tail with
  | Some (ws1, kw, ws2, tok) => ws1 ++ kw ++ ws2 ++ tok
  | None => ""
  end.

Definition of_ok (tail : option (string * string * string * string)) : bool :=
  match tail with
  | Some (ws1, kw, ws2, tok) =>
      run is_space ws1 && keyword ["of"] kw && run is_space ws2
      && run is_alpha tok
  | None => true
  end.

Definition of_token (tail : option (string * string * string * string))
  : string :=
  match tail with
  | Some (_, _, _, tok) => alias (toUpperCase tok)
  | None => "ALL"
  end.

(** What may stand between the name and the address of an add-contact
    command: nothing, [with address] or [as]. *)
Inductive link : Type :=
| NoLink
| WithAddress (kw1 ws1 kw2 ws2 : string)
| As (kw ws : string).

Definition link_text (l : link) : string :=
  match l with
  | NoLink => ""
  | WithAddress kw1 ws1 kw2 ws2 => kw1 ++ ws1 ++ kw2 ++ ws2
  | As kw ws => kw ++ ws
  end.

Definition link_ok (l : link) : bool :=
  match l with
  | NoLink => true
  | WithAddress kw1 ws1 kw2 ws2 =>
      keyword ["with"] kw1 && run is_space ws1
      && keyword ["address"] kw2 && run is_space ws2
  | As kw ws => keyword ["as"] kw && run is_space ws
  end.

(** [0x] or [0X] and forty hexadecimal digits. *)
Definition hex_address (addr : string) : bool :=
  match addr with
  | String z (String x h) =>
      bool_decide (z = "0"%char)
      && (bool_decide (x = "x"%char) || bool_decide (x = "X"%char))
      && (String.length h =? 40)%nat && all_string is_hex h
  | _ => false
  end.

(** An address that starts with [0x] in lower case. *)
Definition lower_prefix (addr : string) : bool :=
  match addr with
  | String z (String x _) =>
      bool_decide (z = "0"%char) && bool_decide (x = "x"%char)
  | _ => false
  end.

(** A blank text: white space only, possibly empty. *)
Definition blank (s : string) : bool := all_string is_space s.

(** A letter other than [b], or a blank. *)
Definition no_b (c : ascii) : bool := letter_or_blank c && negb (ieq "b" c).

End ShapeSpec.

Module DirectorySpec.
Import JsString Js ContactModel.

Definition names (db : collection) : list string := map name db.

(** A document as the schema leaves it: a name that is not empty and is
    its own lower-cased and trimmed form, and an address of the declared
    format. *)
Definition stored_ok (c : Contact) : Prop :=
  name c <> "" /\ set_name (name c) = name c
  /\ valid_address (address c) = true.

Definition well_formed (db : collection) : Prop :=
  NoDup (names db) /\ Forall stored_ok db.

(** A collection that calls of [create] built from the empty one. *)
Inductive built : collection -> Prop :=
| built_empty : built []
| built_create data db r db' :
    built db -> create data db = (r, db') -> built db'.

End DirectorySpec.

Module TransferSpec.
Import JsString Js Blockchain.

Section Service.

Variable eth : Ethers.
Variable TOKEN_ADDRESSES : gmap string string.

(** The decimals a transfer of a token works with, and the state once
    they are there: 18 for ETH, without a look at the table. *)
Definition resolved (tokenSymbol : string) (st : State) (d : Z) (st1 : State)
  : Prop :=
  if bool_decide (tokenSymbol = "ETH") then d = 18 /\ st1 = st
  else getTokenDecimals eth TOKEN_ADDRESSES tokenSymbol st = (Ok d, st1).

(** The balance read of a transfer, and its answer after the calls
    [tr]. *)
Definition balance_read (tokenSymbol : string) (tr : list call)
  : option (call * result Z) :=
  if bool_decide (tokenSymbol = "ETH")
  then Some (GetBalance (wallet_address eth),
             getBalance eth tr (wallet_address eth))
  else match getTokenAddress TOKEN_ADDRESSES tokenSymbol with
       | Some tokenAddress =>
           Some (BalanceOf tokenAddress (wallet_address eth),
                 balanceOf eth tr tokenAddress (wallet_address eth))
       | None => None
       end.

(** The submission of a transfer of [units] to an address, and its
    answer after the calls [tr]: a native transaction for ETH, a call of
    [transfer] on the contract of the token otherwise. *)
Definition submission (tokenSymbol toAddress : string) (units : Z)
           (tr : list call) : option (call * result string) :=
  if bool_decide (tokenSymbol = "ETH")
  then Some (SendTransaction toAddress units 250000,
             sendTransaction eth tr toAddress units 250000)
  else match getTokenAddress TOKEN_ADDRESSES tokenSymbol with
       | Some tokenAddress =>
           Some (Transfer tokenAddress toAddress units 250000,
                 transfer eth tr tokenAddress toAddress units 250000)
       | None => None
       end.

(** The read a balance query for a symbol makes when the decimals of
    the symbol are in the table: of the native balance for ETH, of the
    contract of the token otherwise; none for a symbol without address. *)
Definition balance_call (address : option string) (tokenSymbol : string)
  : option call :=
  let targetAddress := default (wallet_address eth) (truthy_str address) in
  if bool_decide (tokenSymbol = "ETH") then Some (GetBalance targetAddress)
  else match getTokenAddress TOKEN_ADDRESSES tokenSymbol with
       | Some tokenAddress => Some (BalanceOf tokenAddress targetAddress)
       | None => None
       end.

End Service.

(** The submissions among some calls. *)
Definition submissions (calls : list call) : list call :=
  List.filter is_submission calls.

End TransferSpec.

(** ** Further instances for examples *)

Module Scenario.
Import JsString Js Blockchain.

(** A client like [Demo.client] whose confirmations time out. *)
Definition stalled (native erc20 dec : result Z) : Ethers :=
  {| wallet_address := Demo.wallet;
     isAddress := ContactModel.valid_address;
     parseUnits := Demo.parseUnits_whole;
     formatUnits := Demo.formatUnits_full;
     getBalance := fun _ _ => native;
     balanceOf := fun _ _ _ => erc20;
     decimals := fun _ _ => dec;
     transfer := fun _ _ _ _ _ => Ok "0xabc";
     sendTransaction := fun _ _ _ _ => Ok "0xabc";
     wait := fun _ _ => Throw (Error "timeout") |}.

(** The contract of USDC in the table of the source. *)
Definition usdc : string := "0x1c7D4B196Cb0C7B01d743Fbc6116a902379C7238".

End Scenario.

(* ================================================================== *)
(** * Facts about strings and the matcher *)
(* ================================================================== *)

Module StringFacts.
Import JsString StringSpec.

Lemma sapp_nil (s : string) : "" ++ s = s.
Proof. reflexivity. Qed.

Lemma sapp_cons (c : ascii) (s t : string) :
  String c s ++ t = String c (s ++ t).
Proof. reflexivity. Qed.

Lemma sapp_nil_r (s : string) : s ++ "" = s.
Proof. induction s as [|c s IH]; [reflexivity|]. by rewrite sapp_cons, IH. Qed.

Lemma sapp_assoc (s t u : string) : (s ++ t) ++ u = s ++ (t ++ u).
Proof.
  induction s as [|c s IH]; [reflexivity|]. by rewrite !sapp_cons, IH.
Qed.

Lemma length_sapp (s t : string) :
  String.length (s ++ t) = (String.length s + String.length t)%nat.
Proof.
  induction s as [|c s IH]; [reflexivity|].
  rewrite sapp_cons. simpl. by rewrite IH.
Qed.

(** Case analysis on the 256 characters. *)
Ltac each_char c := destruct c as [[] [] [] [] [] [] [] []].

Lemma digit_not_space c : is_digit c = true -> is_space c = false.
Proof. each_char c; vm_compute; congruence. Qed.

Lemma alpha_not_space c : is_alpha c = true -> is_space c = false.
Proof. each_char c; vm_compute; congruence. Qed.

Lemma space_not_digit c : is_space c = true -> is_digit c = false.
Proof. each_char c; vm_compute; congruence. Qed.

Lemma space_not_alpha c : is_space c = true -> is_alpha c = false.
Proof. each_char c; vm_compute; congruence. Qed.

Lemma lower_char_idem c : lower_char (lower_char c) = lower_char c.
Proof. each_char c; vm_compute; reflexivity. Qed.

Lemma lower_char_space c : is_space (lower_char c) = is_space c.
Proof. each_char c; vm_compute; reflexivity. Qed.

Lemma lower_char_word c :
  is_word c || is_space c = true -> is_word (lower_char c) || is_space (lower_char c) = true.
Proof. each_char c; vm_compute; congruence. Qed.

Lemma toLowerCase_idem s : toLowerCase (toLowerCase s) = toLowerCase s.
Proof.
  induction s as [|c s IH]; [reflexivity|].
  unfold toLowerCase in *. simpl. by rewrite lower_char_idem, IH.
Qed.

(** ** Trimming *)

Lemma trimStart_head c s : is_space c = false -> trimStart (String c s) = String c s.
Proof. intros H. simpl. by rewrite H. Qed.

Lemma trimEnd_app (a b : string) :
  trimEnd b <> "" -> trimEnd (a ++ b) = a ++ trimEnd b.
Proof.
  intros Hb. induction a as [|c a IH]; [reflexivity|].
  rewrite !sapp_cons. simpl. rewrite IH.
  destruct (a ++ trimEnd b) eqn:E; [|reflexivity].
  destruct a; [|discriminate]. rewrite sapp_nil in E. contradiction.
Qed.

Lemma trimEnd_idem s : trimEnd (trimEnd s) = trimEnd s.
Proof.
  induction s as [|c s IH]; [reflexivity|]. simpl.
  destruct (trimEnd s) as [|d t] eqn:E.
  - destruct (is_space c) eqn:Hc; [reflexivity|]. simpl. by rewrite Hc.
  - simpl in *. rewrite IH. reflexivity.
Qed.

Lemma trimStart_split s :
  exists l, s = l ++ trimStart s /\ all_string is_space l = true.
Proof.
  induction s as [|c s (l & Hl & Hsp)].
  - by exists "".
  - simpl. destruct (is_space c) eqn:Hc.
    + exists (String c l). rewrite sapp_cons, <- Hl. simpl. by rewrite Hc.
    + by exists "".
Qed.

Lemma trimStart_starts s : starts_with is_space (trimStart s) = false.
Proof.
  induction s as [|c s IH]; [reflexivity|]. simpl.
  destruct (is_space c) eqn:Hc; [exact IH|]. simpl. exact Hc.
Qed.

Lemma trimEnd_starts s :
  trimEnd s <> "" -> starts_with is_space s = false ->
  starts_with is_space (trimEnd s) = false.
Proof.
  destruct s as [|c s]; [done|]. simpl. intros Hne Hc.
  destruct (trimEnd s); [|exact Hc].
  rewrite Hc in *. exact Hc.
Qed.

Lemma trim_starts s : trim s <> "" -> starts_with is_space (trim s) = false.
Proof. intros H. apply trimEnd_starts; [exact H|apply trimStart_starts]. Qed.

Lemma trimStart_trimEnd_comm_nonspace s :
  starts_with is_space s = false -> trimStart (trimEnd s) = trimEnd s.
Proof.
  destruct s as [|c s]; [reflexivity|]. simpl. intros Hc.
  destruct (trimEnd s).
  - rewrite Hc. simpl. by rewrite Hc.
  - simpl. by rewrite Hc.
Qed.

Lemma trim_idem s : trim (trim s) = trim s.
Proof.
  unfold trim.
  rewrite (trimStart_trimEnd_comm_nonspace (trimStart s)) by apply trimStart_starts.
  apply trimEnd_idem.
Qed.

(** ** Words *)

Lemma words_head s :
  starts_with nonspace s = true -> exists w ws, words s = w :: ws.
Proof.
  destruct s as [|c s]; [done|]. simpl. unfold nonspace at 1.
  destruct (is_space c); [done|]. intros _.
  destruct (starts_with nonspace s); [|eauto].
  destruct (words s); eauto.
Qed.

Lemma starts_with_app p x s :
  starts_with p (x ++ s) = if truthy x then starts_with p x else starts_with p s.
Proof. by destruct x. Qed.

Lemma words_app x s :
  starts_with nonspace s = false ->
  words (x ++ s) = (words x ++ words s)%list.
Proof.
  intros Hs. induction x as [|c x IH]; [reflexivity|].
  rewrite sapp_cons. simpl. rewrite IH, starts_with_app.
  destruct (is_space c); [reflexivity|].
  destruct x as [|d x]; simpl truthy; cbv iota.
  - rewrite Hs. reflexivity.
  - destruct (starts_with nonspace (String d x)) eqn:Hd; [|reflexivity].
    destruct (words_head _ Hd) as (w & ws & ->). reflexivity.
Qed.

Lemma words_blank w s : all_string is_space w = true -> words (w ++ s) = words s.
Proof.
  induction w as [|c w IH]; [reflexivity|]. rewrite sapp_cons. simpl.
  intros [-> Hw]%andb_prop. auto.
Qed.

Lemma words_run w : run nonspace w = true -> words w = [w].
Proof.
  destruct w as [|c w]; [done|]. unfold run. simpl truthy. cbn [andb].
  revert c. induction w as [|d w IH]; intros c H; simpl in H.
  - apply andb_prop in H as [Hc _]. unfold nonspace in Hc.
    apply negb_true_iff in Hc. simpl. by rewrite Hc.
  - apply andb_prop in H as [Hc Hw]. unfold nonspace in Hc.
    apply negb_true_iff in Hc.
    change (words (String c (String d w)))
      with (if is_space c then words (String d w)
            else if starts_with nonspace (String d w) then
                   match words (String d w) with
                   | w0 :: ws => String c w0 :: ws
                   | [] => [String c EmptyString]
                   end
                 else String c EmptyString :: words (String d w)).
    rewrite Hc, (IH d Hw). simpl in Hw. apply andb_prop in Hw as [Hd _].
    simpl. by rewrite Hd.
Qed.

Lemma blank_starts v s :
  run is_space v = true -> starts_with nonspace (v ++ s) = false.
Proof.
  destruct v as [|c v]; [done|]. unfold run. simpl.
  intros [Hc _]%andb_prop. unfold nonspace. by rewrite Hc.
Qed.

(** A word, blanks, and what follows. *)
Lemma words_word_blank w v s :
  run nonspace w = true -> run is_space v = true ->
  words (w ++ v ++ s) = w :: words s.
Proof.
  intros Hw Hv. rewrite words_app by by apply blank_starts.
  rewrite (words_run w Hw). simpl. f_equal.
  apply words_blank. unfold run in Hv. by apply andb_prop in Hv as [_ ?].
Qed.

Lemma words_pre_blank x v s :
  run is_space v = true ->
  words (x ++ v ++ s) = (words x ++ words s)%list.
Proof.
  intros Hv. rewrite words_app by by apply blank_starts.
  f_equal. apply words_blank. unfold run in Hv. by apply andb_prop in Hv as [_ ?].
Qed.

Lemma words_any x : any_string nonspace x = true -> words x <> [].
Proof.
  induction x as [|c x IH]; [done|]. simpl. unfold nonspace at 1.
  destruct (is_space c); simpl; [exact IH|]. intros _.
  destruct (starts_with nonspace x); [|done]. by destruct (words x).
Qed.

Lemma trimEnd_split s :
  exists t, s = trimEnd s ++ t /\ all_string is_space t = true.
Proof.
  induction s as [|c s (t & Ht & Hsp)]; [by exists ""|]. simpl.
  destruct (trimEnd s) as [|d u] eqn:E.
  - destruct (is_space c) eqn:Hc.
    + exists (String c s). split; [done|]. simpl. rewrite Hc.
      rewrite sapp_nil in Ht. by rewrite Ht.
    + exists t. by rewrite Ht at 1.
  - exists t. by rewrite Ht at 1.
Qed.

Lemma words_trim s : words (trim s) = words s.
Proof.
  destruct (trimStart_split s) as (l & Hl & Hlsp).
  destruct (trimEnd_split (trimStart s)) as (t & Ht & Htsp).
  assert (words s = words (trimStart s)) as ->.
  { rewrite <- (words_blank l (trimStart s)) by done. by rewrite <- Hl. }
  assert (words (trimStart s) = words (trim s ++ t)) as ->.
  { unfold trim. by rewrite <- Ht. }
  rewrite words_app.
  - rewrite <- (sapp_nil_r t), words_blank by done. simpl. by rewrite app_nil_r.
  - destruct t as [|c t]; [done|]. simpl in *.
    apply andb_prop in Htsp as [Hc _]. unfold nonspace. by rewrite Hc.
Qed.

End StringFacts.

Module RegexFacts.
Import JsString Regex StringSpec RegexSpec StringFacts.

Lemma take_app (w s : string) : take (String.length w) (w ++ s) = w.
Proof.
  induction w as [|c w IH]; [by destruct s|].
  rewrite sapp_cons. simpl. by rewrite IH.
Qed.

Lemma star_stop p k i s caps :
  starts_with p s = false -> star p k i s caps = k i s caps.
Proof. destruct s as [|c s]; [reflexivity|]. simpl. by intros ->. Qed.

Lemma star_app p k w : forall i s caps res,
  all_string p w = true ->
  star p k (i + String.length w) s caps = Some res ->
  star p k i (w ++ s) caps = Some res.
Proof.
  induction w as [|c w IH]; intros i s caps res Hall Hk.
  - simpl in Hk. by rewrite Nat.add_0_r in Hk.
  - simpl in Hall. apply andb_prop in Hall as [Hc Hw].
    rewrite sapp_cons. simpl. rewrite Hc.
    rewrite (IH (S i) s caps res Hw); [reflexivity|].
    simpl in Hk. by rewrite Nat.add_succ_r in Hk.
Qed.

Lemma consumes_plus p w s :
  w <> "" -> all_string p w = true -> starts_with p s = false ->
  consumes (Plus p) w s.
Proof.
  intros Hne Hall Hs k i caps res Hk.
  destruct w as [|c w]; [done|].
  simpl in Hall. apply andb_prop in Hall as [Hc Hw].
  rewrite sapp_cons. simpl. rewrite Hc.
  apply star_app; [exact Hw|]. rewrite star_stop by exact Hs.
  simpl in Hk. by rewrite Nat.add_succ_r in Hk.
Qed.

Lemma consumes_chr p c s : p c = true -> consumes (Chr p) (String c "") s.
Proof.
  intros Hc k i caps res Hk. rewrite sapp_cons, sapp_nil. simpl. rewrite Hc.
  simpl in Hk. by rewrite Nat.add_1_r in Hk.
Qed.

Lemma consumes_seq r1 r2 w1 w2 s :
  consumes r1 w1 (w2 ++ s) -> consumes r2 w2 s ->
  consumes (Seq r1 r2) (w1 ++ w2) s.
Proof.
  intros H1 H2 k i caps res Hk. rewrite sapp_assoc. simpl.
  apply H1, H2. by rewrite length_sapp, Nat.add_assoc in Hk.
Qed.

Lemma consumes_opt_take r w s : consumes r w s -> consumes (Opt r) w s.
Proof. intros H k i caps res Hk. simpl. by rewrite (H k i caps res Hk). Qed.

Lemma consumes_opt_skip r s :
  (forall k i caps, m r k i s caps = None) -> consumes (Opt r) "" s.
Proof.
  intros H k i caps res Hk. rewrite sapp_nil. simpl. rewrite H.
  simpl in Hk. by rewrite Nat.add_0_r in Hk.
Qed.

Lemma ieq_lower a c : lower_char c = a -> is_lower a = true -> ieq a c = true.
Proof. each_char c; intros <-; vm_compute; congruence. Qed.

Lemma consumes_lit_i lits : forall kw s,
  all_string is_lower lits = true -> toLowerCase kw = lits ->
  consumes (lit_i lits) kw s.
Proof.
  induction lits as [|a lits IH]; intros kw s Hlow Hkw k i caps res Hk.
  - destruct kw; [|discriminate]. simpl in *. by rewrite Nat.add_0_r in Hk.
  - destruct kw as [|c kw]; [discriminate|].
    unfold toLowerCase in Hkw. simpl in Hkw. injection Hkw as Hc Hkw.
    simpl in Hlow. apply andb_prop in Hlow as [Ha Hlow].
    rewrite sapp_cons. simpl. rewrite (ieq_lower a c Hc Ha).
    apply (IH kw s Hlow Hkw). simpl in Hk. by rewrite Nat.add_succ_r in Hk.
Qed.

(** A capture group around a consumed prefix records that prefix. *)
Lemma group_consumes n r w s (k : cont) i caps res :
  consumes r w s ->
  k (i + String.length w)%nat s (<[n := w]> caps) = Some res ->
  m (Group n r) k i (w ++ s) caps = Some res.
Proof.
  intros H Hk. simpl. apply H.
  replace (i + String.length w - i)%nat with (String.length w) by lia.
  by rewrite take_app.
Qed.

Lemma seq_consumes r1 r2 w s (k : cont) i caps res :
  consumes r1 w s ->
  m r2 k (i + String.length w)%nat s caps = Some res ->
  m (Seq r1 r2) k i (w ++ s) caps = Some res.
Proof. intros H Hk. simpl. by apply H. Qed.

Lemma m_seq_group n r1 r2 k i s caps :
  m (Seq (Group n r1) r2) k i s caps = m (Group n r1) (m r2 k) i s caps.
Proof. reflexivity. Qed.

Lemma search_from_hit r i s caps :
  m r accept i s ∅ = Some caps -> search_from r i s = Some caps.
Proof. intros H. destruct s; simpl; by rewrite H. Qed.

(** ** Groups that take part in every match *)

Lemma star_inv p (k : cont) : forall s i caps res,
  star p k i s caps = Some res -> exists j s', k j s' caps = Some res.
Proof.
  induction s as [|c s IH]; intros i caps res H; simpl in H.
  - eauto.
  - destruct (p c); [|eauto].
    destruct (star p k (S i) s caps) eqn:E; [|eauto].
    injection H as ->. eauto.
Qed.

Lemma m_inv r : forall (k : cont) i s caps res,
  m r k i s caps = Some res ->
  exists j s' caps',
    k j s' caps' = Some res
    /\ forall n, is_Some (caps !! n) \/ sets n r = true -> is_Some (caps' !! n).
Proof.
  induction r as [|p|r1 IH1 r2 IH2|r1 IH1 r2 IH2|p|g r1 IH1| |];
    intros k i s caps res H; simpl in H.
  - exists i, s, caps. split; [done|]. by intros n [?|?].
  - destruct s as [|c s]; [done|]. destruct (p c); [|done].
    exists (S i), s, caps. split; [done|]. by intros n [?|?].
  - apply IH1 in H as (j1 & s1 & c1 & H & Hc1).
    apply IH2 in H as (j2 & s2 & c2 & H & Hc2).
    exists j2, s2, c2. split; [done|]. intros n [Hn|Hn]; simpl in Hn.
    + apply Hc2. left. apply Hc1. by left.
    + apply orb_prop in Hn as [Hn|Hn].
      * apply Hc2. left. apply Hc1. by right.
      * apply Hc2. by right.
  - destruct (m r1 k i s caps) eqn:E.
    + injection H as ->. apply IH1 in E as (j & s' & c' & E & Hc).
      exists j, s', c'. split; [done|]. intros n [Hn|Hn]; simpl in Hn.
      * apply Hc. by left.
      * apply andb_prop in Hn as [Hn _]. apply Hc. by right.
    + apply IH2 in H as (j & s' & c' & H & Hc).
      exists j, s', c'. split; [done|]. intros n [Hn|Hn]; simpl in Hn.
      * apply Hc. by left.
      * apply andb_prop in Hn as [_ Hn]. apply Hc. by right.
  - apply star_inv in H as (j & s' & H).
    exists j, s', caps. split; [done|]. by intros n [?|?].
  - apply IH1 in H as (j & s' & c' & H & Hc).
    exists j, s', (<[g := take (j - i) s]> c'). split; [done|].
    intros n Hn. destruct (decide (g = n)) as [->|Hne].
    + rewrite lookup_insert_eq. eauto.
    + rewrite lookup_insert_ne by done. apply Hc.
      destruct Hn as [Hn|Hn]; [by left|right]. simpl in Hn.
      apply orb_prop in Hn as [Hn|Hn]; [|done].
      apply Nat.eqb_eq in Hn. done.
  - destruct (i =? 0)%nat; [|done].
    exists i, s, caps. split; [done|]. by intros n [?|?].
  - destruct s; [|done].
    exists i, "", caps. split; [done|]. by intros n [?|?].
Qed.

Lemma search_from_inv r : forall s i caps,
  search_from r i s = Some caps -> exists j s', m r accept j s' ∅ = Some caps.
Proof.
  induction s as [|c s IH]; intros i caps H; simpl in H.
  - destruct (m r accept i "" ∅) eqn:E; [|done]. injection H as ->. eauto.
  - destruct (m r accept i (String c s) ∅) eqn:E.
    + injection H as ->. eauto.
    + eauto.
Qed.

(** ** The matcher finds matches of the pattern only *)

Lemma star_sound p (k : cont) : forall s i caps res,
  star p k i s caps = Some res ->
  exists w s', s = w ++ s' /\ all_string p w = true
               /\ k (i + String.length w)%nat s' caps = Some res.
Proof.
  induction s as [|c s IH]; intros i caps res H; simpl in H.
  - exists "", "". rewrite Nat.add_0_r. done.
  - destruct (p c) eqn:Hc.
    + destruct (star p k (S i) s caps) eqn:E.
      * injection H as ->. apply IH in E as (w & s' & -> & Hw & Hk).
        exists (String c w), s'. simpl. rewrite Hc, Hw.
        by rewrite Nat.add_succ_r.
      * exists "", (String c s). rewrite Nat.add_0_r. done.
    + exists "", (String c s). rewrite Nat.add_0_r. done.
Qed.

Lemma m_sound r : forall (k : cont) i s caps res,
  m r k i s caps = Some res ->
  exists w s' caps',
    s = w ++ s' /\ matches r i w s'
    /\ k (i + String.length w)%nat s' caps' = Some res.
Proof.
  induction r as [|p|r1 IH1 r2 IH2|r1 IH1 r2 IH2|p|g r1 IH1| |];
    intros k i s caps res H; simpl in H.
  - exists "", s, caps. rewrite Nat.add_0_r. done.
  - destruct s as [|c s]; [done|]. destruct (p c) eqn:Hc; [|done].
    exists (String c ""), s, caps. simpl. rewrite Nat.add_1_r. eauto.
  - apply IH1 in H as (w1 & s1 & c1 & -> & M1 & H).
    apply IH2 in H as (w2 & s2 & c2 & -> & M2 & H).
    exists (w1 ++ w2), s2, c2. rewrite sapp_assoc, length_sapp, Nat.add_assoc.
    split; [done|]. split; [|done]. simpl. eauto.
  - destruct (m r1 k i s caps) eqn:E.
    + injection H as ->. apply IH1 in E as (w & s' & c' & -> & M & H).
      exists w, s', c'. simpl. eauto.
    + apply IH2 in H as (w & s' & c' & -> & M & H).
      exists w, s', c'. simpl. eauto.
  - apply star_sound in H as (w & s' & -> & Hw & H). exists w, s', caps. eauto.
  - apply IH1 in H as (w & s' & c' & -> & M & H). simpl. eauto 10.
  - destruct (Nat.eqb_spec i 0) as [->|]; [|done].
    exists "", s, caps. simpl. done.
  - destruct s; [|done]. exists "", "", caps. rewrite Nat.add_0_r. done.
Qed.

Lemma search_from_sound r : forall s i caps,
  search_from r i s = Some caps ->
  exists pre w post,
    s = pre ++ w ++ post /\ matches r (i + String.length pre) w post.
Proof.
  induction s as [|c s IH]; intros i caps H; simpl in H.
  - destruct (m r accept i "" ∅) eqn:E; [|done].
    apply m_sound in E as (w & s' & c' & Hs & M & _).
    exists "", w, s'. rewrite Nat.add_0_r. done.
  - destruct (m r accept i (String c s) ∅) eqn:E.
    + apply m_sound in E as (w & s' & c' & Hs & M & _).
      exists "", w, s'. rewrite Nat.add_0_r. done.
    + apply IH in H as (pre & w & post & -> & M).
      exists (String c pre), w, post. simpl.
      by rewrite Nat.add_succ_r.
Qed.

Lemma exec_sound r s caps :
  exec r s = Some caps ->
  exists pre w post,
    s = pre ++ w ++ post /\ matches r (String.length pre) w post.
Proof. intros H. by apply search_from_sound in H. Qed.

Lemma all_string_app p a b :
  all_string p (a ++ b) = all_string p a && all_string p b.
Proof.
  induction a as [|c a IH]; [reflexivity|].
  rewrite sapp_cons. simpl. by rewrite IH, andb_assoc.
Qed.

Lemma any_string_app p a b :
  any_string p (a ++ b) = any_string p a || any_string p b.
Proof.
  induction a as [|c a IH]; [reflexivity|].
  rewrite sapp_cons. simpl. by rewrite IH, orb_assoc.
Qed.

Lemma all_string_mono (p P : ascii -> bool) w :
  (forall c, p c = true -> P c = true) ->
  all_string p w = true -> all_string P w = true.
Proof.
  intros H. induction w as [|c w IH]; [done|]. simpl.
  intros [Hc Hw]%andb_prop. by rewrite (H c Hc), IH.
Qed.

Lemma matches_within P r : forall i w rest,
  within P r -> matches r i w rest -> all_string P w = true.
Proof.
  induction r as [|p|r1 IH1 r2 IH2|r1 IH1 r2 IH2|p|g r1 IH1| |];
    intros i w rest HP M; simpl in *.
  - by subst.
  - destruct M as (c & -> & Hc). simpl. by rewrite (HP c Hc).
  - destruct M as (w1 & w2 & -> & M1 & M2). destruct HP as [P1 P2].
    by rewrite all_string_app, (IH1 _ _ _ P1 M1), (IH2 _ _ _ P2 M2).
  - destruct HP as [P1 P2]. destruct M as [M|M]; eauto.
  - by eapply all_string_mono.
  - eauto.
  - by destruct M as [-> _].
  - by destruct M as [-> _].
Qed.

Lemma matches_requires Q r : forall i w rest,
  requires Q r -> matches r i w rest -> any_string Q w = true.
Proof.
  induction r as [|p|r1 IH1 r2 IH2|r1 IH1 r2 IH2|p|g r1 IH1| |];
    intros i w rest HQ M; simpl in *; try done.
  - destruct M as (c & -> & Hc). simpl. by rewrite (HQ c Hc).
  - destruct M as (w1 & w2 & -> & M1 & M2). rewrite any_string_app.
    destruct HQ as [Q1|Q2].
    + by rewrite (IH1 _ _ _ Q1 M1).
    + by rewrite (IH2 _ _ _ Q2 M2), orb_true_r.
  - destruct HQ as [Q1 Q2]. destruct M as [M|M]; eauto.
  - eauto.
Qed.

Lemma matches_lit_i_length src : forall i w rest,
  matches (lit_i src) i w rest -> String.length w = String.length src.
Proof.
  induction src as [|a src IH]; intros i w rest M; simpl in M.
  - by subst.
  - destruct M as (w1 & w2 & -> & (c & -> & _) & M2).
    rewrite sapp_cons, sapp_nil. simpl. f_equal. eauto.
Qed.

(** A text that [^src$] matches under the [i] flag, for a literal
    [src], is as long as [src]. *)
Lemma anchored_lit_i_length src s :
  test (seqs [Bol; lit_i src; Eol]) s = true ->
  String.length s = String.length src.
Proof.
  unfold test. destruct (exec _ s) as [caps|] eqn:E; [intros _|done].
  apply exec_sound in E as (pre & w & post & -> & M).
  cbn [seqs] in M. simpl in M.
  destruct M as (w1 & w2 & -> & (-> & Hpre) & (w3 & w4 & -> & M3 & (-> & ->))).
  destruct pre; [|done].
  rewrite !sapp_nil, !sapp_nil_r. by eapply matches_lit_i_length.
Qed.

Lemma subclass_sound p P :
  subclass p P = true -> forall c, p c = true -> P c = true.
Proof.
  unfold subclass. rewrite forallb_forall. intros H c Hc.
  specialize (H (nat_of_ascii c)). rewrite ascii_nat_embedding, Hc in H.
  apply H. apply in_seq. pose proof (nat_ascii_bounded c). lia.
Qed.

Lemma withinb_sound P r : withinb P r = true -> within P r.
Proof.
  induction r; simpl; try done; try (apply subclass_sound).
  - intros [? ?]%andb_prop. auto.
  - intros [? ?]%andb_prop. auto.
Qed.

Lemma requiresb_sound Q r : requiresb Q r = true -> requires Q r.
Proof.
  induction r; simpl; try done; try (apply subclass_sound).
  - intros [?|?]%orb_prop; auto.
  - intros [? ?]%andb_prop. auto.
Qed.

Lemma matches_ends_eol r : forall i w rest,
  ends_eol r = true -> matches r i w rest -> rest = "".
Proof.
  induction r as [|p|r1 IH1 r2 IH2|r1 IH1 r2 IH2|p|g r1 IH1| |];
    intros i w rest He M; simpl in *; try done.
  - destruct M as (w1 & w2 & -> & _ & M2). eauto.
  - by destruct M as [_ ->].
Qed.

(** A text that a pattern of the form [^...$] matches consists of
    characters of the classes of the pattern. *)
Lemma anchored_within P r s caps :
  withinb P r = true -> ends_eol r = true ->
  exec (Seq Bol r) s = Some caps -> all_string P s = true.
Proof.
  intros HP He E.
  apply exec_sound in E as (pre & w & post & -> & M). simpl in M.
  destruct M as (w1 & w2 & -> & (-> & Hpre) & M2).
  destruct pre; [|done].
  rewrite (matches_ends_eol _ _ _ _ He M2).
  rewrite !sapp_nil, sapp_nil_r.
  eapply matches_within; [by apply withinb_sound|exact M2].
Qed.

(** A text in which a pattern is found has the characters the pattern
    requires. *)
Lemma exec_requires Q r s caps :
  requiresb Q r = true -> exec r s = Some caps -> any_string Q s = true.
Proof.
  intros HQ E. apply exec_sound in E as (pre & w & post & -> & M).
  rewrite !any_string_app.
  rewrite (matches_requires Q r _ _ _ (requiresb_sound _ _ HQ) M).
  by rewrite orb_true_r.
Qed.

Lemma all_not_any (P Q : ascii -> bool) s :
  (forall c, P c = true -> Q c = false) ->
  all_string P s = true -> any_string Q s = false.
Proof.
  intros H. induction s as [|c s IH]; [done|]. simpl.
  intros [Hc Hs]%andb_prop. by rewrite (H c Hc), IH.
Qed.

Lemma all_trimStart P s :
  (forall c, is_space c = true -> P c = true) ->
  all_string P (trimStart s) = true -> all_string P s = true.
Proof.
  intros Hsp. induction s as [|c s IH]; [done|]. simpl.
  destruct (is_space c) eqn:Hc; [|done].
  intros H. by rewrite (Hsp c Hc), IH.
Qed.

Lemma all_trimEnd P s :
  (forall c, is_space c = true -> P c = true) ->
  all_string P (trimEnd s) = true -> all_string P s = true.
Proof.
  intros Hsp. induction s as [|c s IH]; [done|]. simpl.
  destruct (trimEnd s) as [|d t] eqn:E.
  - destruct (is_space c) eqn:Hc.
    + intros _. by rewrite (Hsp c Hc), IH.
    + simpl. intros [-> _]%andb_prop. by rewrite IH.
  - simpl. intros [-> H]%andb_prop. apply IH. exact H.
Qed.

Lemma all_trim P s :
  (forall c, is_space c = true -> P c = true) ->
  all_string P (trim s) = true -> all_string P s = true.
Proof.
  intros Hsp H. apply all_trimStart; [done|]. by apply all_trimEnd.
Qed.

Lemma any_truthy p w : any_string p w = true -> truthy w = true.
Proof. by destruct w. Qed.

(** A match of a pattern all of whose classes lie in [P], and that
    needs a character of [P], is a non-empty run of [P]. *)
Lemma matches_run P r i w rest :
  withinb P r = true -> requiresb P r = true ->
  matches r i w rest -> run P w = true.
Proof.
  intros HW HR M. unfold run.
  rewrite (matches_within P r i w rest (withinb_sound _ _ HW) M).
  rewrite (any_truthy P w); [done|].
  exact (matches_requires P r i w rest (requiresb_sound _ _ HR) M).
Qed.

Lemma low_app a b : low (a ++ b) = low a ++ low b.
Proof.
  induction a as [|c a IH]; [reflexivity|].
  rewrite sapp_cons. unfold low in *. simpl. by rewrite IH.
Qed.

(** A match of a literal under the [i] flag is the literal up to the
    case of its ASCII letters. *)
Lemma matches_lit_i_low src : forall i w rest,
  matches (lit_i src) i w rest -> low w = low src.
Proof.
  induction src as [|a src IH]; intros i w rest M; simpl in M.
  - by subst.
  - destruct M as (w1 & w2 & -> & (c & -> & Hc) & M2).
    rewrite sapp_cons, sapp_nil. unfold low in *. simpl.
    unfold ieq in Hc. apply bool_decide_eq_true in Hc. rewrite Hc.
    f_equal. eauto.
Qed.

Lemma exec_sets r s caps n :
  sets n r = true -> exec r s = Some caps -> is_Some (caps !! n).
Proof.
  intros Hn H. apply search_from_inv in H as (j & s' & H).
  apply m_inv in H as (j' & s'' & c' & H & Hc).
  injection H as <-. apply Hc. by right.
Qed.

End RegexFacts.

Module CommandParserFacts.
Import JsString Regex CommandParser StringSpec RegexSpec ParserSpec.
Import StringFacts RegexFacts.

Lemma run_ne p s : run p s = true -> s <> "".
Proof. by destruct s. Qed.

Lemma run_all p s : run p s = true -> all_string p s = true.
Proof. unfold run. by intros [_ ?]%andb_prop. Qed.

Lemma run_starts p s t : run p s = true -> starts_with p (s ++ t) = true.
Proof.
  destruct s as [|c s]; [done|]. unfold run. simpl.
  by intros [? _]%andb_prop.
Qed.

Lemma starts_disjoint (p q : ascii -> bool) s :
  (forall c, p c = true -> q c = false) ->
  starts_with p s = true -> starts_with q s = false.
Proof. intros H. destruct s; [done|]. apply H. Qed.

Lemma lower_starts kw lits a s :
  toLowerCase kw = String a lits -> is_space a = false ->
  starts_with is_space (kw ++ s) = false.
Proof.
  destruct kw as [|c kw]; [discriminate|].
  unfold toLowerCase. simpl. intros [= <- _].
  by rewrite lower_char_space.
Qed.

Lemma lower_starts_alpha kw lits a s :
  toLowerCase kw = String a lits -> is_lower a = true ->
  starts_with is_alpha (kw ++ s) = true.
Proof.
  destruct kw as [|c kw]; [discriminate|].
  unfold toLowerCase. simpl. intros [= <- _].
  each_char c; vm_compute; congruence.
Qed.

Lemma consumes_amount int frac s :
  run is_digit int = true ->
  (forall f, frac = Some f -> run is_digit f = true) ->
  starts_with is_space s = true ->
  consumes SEND_amount (decimal int frac) s.
Proof.
  intros Hint Hfrac Hs. unfold SEND_amount, decimal.
  assert (Hsd : starts_with is_digit s = false)
    by (apply (starts_disjoint is_space); [apply space_not_digit|exact Hs]).
  destruct frac as [f|].
  - specialize (Hfrac f eq_refl).
    apply consumes_seq.
    + apply consumes_plus; [by eapply run_ne|by apply run_all|reflexivity].
    + apply consumes_opt_take.
      change ("." ++ f) with (String dot_char "" ++ f).
      apply consumes_seq.
      * apply consumes_chr. reflexivity.
      * apply consumes_plus; [by eapply run_ne|by apply run_all|exact Hsd].
  - apply consumes_seq.
    + apply consumes_plus; [by eapply run_ne|by apply run_all|].
      by rewrite sapp_nil.
    + apply consumes_opt_skip. intros k i caps.
      destruct s as [|c s]; [reflexivity|]. simpl in *.
      case_bool_decide as Hc; [|reflexivity]. subst c. discriminate.
Qed.

Lemma exec_SEND_shape kw1 ws1 int frac ws2 tok ws3 kw2 ws4 core :
  toLowerCase kw1 = "send" -> toLowerCase kw2 = "to" ->
  run is_space ws1 = true -> run is_space ws2 = true ->
  run is_space ws3 = true -> run is_space ws4 = true ->
  run is_digit int = true ->
  (forall f, frac = Some f -> run is_digit f = true) ->
  run is_alpha tok = true ->
  run is_dot core = true -> starts_with is_space core = false ->
  exists caps,
    exec SEND (kw1 ++ ws1 ++ decimal int frac ++ ws2 ++ tok ++ ws3
                   ++ kw2 ++ ws4 ++ core) = Some caps
    /\ caps !! 1%nat = Some (decimal int frac)
    /\ caps !! 2%nat = Some tok
    /\ caps !! 3%nat = Some core.
Proof.
  intros Hk1 Hk2 H1 H2 H3 H4 Hint Hfrac Htok Hcore Hcs.
  eexists. split.
  - apply search_from_hit. unfold SEND. cbn [seqs].
    change (m (Seq Bol ?r) ?k 0%nat ?s ?c) with (m r k 0%nat s c).
    apply seq_consumes.
    { by apply consumes_lit_i. }
    apply seq_consumes.
    { apply consumes_plus; [by eapply run_ne|by apply run_all|].
      apply (starts_disjoint is_digit); [apply digit_not_space|].
      unfold decimal. rewrite sapp_assoc. by apply run_starts. }
    rewrite (m_seq_group 1).
    apply group_consumes.
    { apply consumes_amount; [done|done|by apply run_starts]. }
    apply seq_consumes.
    { apply consumes_plus; [by eapply run_ne|by apply run_all|].
      apply (starts_disjoint is_alpha); [apply alpha_not_space|].
      by apply run_starts. }
    rewrite (m_seq_group 2).
    apply group_consumes.
    { apply consumes_plus; [by eapply run_ne|by apply run_all|].
      apply (starts_disjoint is_space); [apply space_not_alpha|].
      by apply run_starts. }
    apply seq_consumes.
    { apply consumes_plus; [by eapply run_ne|by apply run_all|].
      by eapply lower_starts. }
    apply seq_consumes.
    { by apply consumes_lit_i. }
    apply seq_consumes.
    { apply consumes_plus; [by eapply run_ne|by apply run_all|exact Hcs]. }
    rewrite (m_seq_group 3).
    rewrite <- (sapp_nil_r core) at 1.
    apply group_consumes.
    { apply consumes_plus; [by eapply run_ne|by apply run_all|reflexivity]. }
    reflexivity.
  - by simplify_map_eq.
Qed.

Lemma trimStart_id s : starts_with is_space s = false -> trimStart s = s.
Proof. destruct s as [|c s]; [done|]. simpl. by intros ->. Qed.

Lemma run_app_all p s t :
  run p s = true -> all_string p t = true -> run p (s ++ t) = true.
Proof.
  unfold run. intros [Hne Hall]%andb_prop Ht.
  destruct s as [|c s]; [done|]. rewrite sapp_cons. simpl in *.
  apply andb_prop in Hall as [-> Hs]. simpl. clear Hne.
  induction s as [|d s IH]; [by rewrite sapp_nil|].
  rewrite sapp_cons. simpl in *. apply andb_prop in Hs as [-> Hs]. auto.
Qed.

Lemma truthy_ne s : truthy s = true <-> s <> "".
Proof. by destruct s. Qed.

(** The text of a send command after [trim]: the blanks before the
    recipient join the last separator, those after it are gone. *)
Lemma trim_send_text (pre rcp : string) :
  starts_with is_space pre = false -> pre <> "" -> trim rcp <> "" ->
  exists l, all_string is_space l = true
            /\ trim (pre ++ rcp) = pre ++ l ++ trim rcp.
Proof.
  intros Hpre Hne Hr.
  destruct (trimStart_split rcp) as (l & Hl & Hsp).
  exists l. split; [exact Hsp|].
  unfold trim at 1. rewrite trimStart_id.
  - rewrite Hl at 1. rewrite <- !sapp_assoc.
    rewrite trimEnd_app by exact Hr. by rewrite !sapp_assoc.
  - destruct pre; [done|]. exact Hpre.
Qed.

Example parse_ex1 :
  parseCommand "  Send 5.25 usdc   to  Alice Smith  "
  = Some (Send "5.25" "USDC" "Alice Smith").
Proof. vm_compute. reflexivity. Qed.

Example parse_ex2 :
  parseCommand "send 1 MyToken to bob" = Some (Send "1" "MTK" "bob").
Proof. vm_compute. reflexivity. Qed.

Example parse_ex3 :
  parseCommand "send 1 my-token to bob"
  = Some (Unknown "send 1 my-token to bob").
Proof. vm_compute. reflexivity. Qed.

Example parse_ex4 :
  parseCommand "check my balance" = Some (CheckBalance "ALL").
Proof. vm_compute. reflexivity. Qed.

Example parse_ex5 :
  parseCommand "show balance of mytoken" = Some (CheckBalance "MTK").
Proof. vm_compute. reflexivity. Qed.

Example parse_ex6 :
  parseCommand "add contact as as 0x0E4Dd0bA5a6f1bc0ffFE421dbB8E252dFF0C66f6"
  = Some (AddContact "as" "0x0E4Dd0bA5a6f1bc0ffFE421dbB8E252dFF0C66f6").
Proof. vm_compute. reflexivity. Qed.

Example parse_ex7 :
  parseCommand "view   MYcontacts" = Some ListContacts.
Proof. vm_compute. reflexivity. Qed.

Example parse_ex8 :
  parseCommand ("send 5 usdc to bob" ++ nl ++ "alice")
  = Some (Unknown ("send 5 usdc to bob" ++ nl ++ "alice")).
Proof. vm_compute. reflexivity. Qed.

(** C2, as the code has it.  [parseCommand] returns [null] for the empty
    text (the guard of line 21) and a parsed command for every other
    text: no branch throws.  A non-empty text whose trimmed form matches
    none of the four patterns gives [Unknown] with the trimmed text. *)
Theorem parseCommand_total (text : string) :
  (text = "" -> parseCommand text = None)
  /\ (text <> "" -> exists pc, parseCommand text = Some pc)
  /\ (text <> "" -> matches_none (trim text) ->
      parseCommand text = Some (Unknown (trim text))).
Proof.
  split; [by intros ->|]. split.
  - intros Hne. unfold parseCommand.
    apply truthy_ne in Hne as ->. cbn [negb].
    destruct (exec SEND (trim text)) as [caps|] eqn:E1.
    { destruct (exec_sets SEND _ caps 1 eq_refl E1) as [x1 ->].
      destruct (exec_sets SEND _ caps 2 eq_refl E1) as [x2 ->].
      destruct (exec_sets SEND _ caps 3 eq_refl E1) as [x3 ->]. eauto. }
    destruct (exec CHECK_BALANCE_re (trim text)) as [caps|] eqn:E2; [eauto|].
    destruct (exec ADD_CONTACT_re (trim text)) as [caps|] eqn:E3.
    { destruct (exec_sets ADD_CONTACT_re _ caps 1 eq_refl E3) as [x1 ->].
      destruct (exec_sets ADD_CONTACT_re _ caps 2 eq_refl E3) as [x2 ->]. eauto. }
    destruct (exec LIST_CONTACTS_re (trim text)); eauto.
  - intros Hne (E1 & E2 & E3 & E4). unfold parseCommand.
    apply truthy_ne in Hne as ->. cbn [negb].
    by rewrite E1, E2, E3, E4.
Qed.

(** The text [hello there] is not a command. *)
Lemma parseCommand_total_witness :
  parseCommand "  hello there " = Some (Unknown "hello there").
Proof.
  apply (proj2 (proj2 (parseCommand_total "  hello there "))).
  - discriminate.
  - vm_compute. tauto.
Defined.

(** C2 as stated fails on the empty text: none of the four patterns
    matches it, and the answer is [null], not [Unknown]. *)
Lemma parseCommand_empty_is_null :
  matches_none (trim "")
  /\ ~ (exists pc, parseCommand "" = Some pc)
  /\ parseCommand "" <> Some (Unknown (trim "")).
Proof.
  split; [by vm_compute|]. split.
  - intros [pc H]. discriminate H.
  - discriminate.
Qed.

(** The parser's [alias] of an upper-cased symbol is the token of the
    specification. *)
Lemma alias_normalized tok : alias (toUpperCase tok) = normalized tok.
Proof.
  unfold alias, normalized, aliases. cbv zeta.
  destruct (decide (toUpperCase tok = "MYTOKEN")) as [->|H1]; [done|].
  destruct (decide (toUpperCase tok = "MY-TOKEN")) as [->|H2]; [done|].
  destruct (decide (toUpperCase tok = "MY_TOKEN")) as [->|H3]; [done|].
  rewrite !bool_decide_false; [done| |done..].
  intros Hin. repeat (apply elem_of_cons in Hin as [?|Hin]; [done|]).
  by apply elem_of_nil in Hin.
Qed.

(** C3.  A command text [send <amount> <token> to <recipient>] -- the
    keywords in any letter case, non-empty blanks between the parts,
    <amount> a decimal number (digits, optionally a point and digits),
    <token> a non-empty run of ASCII letters, and <recipient> the rest of
    the line, with something other than blanks in it -- parses to a
    [Send] whose amount is the text of <amount> itself (hence equal as a
    number), whose token is <token> in upper case, or [MTK] when that is
    one of [MYTOKEN], [MY-TOKEN] and [MY_TOKEN], and whose recipient is
    <recipient> trimmed. *)
Theorem parse_send_shape kw1 ws1 int frac ws2 tok ws3 kw2 ws4 rcp :
  toLowerCase kw1 = "send" -> toLowerCase kw2 = "to" ->
  run is_space ws1 = true -> run is_space ws2 = true ->
  run is_space ws3 = true -> run is_space ws4 = true ->
  run is_digit int = true ->
  (forall f, frac = Some f -> run is_digit f = true) ->
  run is_alpha tok = true ->
  run is_dot (trim rcp) = true ->
  parseCommand (kw1 ++ ws1 ++ decimal int frac ++ ws2 ++ tok ++ ws3
                    ++ kw2 ++ ws4 ++ rcp)
  = Some (Send (decimal int frac) (normalized tok) (trim rcp)).
Proof.
  intros Hk1 Hk2 H1 H2 H3 H4 Hint Hfrac Htok Hrcp.
  assert (Hne : trim rcp <> "") by by eapply run_ne.
  rewrite <- alias_normalized. unfold parseCommand.
  assert (truthy (kw1 ++ ws1 ++ decimal int frac ++ ws2 ++ tok ++ ws3
                      ++ kw2 ++ ws4 ++ rcp) = true) as ->.
  { destruct kw1; [discriminate|done]. }
  cbn [negb].
  pose proof (trim_send_text
    (kw1 ++ ws1 ++ decimal int frac ++ ws2 ++ tok ++ ws3 ++ kw2 ++ ws4) rcp)
    as (l & Hl & Htrim).
  { by eapply lower_starts. }
  { destruct kw1; [discriminate|done]. }
  { exact Hne. }
  rewrite !sapp_assoc in Htrim. rewrite Htrim. clear Htrim.
  rewrite <- (sapp_assoc ws4 l (trim rcp)).
  destruct (exec_SEND_shape kw1 ws1 int frac ws2 tok ws3 kw2 (ws4 ++ l)
              (trim rcp)) as (caps & -> & -> & -> & ->);
    try done.
  - by apply run_app_all.
  - by apply trim_starts.
  - by rewrite trim_idem.
Qed.

(** The command [Send 5.5 MyToken to  Alice Smith ] is of that shape. *)
Lemma parse_send_shape_witness :
  parseCommand ("Send" ++ " " ++ decimal "5" (Some "5") ++ " " ++ "MyToken"
                  ++ "  " ++ "TO" ++ " " ++ " Alice Smith ")
  = Some (Send "5.5" "MTK" "Alice Smith").
Proof.
  apply (parse_send_shape "Send" " " "5" (Some "5") " " "MyToken" "  " "TO"
           " " " Alice Smith ");
    try reflexivity.
  intros f [= <-]. reflexivity.
Defined.

End CommandParserFacts.

Module ContactFacts.
Import JsString Regex Js ContactModel ContactSpec StringFacts RegexFacts.

Lemma trimStart_lower s :
  trimStart (toLowerCase s) = toLowerCase (trimStart s).
Proof.
  induction s as [|c s IH]; [reflexivity|].
  unfold toLowerCase in *. simpl. rewrite lower_char_space.
  by destruct (is_space c).
Qed.

Lemma trimEnd_lower s : trimEnd (toLowerCase s) = toLowerCase (trimEnd s).
Proof.
  induction s as [|c s IH]; [reflexivity|].
  unfold toLowerCase in *. simpl. rewrite IH, lower_char_space.
  destruct (trimEnd s); simpl; [by destruct (is_space c)|reflexivity].
Qed.

(** The two setters of [name] commute, so their order does not matter. *)
Lemma trim_lower s : trim (toLowerCase s) = toLowerCase (trim s).
Proof. unfold trim. by rewrite trimStart_lower, trimEnd_lower. Qed.

Lemma set_name_trim s : trim (set_name s) = set_name s.
Proof. apply trim_idem. Qed.

Lemma set_name_lower s : toLowerCase (set_name s) = set_name s.
Proof. unfold set_name. by rewrite <- trim_lower, toLowerCase_idem. Qed.

Lemma filter_all p s : all_string p s = true -> filter_string p s = s.
Proof.
  induction s as [|c s IH]; [reflexivity|]. simpl.
  intros [-> Hs]%andb_prop. by rewrite IH.
Qed.

(** What a successful [create] did. *)
Lemma create_ok data db c db' :
  create data db = (Ok c, db') ->
  c = mkContact (set_name (data_name data)) (data_address data)
  /\ db' = (db ++ [c])%list
  /\ validate c = []
  /\ existsb (fun d => bool_decide (name d = name c)) db = false.
Proof.
  unfold create, save.
  destruct (validate _) eqn:Hv.
  - destruct (existsb _ db) eqn:Hex.
    + intros H. simpl in H. by repeat case_match.
    + simpl. intros [= <- <-]. by rewrite Hv.
  - intros H. simpl in H. by repeat case_match.
Qed.

Lemma validate_ok c :
  validate c = [] -> truthy (name c) = true /\ valid_address (address c) = true.
Proof.
  unfold validate.
  destruct (truthy (name c)); [|done].
  destruct (truthy (address c)); [|done]. simpl.
  by destruct (valid_address (address c)).
Qed.

Lemma trim_length s : (String.length (trim s) <= String.length s)%nat.
Proof.
  destruct (trimStart_split s) as (l & Hl & _).
  destruct (trimEnd_split (trimStart s)) as (t & Ht & _).
  assert (String.length s
          = (String.length l + (String.length (trim s) + String.length t))%nat)
    as ->; [|lia].
  rewrite <- !length_sapp. unfold trim. by rewrite <- Ht, <- Hl.
Qed.

Lemma toLowerCase_length s : String.length (toLowerCase s) = String.length s.
Proof. induction s as [|c s IH]; [done|]. simpl. by rewrite <- IH. Qed.

Lemma set_name_length s : (String.length (set_name s) <= String.length s)%nat.
Proof.
  unfold set_name. rewrite <- (toLowerCase_length s). apply trim_length.
Qed.

Lemma set_name_idem s : set_name (set_name s) = set_name s.
Proof. unfold set_name at 1. by rewrite set_name_lower, set_name_trim. Qed.

(** A query for a stored name is the same under both castings. *)
Lemma cast_query_stored b raw : cast_query b (set_name raw) = set_name raw.
Proof. destruct b; [apply set_name_idem|done]. Qed.

Lemma cast_query_length b s :
  (String.length (cast_query b s) <= String.length s)%nat.
Proof. destruct b; [apply set_name_length|done]. Qed.

Lemma find_fresh (key : string) (db : list Contact) c :
  existsb (fun d => bool_decide (name d = key)) db = false ->
  name c = key ->
  List.find (fun d => bool_decide (name d = key)) (db ++ [c])%list = Some c
  /\ filter (fun d => name d = key) (db ++ [c])%list = [c].
Proof.
  intros Hex Hc.
  induction db as [|d db IH]; simpl in *.
  - rewrite bool_decide_true by done. split; [done|].
    by rewrite filter_cons_True, filter_nil.
  - apply orb_false_elim in Hex as [Hd Hex].
    rewrite Hd. destruct (IH Hex) as [-> IHf]. split; [done|].
    rewrite filter_cons_False; [done|].
    by apply bool_decide_eq_false in Hd.
Qed.

Lemma normalize_variant stored variant raw :
  stored = set_name raw -> plain stored = true ->
  toLowerCase variant = stored -> normalize variant = stored.
Proof.
  intros Hs Hp Hv. unfold normalize. rewrite Hv, Hs, set_name_trim, <- Hs.
  by apply filter_all.
Qed.

Lemma filter_length p s :
  (String.length (filter_string p s) <= String.length s)%nat.
Proof.
  induction s as [|c s IH]; [done|]. simpl. destruct (p c); simpl; lia.
Qed.

Lemma filter_shorter p s :
  all_string p s = false ->
  (String.length (filter_string p s) < String.length s)%nat.
Proof.
  induction s as [|c s IH]; [done|]. simpl.
  destruct (p c); simpl; intros H.
  - apply IH in H. lia.
  - pose proof (filter_length p s). lia.
Qed.

(** The lookup of a text never returns a contact whose stored name is
    longer than the normalized text. *)
Lemma findByName_length b text db c :
  findByName b text db = Some c ->
  (String.length (name c) <= String.length (normalize text))%nat.
Proof.
  unfold findByName, findOne_name, findOne_regex_i.
  destruct (List.find _ db) as [x|] eqn:E.
  - intros [= ->]. apply find_some in E as [_ E].
    apply bool_decide_eq_true in E. rewrite E. apply cast_query_length.
  - intros E'. apply find_some in E' as [_ E'].
    by rewrite (anchored_lit_i_length _ _ E').
Qed.

(** C6, as the code has it.  After a successful insert of a contact, the
    stored address passed the format check.  When the stored name
    (lower-cased and trimmed) consists of word characters and blanks,
    [findByName] on the stored name returns that contact, and so does
    [findByName] on every text that lower-cases to the stored name.
    When the stored name has any other character, neither lookup returns
    the contact.  This holds whether or not the setters of [name] run on
    query values. *)
Theorem directory_round_trip runSettersOnQuery data db c db' :
  create data db = (Ok c, db') ->
  valid_address (address c) = true
  /\ (plain (name c) = true ->
      findByName runSettersOnQuery (name c) db' = Some c
      /\ forall variant, toLowerCase variant = name c ->
                         findByName runSettersOnQuery variant db' = Some c)
  /\ (plain (name c) = false ->
      findByName runSettersOnQuery (name c) db' <> Some c
      /\ forall variant, toLowerCase variant = name c ->
                         findByName runSettersOnQuery variant db' <> Some c).
Proof.
  intros Hc.
  apply create_ok in Hc as (Hdoc & -> & Hv & Hex).
  apply validate_ok in Hv as [_ Hv]. split; [exact Hv|].
  assert (Hstored : name c = set_name (data_name data)) by by rewrite Hdoc.
  assert (Hself : toLowerCase (name c) = name c).
  { rewrite Hstored. apply set_name_lower. }
  split.
  - intros Hp.
    assert (Hfind : forall variant, toLowerCase variant = name c ->
                      findByName runSettersOnQuery variant (db ++ [c])%list
                      = Some c).
    { intros variant Hvar. unfold findByName, findOne_name.
      rewrite (normalize_variant (name c) variant (data_name data)) by done.
      assert (cast_query runSettersOnQuery (name c) = name c) as ->.
      { rewrite Hstored. apply cast_query_stored. }
      by destruct (find_fresh (name c) db c Hex eq_refl) as [-> _]. }
    split; [by apply Hfind|exact Hfind].
  - intros Hp.
    assert (Hmiss : forall variant, toLowerCase variant = name c ->
                      findByName runSettersOnQuery variant (db ++ [c])%list
                      <> Some c).
    { intros variant Hvar Hfound. apply findByName_length in Hfound.
      unfold normalize in Hfound.
      rewrite Hvar, Hstored, set_name_trim, <- Hstored in Hfound.
      pose proof (filter_shorter _ _ Hp) as Hlt. unfold plain in Hp. lia. }
    split; [by apply Hmiss|exact Hmiss].
Qed.

(** Inserting [  Alice Smith ] and looking up [ALICE Smith]. *)
Lemma directory_round_trip_witness :
  findByName true "ALICE Smith" [mkContact "alice smith" Demo.alice]
  = Some (mkContact "alice smith" Demo.alice).
Proof.
  apply (proj1 (proj2 (directory_round_trip true
           (mkData "  Alice Smith " Demo.alice) []
           (mkContact "alice smith" Demo.alice)
           [mkContact "alice smith" Demo.alice]
           ltac:(vm_compute; reflexivity)))).
  - vm_compute; reflexivity.
  - vm_compute; reflexivity.
Defined.

(** C6 as stated fails for a name with punctuation: the contact
    [o'brien] is inserted, and the lookup of its stored name, which
    strips the apostrophe, finds nothing, under either casting of query
    values. *)
Lemma round_trip_fails_with_punctuation :
  create (mkData "O'Brien" Demo.alice) []
  = (Ok (mkContact "o'brien" Demo.alice),
     [mkContact "o'brien" Demo.alice])
  /\ findByName true "o'brien" [mkContact "o'brien" Demo.alice] = None
  /\ findByName true "O'Brien" [mkContact "o'brien" Demo.alice] = None
  /\ findByName false "o'brien" [mkContact "o'brien" Demo.alice] = None
  /\ findByName false "O'Brien" [mkContact "o'brien" Demo.alice] = None.
Proof. vm_compute. tauto. Qed.

(** C9.  When an insert has succeeded, a second insert whose name
    normalizes (lower case, trimmed) to the same key and whose address
    passes validation fails with the duplicate-name error of [create];
    the collection is left as it was and holds exactly one record under
    that key, the first contact. *)
Theorem duplicate_insert_rejected d1 d2 db c1 db1 :
  create d1 db = (Ok c1, db1) ->
  set_name (data_name d2) = set_name (data_name d1) ->
  valid_address (data_address d2) = true ->
  create d2 db1
  = (Throw (Error ("Contact with name " ++ dq ++ data_name d2 ++ dq
                   ++ " already exists")), db1)
  /\ filter (fun c => name c = set_name (data_name d1)) db1 = [c1].
Proof.
  intros Hc Hkey Haddr.
  apply create_ok in Hc as (Hdoc & -> & Hv & Hex).
  assert (Hname : name c1 = set_name (data_name d1)) by by rewrite Hdoc.
  rewrite Hname in Hex.
  destruct (find_fresh _ db c1 Hex Hname) as [Hfind Hfilter].
  split; [|exact Hfilter].
  apply validate_ok in Hv as [Hn _]. rewrite Hname in Hn.
  unfold create, save, validate. simpl.
  rewrite Hkey, Hn, Haddr.
  assert (truthy (data_address d2) = true) as ->.
  { destruct (data_address d2); [by vm_compute in Haddr|done]. }
  simpl.
  assert (existsb (fun c => bool_decide (name c = set_name (data_name d1)))
                  (db ++ [c1]) = true) as ->.
  { rewrite existsb_app. simpl. rewrite bool_decide_true by done.
    by rewrite orb_true_r. }
  reflexivity.
Qed.

(** [bob] is stored; inserting [ BOB ] is refused. *)
Lemma duplicate_insert_rejected_witness :
  create (mkData " BOB " Demo.alice) [mkContact "bob" Demo.alice]
  = (Throw (Error ("Contact with name " ++ dq ++ " BOB " ++ dq
                   ++ " already exists")),
     [mkContact "bob" Demo.alice]).
Proof.
  apply (proj1 (duplicate_insert_rejected
           (mkData "bob" Demo.alice) (mkData " BOB " Demo.alice) []
           (mkContact "bob" Demo.alice) [mkContact "bob" Demo.alice]
           ltac:(vm_compute; reflexivity) ltac:(vm_compute; reflexivity)
           ltac:(vm_compute; reflexivity))).
Defined.

End ContactFacts.

Module BlockchainFacts.
Import JsString Js Blockchain ServiceSpec.

(** Unfolds the plumbing of an [async] method. *)
Ltac unfold_M :=
  unfold bind, ret, throw, try_catch, lift, remote, read_decimals,
         write_decimals in *.

Section Service.

Variable eth : Ethers.
Variable TOKEN_ADDRESSES : gmap string string.

Abbreviation getTokenAddress' := (getTokenAddress TOKEN_ADDRESSES).
Abbreviation getTokenDecimals' := (getTokenDecimals eth TOKEN_ADDRESSES).
Abbreviation sendTokens' := (sendTokens eth TOKEN_ADDRESSES).
Abbreviation getTokenBalance' := (getTokenBalance eth TOKEN_ADDRESSES).
Abbreviation getBalances' := (getBalances eth TOKEN_ADDRESSES).
Abbreviation insufficient := (ServiceSpec.insufficient eth TOKEN_ADDRESSES).
Abbreviation unparseable := (ServiceSpec.unparseable eth TOKEN_ADDRESSES).
Abbreviation target_of := (ServiceSpec.target_of eth).
Abbreviation runs := (ServiceSpec.runs eth TOKEN_ADDRESSES).
Abbreviation step := (ServiceSpec.step eth TOKEN_ADDRESSES).
Abbreviation later := (ServiceSpec.later eth TOKEN_ADDRESSES).
Abbreviation decimals_cases_statement :=
  (ServiceSpec.decimals_cases_statement eth TOKEN_ADDRESSES).

(** ** [getTokenDecimals], case by case *)

Lemma decimals_cached sym st d :
  TOKEN_DECIMALS st !! sym = Some d -> d <> 0 ->
  getTokenDecimals' sym st = (Ok d, st).
Proof.
  intros H Hd. unfold getTokenDecimals. unfold_M. rewrite H. simpl.
  by rewrite (proj2 (Z.eqb_neq d 0) Hd).
Qed.

Lemma decimals_native st :
  truthy_num (TOKEN_DECIMALS st !! "ETH") = None ->
  getTokenDecimals' "ETH" st = (Ok 18, st).
Proof. intros H. unfold getTokenDecimals. unfold_M. by rewrite H. Qed.

Lemma decimals_unsupported sym st :
  truthy_num (TOKEN_DECIMALS st !! sym) = None -> sym <> "ETH" ->
  getTokenAddress' sym = None ->
  getTokenDecimals' sym st = (Throw (Unsupported sym), st).
Proof.
  intros H Hs Ha. unfold getTokenDecimals. unfold_M. rewrite H, Ha.
  by rewrite bool_decide_false.
Qed.

Lemma decimals_queried sym st addr d :
  truthy_num (TOKEN_DECIMALS st !! sym) = None -> sym <> "ETH" ->
  getTokenAddress' sym = Some addr ->
  decimals eth (trace st) addr = Ok d ->
  getTokenDecimals' sym st
  = (Ok d, mkState (<[sym := d]> (TOKEN_DECIMALS st))
                   (trace st ++ [Decimals addr])%list).
Proof.
  intros H Hs Ha Hd. unfold getTokenDecimals. unfold_M. rewrite H, Ha.
  rewrite bool_decide_false by done. by rewrite Hd.
Qed.

Lemma decimals_query_failed sym st addr e :
  truthy_num (TOKEN_DECIMALS st !! sym) = None -> sym <> "ETH" ->
  getTokenAddress' sym = Some addr ->
  decimals eth (trace st) addr = Throw e ->
  getTokenDecimals' sym st
  = (Ok 18, mkState (TOKEN_DECIMALS st) (trace st ++ [Decimals addr])%list).
Proof.
  intros H Hs Ha Hd. unfold getTokenDecimals. unfold_M. rewrite H, Ha.
  rewrite bool_decide_false by done. rewrite Hd. simpl. by rewrite H.
Qed.

(** ** What every method leaves alone *)

Lemma grows_ret {A} (a : A) : grows (ret a).
Proof.
  intros st r st' [= <- <-]. split; [|done]. exists []. by rewrite app_nil_r.
Qed.

Lemma grows_throw {A} e : grows (@throw A e).
Proof.
  intros st r st' [= <- <-]. split; [|done]. exists []. by rewrite app_nil_r.
Qed.

Lemma grows_lift {A} (x : result A) : grows (lift x).
Proof.
  intros st r st' [= <- <-]. split; [|done]. exists []. by rewrite app_nil_r.
Qed.

Lemma grows_remote {A} c (f : list call -> result A) : grows (remote c f).
Proof. intros st r st' [= <- <-]. split; [|done]. by exists [c]. Qed.

Lemma grows_bind {A B} (c : M A) (f : A -> M B) :
  grows c -> (forall a, grows (f a)) -> grows (bind c f).
Proof.
  intros Hc Hf st r st' H. unfold bind in H.
  destruct (c st) as [[a|e] st1] eqn:E.
  - destruct (Hc _ _ _ E) as [[n1 H1] K1].
    destruct (Hf a _ _ _ H) as [[n2 H2] K2]. split.
    + exists (n1 ++ n2)%list. by rewrite H2, H1, app_assoc.
    + eauto.
  - injection H as <- <-. exact (Hc _ _ _ E).
Qed.

Lemma grows_try_catch {A} (c : M A) (h : JsError -> M A) :
  grows c -> (forall e, grows (h e)) -> grows (try_catch c h).
Proof.
  intros Hc Hh st r st' H. unfold try_catch in H.
  destruct (c st) as [[a|e] st1] eqn:E.
  - injection H as <- <-. exact (Hc _ _ _ E).
  - destruct (Hc _ _ _ E) as [[n1 H1] K1].
    destruct (Hh e _ _ _ H) as [[n2 H2] K2]. split.
    + exists (n1 ++ n2)%list. by rewrite H2, H1, app_assoc.
    + eauto.
Qed.

Lemma grows_getTokenDecimals sym : grows (getTokenDecimals' sym).
Proof.
  intros st r st' H.
  destruct (truthy_num (TOKEN_DECIMALS st !! sym)) as [d|] eqn:Hc.
  - assert (TOKEN_DECIMALS st !! sym = Some d /\ d <> 0) as [H1 H2].
    { unfold truthy_num in Hc. destruct (TOKEN_DECIMALS st !! sym) as [x|]; [|done].
      destruct (Z.eqb_spec x 0); [done|]. by injection Hc as ->. }
    rewrite (decimals_cached _ _ _ H1 H2) in H. injection H as <- <-.
    split; [|done]. exists []. by rewrite app_nil_r.
  - destruct (decide (sym = "ETH")) as [->|Hs].
    { rewrite decimals_native in H by done. injection H as <- <-.
      split; [|done]. exists []. by rewrite app_nil_r. }
    destruct (getTokenAddress' sym) as [addr|] eqn:Ha.
    + destruct (decimals eth (trace st) addr) as [d|e] eqn:Hd.
      * rewrite (decimals_queried _ _ _ _ Hc Hs Ha Hd) in H.
        injection H as <- <-. split; [by exists [Decimals addr]|].
        intros s' d' Hs' Hd'. simpl.
        destruct (decide (sym = s')) as [<-|Hne].
        -- unfold truthy_num in Hc. rewrite Hs' in Hc.
           by rewrite (proj2 (Z.eqb_neq d' 0) Hd') in Hc.
        -- by rewrite lookup_insert_ne.
      * rewrite (decimals_query_failed _ _ _ _ Hc Hs Ha Hd) in H.
        injection H as <- <-. split; [by exists [Decimals addr]|done].
    + rewrite decimals_unsupported in H by done. injection H as <- <-.
      split; [|done]. exists []. by rewrite app_nil_r.
Qed.

Ltac solve_grows :=
  repeat first
    [ apply grows_ret | apply grows_throw | apply grows_lift
    | apply grows_remote | apply grows_getTokenDecimals
    | apply grows_bind; [|intros ?]
    | apply grows_try_catch; [|intros ?]
    | match goal with
      | |- grows (if ?b then _ else _) => destruct b
      | |- grows (match ?x with _ => _ end) => destruct x
      end ].

Lemma grows_sendEth toAddress amount_ : grows (sendEth eth toAddress amount_).
Proof. unfold sendEth. solve_grows. Qed.

Lemma grows_sendTokens sym toAddress amount_ :
  grows (sendTokens' sym toAddress amount_).
Proof.
  unfold sendTokens.
  destruct (negb (isAddress eth toAddress)); [apply grows_throw|].
  destruct (bool_decide (sym = "ETH")); [apply grows_sendEth|].
  solve_grows.
Qed.

Lemma grows_getTokenBalance sym address : grows (getTokenBalance' sym address).
Proof. unfold getTokenBalance. solve_grows. Qed.

Lemma grows_all {A} (qs : list (M A)) :
  Forall grows qs -> grows (all qs).
Proof.
  induction 1 as [|q qs Hq Hqs IH]; simpl; [apply grows_ret|].
  apply grows_bind; [exact Hq|intros x].
  apply grows_bind; [exact IH|intros xs]. apply grows_ret.
Qed.

Lemma grows_getBalances syms address : grows (getBalances' syms address).
Proof.
  unfold getBalances. apply grows_all. apply Forall_map, Forall_forall.
  intros sym _. simpl. apply grows_try_catch; [apply grows_getTokenBalance|].
  intros e. apply grows_ret.
Qed.

(** ** Transfers *)

Lemma getTokenDecimals_reads sym st r st1 :
  getTokenDecimals' sym st = (r, st1) ->
  exists new, calls_between st st1 new /\ forallb is_read new = true.
Proof.
  intros H. unfold getTokenDecimals in H. unfold_M.
  destruct (truthy_num (TOKEN_DECIMALS st !! sym)).
  { injection H as <- <-. exists []. split; [|done].
    unfold calls_between. by rewrite app_nil_r. }
  destruct (bool_decide (sym = "ETH")).
  { injection H as <- <-. exists []. split; [|done].
    unfold calls_between. by rewrite app_nil_r. }
  destruct (getTokenAddress' sym) as [addr|].
  - exists [Decimals addr]. split; [|done].
    destruct (decimals eth (trace st) addr); by injection H as <- <-.
  - injection H as <- <-. exists []. split; [|done].
    unfold calls_between. by rewrite app_nil_r.
Qed.

(** C1.  A transfer to a well-formed address for which the balance of
    the signing account is strictly below the requested amount fails
    with the insufficient-balance error, and between its start and its
    end no transaction is submitted: the calls made are reads, the last
    of them the balance read. *)
Theorem insufficient_balance_short_circuit sym toAddress amount_ st st1 read :
  isAddress eth toAddress = true ->
  insufficient sym amount_ st st1 read ->
  exists st' new,
    sendTokens' sym toAddress amount_ st = (Throw (InsufficientBalance sym), st')
    /\ calls_between st st' new
    /\ forallb is_read new = true
    /\ last new = Some read.
Proof.
  intros Haddr Hins. unfold sendTokens. rewrite Haddr. cbn [negb].
  destruct Hins as [a b -> Ha Hb Hlt|addr d st1 a b Hs Hta Hd Ha Hb Hlt].
  - rewrite bool_decide_true by done.
    unfold sendEth. rewrite Haddr. cbn [negb]. unfold_M.
    rewrite Ha, Hb. rewrite (proj2 (Z.ltb_lt b a) Hlt).
    do 2 eexists. split; [reflexivity|]. split; [reflexivity|]. done.
  - rewrite bool_decide_false by done. rewrite Hta.
    destruct (getTokenDecimals_reads _ _ _ _ Hd) as (new & Hnew & Hreads).
    unfold_M. rewrite Hd, Ha, Hb. rewrite (proj2 (Z.ltb_lt b a) Hlt).
    do 2 eexists. split; [reflexivity|]. simpl.
    split; [|split].
    + unfold calls_between in *. simpl. rewrite Hnew, <- app_assoc. reflexivity.
    + rewrite forallb_app, Hreads. reflexivity.
    + by rewrite last_snoc.
Qed.

(** C5, as the code has it.  A transfer to a destination that fails the
    address check throws [Invalid Ethereum address] and calls nothing.
    A transfer to a well-formed address whose amount does not convert at
    the resolved decimals throws the conversion error (inside the
    [Failed to send ETH] wrapper on the ETH path) after reads only:
    nothing is submitted.  (The service has no check that the amount is
    positive.) *)
Theorem transfer_validation sym toAddress amount_ st :
  (isAddress eth toAddress = false ->
   sendTokens' sym toAddress amount_ st
   = (Throw (Error "Invalid Ethereum address"), st))
  /\ (isAddress eth toAddress = true ->
      forall st1 err, unparseable sym amount_ st st1 err ->
        sendTokens' sym toAddress amount_ st = (Throw err, st1)
        /\ exists new, calls_between st st1 new /\ forallb is_read new = true).
Proof.
  split.
  - intros Haddr. unfold sendTokens. by rewrite Haddr.
  - intros Haddr st1 err Hun. unfold sendTokens. rewrite Haddr. cbn [negb].
    destruct Hun as [e -> He|addr d st1 e Hs Hta Hd He].
    + rewrite bool_decide_true by done.
      unfold sendEth. rewrite Haddr. cbn [negb]. unfold_M. rewrite He.
      split; [reflexivity|]. exists []. split; [|done].
      unfold calls_between. by rewrite app_nil_r.
    + rewrite bool_decide_false by done. rewrite Hta.
      unfold_M. rewrite Hd, He. split; [reflexivity|].
      by eapply getTokenDecimals_reads.
Qed.

(** ** Balance queries *)

Lemma getTokenBalance_native address st :
  getTokenBalance' "ETH" address st
  = (Ok match getBalance eth (trace st) (target_of address) with
        | Ok v =>
            match formatUnits eth v 18 with
            | Ok s => mkBalanceInfo "ETH" s (Some (pretty v)) (Some 18) None "testnet"
            | Throw e => zero_balance "ETH" e
            end
        | Throw e => zero_balance "ETH" e
        end,
     mkState (TOKEN_DECIMALS st)
             (trace st ++ [GetBalance (target_of address)])%list).
Proof.
  unfold getTokenBalance, target_of. unfold_M.
  rewrite bool_decide_true by done.
  destruct (getBalance eth (trace st) _); [|done].
  by destruct (formatUnits eth a 18).
Qed.

Lemma getTokenBalance_unsupported sym address st :
  sym <> "ETH" -> getTokenAddress' sym = None ->
  getTokenBalance' sym address st
  = (Ok (zero_balance sym (Unsupported sym)), st).
Proof.
  intros Hs Ha. unfold getTokenBalance. unfold_M.
  rewrite bool_decide_false by done. by rewrite Ha.
Qed.

Lemma getTokenBalance_token sym address st addr :
  sym <> "ETH" -> getTokenAddress' sym = Some addr ->
  let raw := raw_balance (balanceOf eth (trace st) addr (target_of address)) in
  let st1 := mkState (TOKEN_DECIMALS st)
               (trace st ++ [BalanceOf addr (target_of address)])%list in
  getTokenBalance' sym address st
  = match getTokenDecimals' sym st1 with
    | (Ok d, st2) =>
        (Ok match formatUnits eth raw d with
            | Ok s => mkBalanceInfo sym s (Some (pretty raw)) (Some d) None "testnet"
            | Throw e => zero_balance sym e
            end, st2)
    | (Throw e, st2) => (Ok (zero_balance sym e), st2)
    end.
Proof.
  intros Hs Ha raw st1. unfold getTokenBalance. unfold_M.
  rewrite bool_decide_false by done. rewrite Ha.
  subst raw st1. unfold ServiceSpec.target_of.
  destruct (balanceOf eth (trace st) addr _); simpl;
    (destruct (getTokenDecimals' sym _) as [[d|e'] st2]; [|done]);
    by destruct (formatUnits eth _ d).
Qed.

(** A balance query returns, with an entry for its symbol. *)
Lemma getTokenBalance_returns sym address st :
  exists info st',
    getTokenBalance' sym address st = (Ok info, st')
    /\ b_token info = sym
    /\ (failure_entry sym info \/ success_entry sym info).
Proof.
  destruct (decide (sym = "ETH")) as [->|Hs].
  { rewrite getTokenBalance_native. do 2 eexists. split; [reflexivity|].
    destruct (getBalance eth _ _) as [v|e].
    - destruct (formatUnits eth v 18) as [s|e].
      + split; [done|]. right. unfold success_entry. simpl. by eauto 10.
      + split; [done|]. left. by exists e.
    - split; [done|]. left. by exists e. }
  destruct (getTokenAddress' sym) as [addr|] eqn:Ha.
  - rewrite (getTokenBalance_token _ _ _ _ Hs Ha). cbv zeta.
    destruct (getTokenDecimals' sym _) as [[d|e] st2].
    + do 2 eexists. split; [reflexivity|].
      destruct (formatUnits eth _ d) as [s|e'].
      * split; [done|]. right. unfold success_entry. simpl. by eauto 10.
      * split; [done|]. left. by exists e'.
    + do 2 eexists. split; [reflexivity|]. split; [done|]. left. by exists e.
  - rewrite getTokenBalance_unsupported by done.
    do 2 eexists. split; [reflexivity|]. split; [done|]. left. by eexists.
Qed.

Lemma all_runs address syms : forall st,
  exists infos st',
    all (map (fun symbol =>
                try_catch (getTokenBalance' symbol address)
                          (fun err => ret (zero_balance symbol err))) syms) st
    = (Ok infos, st')
    /\ runs address syms st infos st'.
Proof.
  induction syms as [|sym syms IH]; intros st.
  - exists [], st. split; [reflexivity|constructor].
  - destruct (getTokenBalance_returns sym address st) as (info & st1 & H & _).
    destruct (IH st1) as (infos & st2 & Hall & Hruns).
    exists (info :: infos), st2. split.
    + simpl. unfold bind at 1. unfold try_catch at 1. rewrite H.
      unfold bind at 1. rewrite Hall. reflexivity.
    + econstructor; eauto.
Qed.

Lemma runs_entries address syms st infos st' :
  runs address syms st infos st' ->
  map b_token infos = syms
  /\ Forall2 (fun sym info => failure_entry sym info \/ success_entry sym info)
             syms infos.
Proof.
  induction 1 as [|sym syms st info st1 infos st2 H Hruns [IH1 IH2]].
  - split; [reflexivity|constructor].
  - destruct (getTokenBalance_returns sym address st) as (i & s1 & H' & Ht & He).
    rewrite H in H'. injection H' as <- <-. split.
    + simpl. by rewrite Ht, IH1.
    + by constructor.
Qed.

Lemma pretty_zero : pretty 0 = "0".
Proof. reflexivity. Qed.

(** C8, as the code has it.  A balance query returns an entry for its
    symbol, whatever the chain answers.  A failed read of the native
    balance and an unsupported symbol give a zero balance with the error
    message.  A failed read of a token contract's balance counts as a raw
    balance of 0: the entry carries no message of that failure (its error
    field is set only when resolving the decimals or formatting fails).
    A query for several symbols returns, for each of them in the order
    of the request, the entry that the query for that symbol alone
    returns, one query after the other: whatever fails for one symbol,
    the entries of the others are theirs. *)
Theorem balance_queries_never_throw sym address st :
  (exists info st',
     getTokenBalance' sym address st = (Ok info, st')
     /\ b_token info = sym
     /\ (sym = "ETH" -> forall e,
           getBalance eth (trace st) (target_of address) = Throw e ->
           info = zero_balance sym e)
     /\ (sym <> "ETH" -> getTokenAddress' sym = None ->
         info = zero_balance sym (Unsupported sym))
     /\ (sym <> "ETH" -> forall addr e,
           getTokenAddress' sym = Some addr ->
           balanceOf eth (trace st) addr (target_of address) = Throw e ->
           info = match getTokenDecimals' sym
                          (mkState (TOKEN_DECIMALS st)
                             (trace st ++ [BalanceOf addr (target_of address)])%list)
                  with
                  | (Ok d, _) =>
                      match formatUnits eth 0 d with
                      | Ok s => mkBalanceInfo sym s (Some "0") (Some d) None "testnet"
                      | Throw e' => zero_balance sym e'
                      end
                  | (Throw e', _) => zero_balance sym e'
                  end))
  /\ (forall syms, exists infos st',
        getBalances' syms address st = (Ok infos, st')
        /\ runs address (default default_symbols syms) st infos st'
        /\ map b_token infos = default default_symbols syms).
Proof.
  split.
  - destruct (getTokenBalance_returns sym address st) as (info & st' & H & Ht & _).
    exists info, st'. split; [exact H|]. split; [exact Ht|].
    split; [|split].
    + intros -> e He. rewrite getTokenBalance_native, He in H.
      by injection H as <- _.
    + intros Hs Ha. rewrite getTokenBalance_unsupported in H by done.
      by injection H as <- _.
    + intros Hs addr e Ha He.
      rewrite (getTokenBalance_token _ _ _ _ Hs Ha) in H. cbv zeta in H.
      rewrite He in H. simpl in H.
      destruct (getTokenDecimals' sym _) as [[d|e'] st2];
        by injection H as <- _.
  - intros syms. unfold getBalances.
    destruct (all_runs address (default default_symbols syms) st)
      as (infos & st' & H & Hruns).
    exists infos, st'. split; [exact H|]. split; [exact Hruns|].
    by destruct (runs_entries _ _ _ _ _ Hruns).
Qed.

(** C10, as the code has it.  [getBalances] returns one entry per
    requested symbol, in the order of the request, each with its own
    symbol: the entries are what the single-symbol queries return, one
    after the other.  An entry is either a zero balance with an error
    message or a balance without one (a token whose contract read failed
    has an entry of the second kind, with raw balance 0). *)
Theorem getBalances_one_entry_per_symbol syms address st :
  let symbols := default default_symbols syms in
  exists infos st',
    getBalances' syms address st = (Ok infos, st')
    /\ runs address symbols st infos st'
    /\ List.length infos = List.length symbols
    /\ map b_token infos = symbols
    /\ Forall2 (fun sym info => failure_entry sym info \/ success_entry sym info)
               symbols infos.
Proof.
  intros symbols. unfold getBalances. fold symbols.
  destruct (all_runs address symbols st) as (infos & st' & H & Hruns).
  exists infos, st'. split; [exact H|]. split; [exact Hruns|].
  destruct (runs_entries _ _ _ _ _ Hruns) as [Hmap Hall].
  split; [|by split]. by rewrite <- Hmap, length_map.
Qed.

(** ** The process lifetime *)

Lemma step_keeps st st' sym d :
  step st st' -> TOKEN_DECIMALS st !! sym = Some d -> d <> 0 ->
  TOKEN_DECIMALS st' !! sym = Some d.
Proof.
  intros [s r H|t a r H|s t a r H|s a r H|ss a r H] Hc Hd.
  - by eapply (grows_getTokenDecimals s).
  - by eapply (grows_sendEth t a).
  - by eapply (grows_sendTokens s t a).
  - by eapply (grows_getTokenBalance s a).
  - by eapply (grows_getBalances ss a).
Qed.

Lemma later_keeps st st' sym d :
  later st st' -> TOKEN_DECIMALS st !! sym = Some d -> d <> 0 ->
  TOKEN_DECIMALS st' !! sym = Some d.
Proof.
  induction 1 as [|st st1 st2 Hs _ IH]; [done|].
  intros Hc Hd. apply IH; [|done]. by eapply step_keeps.
Qed.

Lemma decimals_cases sym st : decimals_cases_statement sym st.
Proof.
  split.
  - intros d Hc Hd st1 Hl. apply decimals_cached; [|done].
    by eapply later_keeps.
  - intros Hc Hs. destruct (getTokenAddress' sym) as [addr|] eqn:Ha.
    + destruct (decimals eth (trace st) addr) as [d|e] eqn:Hd.
      * eexists. split; [by apply decimals_queried|]. simpl.
        split; [done|]. split; [done|].
        intros Hd0 st1 Hl. apply decimals_cached; [|done].
        eapply later_keeps; [exact Hl| |done]. simpl. apply lookup_insert_eq.
      * eexists. split; [by eapply decimals_query_failed|]. done.
    + by apply decimals_unsupported.
Qed.

End Service.

(** The account holds 1 unit of MTK and 5 MTK (5 * 10^18 units) are
    requested: the transfer fails after the balance read. *)
Lemma insufficient_balance_witness :
  let eth := Demo.client (Ok 0) (Ok 1) (Ok 18) in
  exists st' new,
    sendTokens eth TOKEN_ADDRESSES_sepolia "MTK" Demo.alice "5" initial_state
    = (Throw (Error "Failed to send MTK: Insufficient MTK balance"), st')
    /\ calls_between initial_state st' new
    /\ forallb is_read new = true
    /\ last new
       = Some (BalanceOf "0x0E4Dd0bA5a6f1bc0ffFE421dbB8E252dFF0C66f6" Demo.wallet).
Proof.
  intros eth.
  apply (insufficient_balance_short_circuit eth TOKEN_ADDRESSES_sepolia
           "MTK" Demo.alice "5" initial_state initial_state).
  - vm_compute. reflexivity.
  - apply (insufficient_token eth TOKEN_ADDRESSES_sepolia "MTK" "5" initial_state
             "0x0E4Dd0bA5a6f1bc0ffFE421dbB8E252dFF0C66f6" 18 initial_state
             (5 * 10 ^ 18) 1);
      [discriminate|vm_compute; reflexivity..|lia].
Defined.

(** The amount [five] of MTK does not convert: the transfer throws the
    conversion error before any call. *)
Lemma transfer_validation_witness :
  let eth := Demo.client (Ok 0) (Ok 1) (Ok 18) in
  sendTokens eth TOKEN_ADDRESSES_sepolia "MTK" Demo.alice "five" initial_state
  = (Throw (Error "invalid decimal value"), initial_state).
Proof.
  intros eth.
  apply (proj2 (transfer_validation eth TOKEN_ADDRESSES_sepolia
                  "MTK" Demo.alice "five" initial_state)).
  - vm_compute. reflexivity.
  - apply (unparseable_token eth TOKEN_ADDRESSES_sepolia "MTK" "five"
             initial_state "0x0E4Dd0bA5a6f1bc0ffFE421dbB8E252dFF0C66f6" 18);
      [discriminate|vm_compute; reflexivity..].
Defined.

(** C5 as stated fails for the amount [0], which is not positive: it
    converts to 0 units, the balance check passes, and the transfer is
    submitted and returns its result. *)
Lemma zero_amount_is_submitted :
  let eth := Demo.client (Ok 0) (Ok 0) (Ok 18) in
  let mtk := "0x0E4Dd0bA5a6f1bc0ffFE421dbB8E252dFF0C66f6" in
  parseUnits eth "0" 18 = Ok 0
  /\ sendTokens eth TOKEN_ADDRESSES_sepolia "MTK" Demo.alice "0" initial_state
     = (Ok (mkTransferResult "0xabc" Demo.wallet Demo.alice "0" "MTK" 7 "testnet"),
        mkState TOKEN_DECIMALS_initial
          [ BalanceOf mtk Demo.wallet;
            Transfer mtk Demo.alice 0 250000;
            Wait "0xabc" ]).
Proof. vm_compute. split; reflexivity. Qed.

(** The token contracts cannot be read and the native balance can: a
    query for MTK and ETH returns the entry of each. *)
Lemma balance_queries_never_throw_witness :
  let eth := Demo.client (Ok 5) Demo.unreachable (Ok 18) in
  exists infos st',
    getBalances eth TOKEN_ADDRESSES_sepolia (Some ["MTK"; "ETH"]) None
                initial_state
    = (Ok infos, st')
    /\ runs eth TOKEN_ADDRESSES_sepolia None ["MTK"; "ETH"] initial_state
            infos st'
    /\ map b_token infos = ["MTK"; "ETH"].
Proof.
  intros eth.
  apply (proj2 (balance_queries_never_throw eth TOKEN_ADDRESSES_sepolia
                  "MTK" None initial_state) (Some ["MTK"; "ETH"])).
Defined.

(** C8 as stated fails where the read of a token contract fails: the
    entry of MTK is a zero balance with no error annotation. *)
Lemma failed_token_read_not_annotated :
  let eth := Demo.client (Ok 5) Demo.unreachable (Ok 18) in
  balanceOf eth [] "0x0E4Dd0bA5a6f1bc0ffFE421dbB8E252dFF0C66f6" Demo.wallet
  = Throw (Error "network error")
  /\ fst (getTokenBalance eth TOKEN_ADDRESSES_sepolia "MTK" None initial_state)
     = Ok (mkBalanceInfo "MTK" "0.0" (Some "0") (Some 18) None "testnet").
Proof. vm_compute. split; reflexivity. Qed.

(** Two symbols are requested and two entries come back. *)
Lemma getBalances_witness :
  let eth := Demo.client (Ok 5) (Ok 7) (Ok 18) in
  exists infos st',
    getBalances eth TOKEN_ADDRESSES_sepolia (Some ["USDC"; "ETH"]) None
                initial_state
    = (Ok infos, st')
    /\ runs eth TOKEN_ADDRESSES_sepolia None ["USDC"; "ETH"] initial_state
            infos st'
    /\ List.length infos = 2%nat
    /\ map b_token infos = ["USDC"; "ETH"]
    /\ Forall2 (fun sym info =>
                  failure_entry sym info \/ success_entry sym info)
               ["USDC"; "ETH"] infos.
Proof.
  intros eth.
  apply (getBalances_one_entry_per_symbol eth TOKEN_ADDRESSES_sepolia
           (Some ["USDC"; "ETH"]) None initial_state).
Defined.

(** C10 as stated fails where the read of one token contract fails in a
    query for several symbols: the list keeps its length and order, but
    the entry of the failed token (USDC here, after ETH) carries no error
    message. *)
Lemma failed_entry_without_message :
  let eth := Demo.client (Ok 5) Demo.unreachable (Ok 18) in
  fst (getBalances eth TOKEN_ADDRESSES_sepolia (Some ["ETH"; "USDC"]) None
         initial_state)
  = Ok [ mkBalanceInfo "ETH" "0.000000000000000005" (Some "5") (Some 18) None
           "testnet";
         mkBalanceInfo "USDC" "0.0" (Some "0") (Some 6) None "testnet" ].
Proof. vm_compute. reflexivity. Qed.

(** ** The tables of the source *)



Section Source.

Variable eth : Ethers.

Abbreviation getTokenDecimals' := (getTokenDecimals eth TOKEN_ADDRESSES_sepolia).
Abbreviation later := (ServiceSpec.later eth TOKEN_ADDRESSES_sepolia).

















End Source.


End BlockchainFacts.

Module AppFacts.
Import JsString Regex Js App StringSpec RegexSpec RouteSpec.
Import StringFacts RegexFacts CommandParserFacts.

(** The helper of app.js on a text of the send shape (see
    [parse_send_shape]); the recipient has no line break in it. *)
Lemma app_parse_send_shape kw1 ws1 int frac ws2 tok ws3 kw2 ws4 rcp :
  toLowerCase kw1 = "send" -> toLowerCase kw2 = "to" ->
  run is_space ws1 = true -> run is_space ws2 = true ->
  run is_space ws3 = true -> run is_space ws4 = true ->
  run is_digit int = true ->
  (forall f, frac = Some f -> run is_digit f = true) ->
  run is_alpha tok = true ->
  run is_dot rcp = true -> starts_with is_space rcp = false ->
  parseCommand (kw1 ++ ws1 ++ decimal int frac ++ ws2 ++ tok ++ ws3
                    ++ kw2 ++ ws4 ++ rcp)
  = Some (mkSend (decimal int frac) (CommandParser.alias (toUpperCase tok))
                 (toLowerCase (trim rcp))).
Proof.
  intros Hk1 Hk2 H1 H2 H3 H4 Hint Hfrac Htok Hrcp Hrs.
  unfold parseCommand.
  assert (exists caps,
    exec send_re (kw1 ++ ws1 ++ decimal int frac ++ ws2 ++ tok ++ ws3
                      ++ kw2 ++ ws4 ++ rcp) = Some caps
    /\ caps !! 1%nat = Some (decimal int frac)
    /\ caps !! 2%nat = Some tok
    /\ caps !! 3%nat = Some rcp) as (caps & -> & -> & -> & ->); [|done].
  eexists. split.
  - apply search_from_hit. unfold send_re. cbn [seqs].
    apply seq_consumes.
    { by apply consumes_lit_i. }
    apply seq_consumes.
    { apply consumes_plus; [by eapply run_ne|by apply run_all|].
      apply (starts_disjoint is_digit); [apply digit_not_space|].
      unfold decimal. rewrite sapp_assoc. by apply run_starts. }
    rewrite (m_seq_group 1).
    apply group_consumes.
    { apply consumes_amount; [done|done|by apply run_starts]. }
    apply seq_consumes.
    { apply consumes_plus; [by eapply run_ne|by apply run_all|].
      apply (starts_disjoint is_alpha); [apply alpha_not_space|].
      by apply run_starts. }
    rewrite (m_seq_group 2).
    apply group_consumes.
    { apply consumes_plus; [by eapply run_ne|by apply run_all|].
      apply (starts_disjoint is_space); [apply space_not_alpha|].
      by apply run_starts. }
    apply seq_consumes.
    { apply consumes_plus; [by eapply run_ne|by apply run_all|].
      by eapply lower_starts. }
    apply seq_consumes.
    { by apply consumes_lit_i. }
    apply seq_consumes.
    { apply consumes_plus; [by eapply run_ne|by apply run_all|exact Hrs]. }
    rewrite <- (sapp_nil_r rcp) at 1.
    apply group_consumes.
    { apply consumes_plus; [by eapply run_ne|by apply run_all|reflexivity]. }
    reflexivity.
  - by simplify_map_eq.
Qed.

(** ** The words of the commands *)

(** In a text in which the helper of app.js finds a send command, the
    word [to] comes after three words or more. *)
Lemma send_words text caps :
  exec send_re text = Some caps ->
  exists P amt tok to R,
    P <> [] /\ words text = (P ++ amt :: tok :: to :: R)%list
    /\ low to = "to".
Proof.
  intros E. apply exec_sound in E as (pre & w & post & -> & M).
  unfold send_re in M. cbn [seqs matches] in M.
  destruct M as (kw & r1 & -> & Mkw & v1 & r2 & -> & Mv1 & amt & r3 & -> & Mamt
                 & v2 & r4 & -> & Mv2 & tok & r5 & -> & Mtok
                 & v3 & r6 & -> & Mv3 & to & r7 & -> & Mto
                 & v4 & rcp & -> & Mv4 & Mrcp).
  apply (matches_requires nonspace) in Mkw;
    [|by apply requiresb_sound; vm_compute].
  apply (matches_run is_space) in Mv1; [|by vm_compute..].
  apply (matches_run nonspace) in Mamt; [|by vm_compute..].
  apply (matches_run is_space) in Mv2; [|by vm_compute..].
  apply (matches_run nonspace) in Mtok; [|by vm_compute..].
  apply (matches_run is_space) in Mv3; [|by vm_compute..].
  pose proof (matches_lit_i_low _ _ _ _ Mto) as Hto.
  apply (matches_run nonspace) in Mto; [|by vm_compute..].
  apply (matches_run is_space) in Mv4; [|by vm_compute..].
  exists (words (pre ++ kw)), amt, tok, to, (words (rcp ++ post)).
  split; [|split; [|exact Hto]].
  - apply words_any. by rewrite any_string_app, Mkw, orb_true_r.
  - rewrite !sapp_assoc.
    rewrite <- (sapp_assoc pre kw). rewrite words_pre_blank by done.
    f_equal. rewrite words_word_blank by done. f_equal.
    rewrite words_word_blank by done. f_equal.
    by rewrite words_word_blank.
Qed.

(** The words of an add-contact command: three words, and then none
    that reads [to]. *)
Lemma add_words command caps :
  exec CommandParser.ADD_CONTACT_re command = Some caps ->
  exists a c name tail,
    words command = a :: c :: name :: tail
    /\ Forall (fun x => low x <> "to") tail.
Proof.
  intros E. apply exec_sound in E as (pre & w & post & -> & M).
  unfold CommandParser.ADD_CONTACT_re in M. cbn [seqs matches] in M.
  destruct M as (b & r0 & -> & (-> & Hpre) & a & r1 & -> & Ma
                 & v1 & r2 & -> & Mv1 & c & r3 & -> & Mc
                 & v2 & r4 & -> & Mv2 & name & r5 & -> & Mname
                 & v3 & r6 & -> & Mv3 & opt & r7 & -> & Mopt
                 & addr & e & -> & Maddr & (-> & ->)).
  destruct pre; [|done]. rewrite !sapp_nil, !sapp_nil_r in *.
  apply (matches_run nonspace) in Ma; [|by vm_compute..].
  apply (matches_run is_space) in Mv1; [|by vm_compute..].
  apply (matches_run nonspace) in Mc; [|by vm_compute..].
  apply (matches_run is_space) in Mv2; [|by vm_compute..].
  apply (matches_run nonspace) in Mname; [|by vm_compute..].
  apply (matches_run is_space) in Mv3; [|by vm_compute..].
  assert (Haddr : low addr <> "to").
  { destruct Maddr as (z & h & -> & Mz & _).
    apply matches_lit_i_low in Mz. rewrite low_app, Mz. discriminate. }
  apply (matches_run nonspace (Seq (lit_i "0x") (Rep 40 (Chr is_hex))))
    in Maddr; [|by vm_compute..].
  exists a, c, name, (words (opt ++ addr)).
  split.
  { rewrite words_word_blank by done. f_equal.
    rewrite words_word_blank by done. f_equal.
    by rewrite words_word_blank. }
  destruct Mopt as [[Mwith|Mas]| ->].
  - destruct Mwith as (wi & r8 & -> & Mwi & v4 & r9 & -> & Mv4
                       & ad & v5 & -> & Mad & Mv5).
    pose proof (matches_lit_i_low _ _ _ _ Mwi) as Hwi.
    pose proof (matches_lit_i_low _ _ _ _ Mad) as Had.
    apply (matches_run nonspace) in Mwi; [|by vm_compute..].
    apply (matches_run is_space) in Mv4; [|by vm_compute..].
    apply (matches_run nonspace) in Mad; [|by vm_compute..].
    apply (matches_run is_space) in Mv5; [|by vm_compute..].
    rewrite !sapp_assoc.
    rewrite words_word_blank by done. rewrite words_word_blank by done.
    rewrite (words_run addr Maddr).
    repeat constructor; [by rewrite Hwi|by rewrite Had|done].
  - destruct Mas as (as_ & v6 & -> & Mas & Mv6).
    pose proof (matches_lit_i_low _ _ _ _ Mas) as Has.
    apply (matches_run nonspace) in Mas; [|by vm_compute..].
    apply (matches_run is_space) in Mv6; [|by vm_compute..].
    rewrite !sapp_assoc.
    rewrite words_word_blank by done. rewrite (words_run addr Maddr).
    repeat constructor; [by rewrite Has|done].
  - rewrite sapp_nil, (words_run addr Maddr). by repeat constructor.
Qed.

(** A text that reads as an add-contact command has no send command in
    it. *)
Lemma add_not_send text caps :
  exec CommandParser.ADD_CONTACT_re (trim text) = Some caps ->
  parseCommand text = None.
Proof.
  intros Eadd. unfold parseCommand.
  destruct (exec send_re text) as [caps'|] eqn:Esend; [exfalso|done].
  apply add_words in Eadd as (a & c & name & tail & Hw & Htail).
  apply send_words in Esend as (P & amt & tok & to & R & HP & Hs & Hto).
  rewrite words_trim, Hs in Hw.
  assert (In to tail) as Hin.
  { destruct P as [|p [|q1 [|q2 P]]]; [done|..]; simpl in Hw;
      injection Hw as <- <- <- <-;
      rewrite ?in_app_iff; simpl; auto. }
  rewrite Forall_forall in Htail.
  apply (Htail to); [|done]. by apply list_elem_of_In.
Qed.

(** The helper of app.js finds nothing in a text without a digit. *)
Lemma no_digit_no_send text :
  any_string is_digit text = false -> parseCommand text = None.
Proof.
  intros Hd. unfold parseCommand.
  destruct (exec send_re text) as [caps|] eqn:E; [|done].
  apply (exec_requires is_digit) in E; [congruence|by vm_compute].
Qed.

Lemma letters_no_digit text :
  all_string letter_or_blank (trim text) = true ->
  any_string is_digit text = false.
Proof.
  intros H. apply (all_not_any letter_or_blank).
  - intros c. each_char c; vm_compute; congruence.
  - apply all_trim; [|exact H]. intros c Hc.
    unfold letter_or_blank. by rewrite Hc, orb_true_r.
Qed.

(** A text that the parser of utils/commandParser.js reads as a balance
    check, as an addition of a contact or as a listing of the contacts
    is no send command for the helper of app.js. *)
Lemma other_intent_not_parsed text pc :
  CommandParser.parseCommand text = Some pc ->
  other_intent pc = true -> parseCommand text = None.
Proof.
  unfold CommandParser.parseCommand.
  destruct (truthy text); [|done]. cbn [negb].
  destruct (exec CommandParser.SEND (trim text)) as [c1|] eqn:E1.
  { repeat case_match; try done. by intros [= <-]. }
  destruct (exec CommandParser.CHECK_BALANCE_re (trim text)) as [c2|] eqn:E2.
  { intros _ _. apply no_digit_no_send, letters_no_digit.
    unfold CommandParser.CHECK_BALANCE_re in E2. cbn [seqs] in E2.
    eapply anchored_within; [| |exact E2]; by vm_compute. }
  destruct (exec CommandParser.ADD_CONTACT_re (trim text)) as [c3|] eqn:E3.
  { intros _ _. by eapply add_not_send. }
  destruct (exec CommandParser.LIST_CONTACTS_re (trim text)) as [c4|] eqn:E4.
  { intros _ _. apply no_digit_no_send, letters_no_digit.
    unfold CommandParser.LIST_CONTACTS_re in E4. cbn [seqs] in E4.
    eapply anchored_within; [| |exact E4]; by vm_compute. }
  by intros [= <-].
Qed.

Section Routes.

Variable eth : Blockchain.Ethers.
Variable runSettersOnQuery : bool.

Abbreviation execute := (App.execute eth runSettersOnQuery).
Abbreviation findByName := (ContactModel.findByName runSettersOnQuery).
Abbreviation dispatch_statement :=
  (RouteSpec.dispatch_statement eth runSettersOnQuery).

(** The route, case by case. *)
Lemma dispatch command w : dispatch_statement command w.
Proof.
  unfold RouteSpec.dispatch_statement, parsed, execute, invalid_command,
    not_found.
  destruct (Blockchain.truthy_str command) as [text|]; [|done].
  destruct (parseCommand text) as [cmd|]; [|done].
  destruct (ContactModel.findByName _ _) as [contact|]; [|done].
  destruct (Blockchain.sendTokens _ _ _ _ _ _) as [[tx|e] st'] eqn:E;
    (split; [done|]); eexists; by split.
Qed.

(** C4, as the code has it.  The route reads a command with the helper
    of app.js, which knows the send command only.  A request without a
    command is answered 400 [Command is required]; a text in which the
    helper finds no send command -- a balance, add-contact or
    list-contacts command included -- is answered 400 [Invalid command
    format] with a usage suggestion, and nothing is called.  For a send
    command the recipient is looked up in the directory: when it is not
    found the answer is 404 with a suggestion; when it is found,
    [sendTokens] runs with the token, the address of the contact and the
    amount, and the answer is 200 with the transaction or 500 with the
    error message.  The directory is never written.  A text of the send
    shape is a send command whose recipient is lower-cased; a text that
    utils/commandParser.js reads as a balance check, as an addition of a
    contact or as a listing of the contacts is answered as an invalid
    command. *)
Theorem execute_dispatch command w :
  (let resp := fst (execute command w) in
   let w' := snd (execute command w) in
   contacts w' = contacts w
   /\ match parsed command with
      | None =>
          w' = w
          /\ resp = match Blockchain.truthy_str command with
                    | None => mkResponse 400 (Failure "Command is required" None)
                    | Some _ => invalid_command
                    end
      | Some cmd =>
          match findByName (recipient cmd) (contacts w) with
          | None => w' = w /\ resp = not_found (recipient cmd)
          | Some contact =>
              exists r,
                Blockchain.sendTokens eth Blockchain.TOKEN_ADDRESSES_sepolia
                  (token cmd) (ContactModel.address contact) (amount cmd)
                  (service w)
                = (r, service w')
                /\ resp = match r with
                          | Ok transaction =>
                              mkResponse 200
                                (Success ("Successfully sent " ++ amount cmd
                                          ++ " " ++ token cmd ++ " to "
                                          ++ recipient cmd)
                                   transaction)
                          | Throw error =>
                              mkResponse 500 (Failure (message error) None)
                          end
          end
      end)
  /\ (forall text pc,
        CommandParser.parseCommand text = Some pc -> other_intent pc = true ->
        execute (Some text) w = (invalid_command, w))
  /\ (forall kw1 ws1 int frac ws2 tok ws3 kw2 ws4 rcp,
        toLowerCase kw1 = "send" -> toLowerCase kw2 = "to" ->
        run is_space ws1 = true -> run is_space ws2 = true ->
        run is_space ws3 = true -> run is_space ws4 = true ->
        run is_digit int = true ->
        (forall f, frac = Some f -> run is_digit f = true) ->
        run is_alpha tok = true ->
        run is_dot rcp = true -> starts_with is_space rcp = false ->
        parsed (Some (kw1 ++ ws1 ++ decimal int frac ++ ws2 ++ tok ++ ws3
                          ++ kw2 ++ ws4 ++ rcp))
        = Some (mkSend (decimal int frac)
                       (CommandParser.alias (toUpperCase tok))
                       (toLowerCase (trim rcp)))).
Proof.
  split; [exact (dispatch command w)|]. split.
  { intros text pc Hpc Hother. unfold execute.
    assert (Blockchain.truthy_str (Some text) = Some text) as ->.
    { unfold CommandParser.parseCommand in Hpc. simpl.
      by destruct (truthy text). }
    by rewrite (other_intent_not_parsed text pc Hpc Hother). }
  intros kw1 ws1 int frac ws2 tok ws3 kw2 ws4 rcp Hk1 **.
  unfold parsed.
  assert (Blockchain.truthy_str
            (Some (kw1 ++ ws1 ++ decimal int frac ++ ws2 ++ tok ++ ws3
                       ++ kw2 ++ ws4 ++ rcp))
          = Some (kw1 ++ ws1 ++ decimal int frac ++ ws2 ++ tok ++ ws3
                      ++ kw2 ++ ws4 ++ rcp)) as ->.
  { destruct kw1; [discriminate|done]. }
  by apply app_parse_send_shape.
Qed.

End Routes.

(** [Send 5 USDC to Alice] is a send command for the contact [alice]. *)
Lemma execute_dispatch_witness :
  parsed (Some ("Send" ++ " " ++ decimal "5" None ++ " " ++ "USDC" ++ " "
                  ++ "to" ++ " " ++ "Alice"))
  = Some (mkSend "5" "USDC" "alice").
Proof.
  apply (proj2 (proj2 (execute_dispatch (Demo.client (Ok 0) (Ok 0) (Ok 6))
                         true None demo_world))
           "Send" " " "5" None " " "USDC" " " "to" " " "Alice");
    try reflexivity.
  discriminate.
Defined.

(** The example of the specification: [alice] is a contact, the account
    holds 10 USDC, and [Send 5 USDC to Alice] transfers 5 * 10^6 units to
    her address and answers once the receipt is there. *)
Example end_to_end_send :
  let eth := Demo.client (Ok 0) (Ok 10000000) (Ok 6) in
  let usdc := "0x1c7D4B196Cb0C7B01d743Fbc6116a902379C7238" in
  execute eth true (Some "Send 5 USDC to Alice") demo_world
  = (mkResponse 200
       (Success "Successfully sent 5 USDC to alice"
          (Blockchain.mkTransferResult "0xabc" Demo.wallet Demo.alice "5"
             "USDC" 7 "testnet")),
     mkWorld (contacts demo_world)
       (Blockchain.mkState Blockchain.TOKEN_DECIMALS_initial
          [ Blockchain.BalanceOf usdc Demo.wallet;
            Blockchain.Transfer usdc Demo.alice 5000000 250000;
            Blockchain.Wait "0xabc" ])).
Proof. vm_compute. reflexivity. Qed.

(** C4 as stated fails for the three intents other than [Send]: the
    parser of utils/commandParser.js reads them, the route answers each
    with [Invalid command format] and calls neither the chain nor the
    directory. *)
Lemma other_intents_are_invalid_commands :
  let eth := Demo.client (Ok 5) (Ok 5) (Ok 18) in
  let add := "add contact bob as 0x2222222222222222222222222222222222222222" in
  CommandParser.parseCommand "check my balance"
  = Some (CommandParser.CheckBalance "ALL")
  /\ execute eth true (Some "check my balance") demo_world
     = (invalid_command, demo_world)
  /\ CommandParser.parseCommand "list contacts"
     = Some CommandParser.ListContacts
  /\ execute eth true (Some "list contacts") demo_world
     = (invalid_command, demo_world)
  /\ CommandParser.parseCommand add
     = Some (CommandParser.AddContact "bob" Demo.alice)
  /\ execute eth true (Some add) demo_world = (invalid_command, demo_world).
Proof. vm_compute. repeat split; reflexivity. Qed.

End AppFacts.

(* ================================================================== *)
(** * Further properties of the sources *)
(* ================================================================== *)

Module ShapeFacts.
Import JsString Regex CommandParser StringSpec RegexSpec ParserSpec ShapeSpec.
Import StringFacts RegexFacts CommandParserFacts.

(** ** Trimming a padded text *)

Lemma trimStart_blank l s :
  all_string is_space l = true -> trimStart (l ++ s) = trimStart s.
Proof.
  induction l as [|c l IH]; [done|]. rewrite sapp_cons. simpl.
  intros [-> Hl]%andb_prop. auto.
Qed.

Lemma trimEnd_blank_only t : all_string is_space t = true -> trimEnd t = "".
Proof.
  induction t as [|c t IH]; [done|]. simpl.
  intros [-> Ht]%andb_prop. by rewrite IH.
Qed.

Lemma trimEnd_blank s t :
  all_string is_space t = true -> trimEnd (s ++ t) = trimEnd s.
Proof.
  intros Ht. induction s as [|c s IH].
  - rewrite sapp_nil. by apply trimEnd_blank_only.
  - rewrite sapp_cons. simpl. by rewrite IH.
Qed.

Lemma trimStart_app s t :
  trimStart s <> "" -> trimStart (s ++ t) = trimStart s ++ t.
Proof.
  induction s as [|c s IH]; [done|]. rewrite sapp_cons. simpl.
  destruct (is_space c); [exact IH|]. by rewrite sapp_cons.
Qed.

Lemma trimStart_blank_only l : all_string is_space l = true -> trimStart l = "".
Proof.
  induction l as [|c l IH]; [done|]. simpl. intros [-> Hl]%andb_prop. auto.
Qed.

Lemma trimStart_all s : trimStart s = "" -> all_string is_space s = true.
Proof.
  induction s as [|c s IH]; [done|]. simpl.
  destruct (is_space c); [exact IH|done].
Qed.

(** Blanks around a text do not change its trimmed form. *)
Lemma trim_pad l s t :
  all_string is_space l = true -> all_string is_space t = true ->
  trim (l ++ s ++ t) = trim s.
Proof.
  intros Hl Ht. unfold trim. rewrite trimStart_blank by done.
  destruct (trimStart s) as [|c u] eqn:E.
  - rewrite trimStart_blank_only; [done|].
    rewrite all_string_app, Ht, (trimStart_all s E). done.
  - rewrite trimStart_app by by rewrite E. rewrite E. by apply trimEnd_blank.
Qed.

(** ** Characters and keywords *)

Lemma lower_ascii_char c :
  is_lower (lower_char c) = true -> lower_ascii c = lower_char c.
Proof. each_char c; vm_compute; congruence. Qed.

Lemma lower_ascii_lower a : is_lower a = true -> lower_ascii a = a.
Proof. each_char a; vm_compute; congruence. Qed.

(** A letter of a pattern does not match a character that lower-cases
    to another letter. *)
Lemma ieq_mismatch a c :
  is_lower a = true -> is_lower (lower_char c) = true -> lower_char c <> a ->
  ieq a c = false.
Proof.
  intros Ha Hc Hne. unfold ieq. apply bool_decide_eq_false.
  by rewrite (lower_ascii_char c Hc), (lower_ascii_lower a Ha).
Qed.

Lemma lit_i_mismatch a lits c u (k : cont) i caps :
  ieq a c = false -> m (lit_i (String a lits)) k i (String c u) caps = None.
Proof. intros H. simpl. by rewrite H. Qed.

Lemma keyword_one a kw : keyword [a] kw = true -> toLowerCase kw = a.
Proof.
  unfold keyword. intros H%bool_decide_eq_true.
  by apply list_elem_of_singleton in H.
Qed.

Lemma lower_head kw b lits :
  toLowerCase kw = String b lits ->
  exists c u, kw = String c u /\ lower_char c = b /\ toLowerCase u = lits.
Proof.
  destruct kw as [|c u]; [done|]. unfold toLowerCase. simpl.
  intros [= <- <-]. eauto.
Qed.

(** A keyword is made of ASCII letters. *)
Lemma lower_alpha_char c : is_lower (lower_char c) = true -> is_alpha c = true.
Proof. each_char c; vm_compute; congruence. Qed.

Lemma lower_alpha lits : forall kw,
  toLowerCase kw = lits -> all_string is_lower lits = true ->
  all_string is_alpha kw = true.
Proof.
  induction lits as [|a lits IH]; intros kw Hkw Hl.
  - by destruct kw.
  - apply lower_head in Hkw as (c & u & -> & <- & Hu). simpl in *.
    apply andb_prop in Hl as [Ha Hl].
    by rewrite (lower_alpha_char c Ha), (IH u Hu Hl).
Qed.

Lemma keyword_run kws kw :
  keyword kws kw = true -> forallb (run is_lower) kws = true ->
  run is_alpha kw = true.
Proof.
  unfold keyword. intros H%bool_decide_eq_true Hall.
  rewrite forallb_forall in Hall.
  apply list_elem_of_In in H. specialize (Hall _ H).
  unfold run in *. apply andb_prop in Hall as [Hne Hl].
  rewrite (lower_alpha _ kw eq_refl Hl). by destruct kw.
Qed.

(** ** More of the matcher on its first attempt *)

Lemma consumes_star p w s :
  all_string p w = true -> starts_with p s = false -> consumes (Star p) w s.
Proof.
  intros Hall Hs k i caps res Hk. simpl.
  apply star_app; [exact Hall|]. by rewrite star_stop.
Qed.

Lemma consumes_alt_l r1 r2 w s : consumes r1 w s -> consumes (Alt r1 r2) w s.
Proof. intros H k i caps res Hk. simpl. by rewrite (H k i caps res Hk). Qed.

Lemma consumes_alt_r r1 r2 w s :
  (forall k i caps, m r1 k i (w ++ s) caps = None) ->
  consumes r2 w s -> consumes (Alt r1 r2) w s.
Proof. intros H1 H2 k i caps res Hk. simpl. rewrite H1. by apply H2. Qed.

Lemma consumes_rep p : forall n h s,
  String.length h = n -> all_string p h = true ->
  consumes (Rep n (Chr p)) h s.
Proof.
  induction n as [|n IH]; intros h s Hlen Hall k i caps res Hk.
  - destruct h; [|done]. simpl in *. by rewrite Nat.add_0_r in Hk.
  - destruct h as [|c h]; [done|]. simpl in Hlen, Hall.
    apply andb_prop in Hall as [Hc Hh]. rewrite sapp_cons. simpl. rewrite Hc.
    apply (IH h s); [lia|exact Hh|].
    simpl in Hk. by rewrite Nat.add_succ_r in Hk.
Qed.

Lemma opt_take r (k : cont) i s caps res :
  m r k i s caps = Some res -> m (Opt r) k i s caps = Some res.
Proof. intros H. simpl. by rewrite H. Qed.

(** A keyword of the pattern fails at once on a text that starts with
    another letter. *)
Lemma keyword_mismatch a lits kw b lits' s (k : cont) i caps :
  toLowerCase kw = String b lits' -> is_lower a = true -> is_lower b = true ->
  b <> a -> m (lit_i (String a lits)) k i (kw ++ s) caps = None.
Proof.
  intros (c & u & -> & Hc & _)%lower_head Ha Hb Hne.
  rewrite sapp_cons. apply lit_i_mismatch, ieq_mismatch; [done| |]; by rewrite Hc.
Qed.

(** One of three keywords with different first letters. *)
Lemma consumes_verb a la b lb c lc kw s :
  keyword [String a la; String b lb; String c lc] kw = true ->
  all_string is_lower (String a la) = true ->
  all_string is_lower (String b lb) = true ->
  all_string is_lower (String c lc) = true ->
  a <> b -> a <> c -> b <> c ->
  consumes (Alt (lit_i (String a la))
                (Alt (lit_i (String b lb)) (lit_i (String c lc)))) kw s.
Proof.
  unfold keyword. intros H%bool_decide_eq_true Ha Hb Hc Hab Hac Hbc.
  pose proof Ha as Ha'. pose proof Hb as Hb'. pose proof Hc as Hc'.
  simpl in Ha', Hb', Hc'.
  apply andb_prop in Ha' as [Ha' _]. apply andb_prop in Hb' as [Hb' _].
  apply andb_prop in Hc' as [Hc' _].
  apply elem_of_cons in H as [H|H]; [|apply elem_of_cons in H as [H|H]].
  - apply consumes_alt_l. by apply consumes_lit_i.
  - apply consumes_alt_r.
    { intros k i caps. by eapply keyword_mismatch. }
    apply consumes_alt_l. by apply consumes_lit_i.
  - apply list_elem_of_singleton in H.
    apply consumes_alt_r.
    { intros k i caps. by eapply keyword_mismatch. }
    apply consumes_alt_r.
    { intros k i caps. by eapply keyword_mismatch. }
    by apply consumes_lit_i.
Qed.

Lemma keyword_starts kws kw s :
  keyword kws kw = true -> forallb (run is_lower) kws = true ->
  starts_with is_space (kw ++ s) = false.
Proof.
  intros H Hk. apply (starts_disjoint is_alpha); [apply alpha_not_space|].
  apply run_starts. by eapply keyword_run.
Qed.

(** ** The balance command *)

Lemma check_tail kwb tail i :
  keyword ["balance"] kwb = true -> of_ok tail = true ->
  m (Seq (lit_i "balance")
       (Seq (Opt (seqs [ Plus is_space; lit_i "of"; Plus is_space;
                         Group 1 (Plus is_alpha) ])) Eol))
    accept i (kwb ++ of_text tail) ∅
  = Some match tail with
         | Some (_, _, _, tok) => <[1%nat := tok]> ∅
         | None => ∅
         end.
Proof.
  intros Hb Htail. destruct tail as [[[[ws3 kwof] ws4] tok]|]; simpl of_text.
  - simpl in Htail.
    apply andb_prop in Htail as [[[H3 Hof]%andb_prop H4]%andb_prop Htok].
    apply seq_consumes.
    { apply consumes_lit_i; [done|by apply keyword_one]. }
    change (m (Seq (Opt ?r) Eol) ?k ?i ?s ?c) with (m (Opt r) (m Eol k) i s c).
    apply opt_take. cbn [seqs].
    apply seq_consumes.
    { apply consumes_plus; [by eapply run_ne|by apply run_all|].
      by eapply keyword_starts. }
    apply seq_consumes.
    { apply consumes_lit_i; [done|by apply keyword_one]. }
    apply seq_consumes.
    { apply consumes_plus; [by eapply run_ne|by apply run_all|].
      apply (starts_disjoint is_alpha); [apply alpha_not_space|].
      rewrite <- (sapp_nil_r tok). by apply run_starts. }
    rewrite <- (sapp_nil_r tok) at 1.
    apply group_consumes.
    { apply consumes_plus; [by eapply run_ne|by apply run_all|reflexivity]. }
    reflexivity.
  - apply seq_consumes.
    { apply consumes_lit_i; [done|by apply keyword_one]. }
    reflexivity.
Qed.

(** The blanks after the verb, the optional [my] and the blanks after
    it, before a keyword [kw] with first letter [a]. *)
Lemma consumes_my r kw a lits ws1 my s (k : cont) i caps res :
  toLowerCase kw = String a lits -> is_lower a = true -> a <> "m"%char ->
  run is_space ws1 = true -> my_ok my = true ->
  m r k (i + String.length (ws1 ++ my_text my))%nat (kw ++ s) caps = Some res ->
  m (Seq (Plus is_space) (Seq (Opt (lit_i "my")) (Seq (Star is_space) r)))
    k i (ws1 ++ my_text my ++ kw ++ s) caps = Some res.
Proof.
  intros Hkw Ha Hm H1 Hmy Hk.
  assert (Hks : starts_with is_space (kw ++ s) = false).
  { destruct (lower_head _ _ _ Hkw) as (c & u & -> & Hc & _).
    rewrite sapp_cons. simpl. apply alpha_not_space, lower_alpha_char.
    by rewrite Hc. }
  rewrite length_sapp, Nat.add_assoc in Hk.
  destruct my as [[kwm ws]|]; simpl my_text in *.
  - apply andb_prop in Hmy as [Hkwm Hws].
    rewrite sapp_assoc.
    apply seq_consumes.
    { apply consumes_plus; [by eapply run_ne|by apply run_all|].
      by eapply keyword_starts. }
    apply seq_consumes.
    { apply consumes_opt_take, consumes_lit_i; [done|by apply keyword_one]. }
    apply seq_consumes.
    { by apply consumes_star. }
    by rewrite length_sapp, Nat.add_assoc in Hk.
  - rewrite sapp_nil.
    apply seq_consumes.
    { by apply consumes_plus; [eapply run_ne|apply run_all|]. }
    rewrite <- (sapp_nil (kw ++ s)).
    apply seq_consumes.
    { apply consumes_opt_skip. intros k' i' caps'.
      by eapply keyword_mismatch. }
    rewrite <- (sapp_nil (kw ++ s)).
    apply seq_consumes.
    { by apply consumes_star. }
    simpl in Hk. simpl. by rewrite !Nat.add_0_r in *.
Qed.

Lemma exec_CHECK_shape verb ws1 my kwb tail :
  keyword ["check"; "show"; "view"] verb = true -> run is_space ws1 = true ->
  my_ok my = true -> keyword ["balance"] kwb = true -> of_ok tail = true ->
  exec CHECK_BALANCE_re (verb ++ ws1 ++ my_text my ++ kwb ++ of_text tail)
  = Some match tail with
         | Some (_, _, _, tok) => <[1%nat := tok]> ∅
         | None => ∅
         end.
Proof.
  intros Hverb H1 Hmy Hb Htail.
  apply search_from_hit. unfold CHECK_BALANCE_re. cbn [seqs].
  change (m (Seq Bol ?r) ?k 0%nat ?s ?c) with (m r k 0%nat s c).
  apply seq_consumes.
  { by apply consumes_verb. }
  eapply consumes_my; [by apply keyword_one|done..|].
  by apply check_tail.
Qed.

(** ** The list command *)

Lemma exec_LIST_shape verb ws1 my kwc :
  keyword ["list"; "show"; "view"] verb = true -> run is_space ws1 = true ->
  my_ok my = true -> keyword ["contacts"] kwc = true ->
  exec LIST_CONTACTS_re (verb ++ ws1 ++ my_text my ++ kwc) = Some ∅.
Proof.
  intros Hverb H1 Hmy Hc.
  apply search_from_hit. unfold LIST_CONTACTS_re. cbn [seqs].
  change (m (Seq Bol ?r) ?k 0%nat ?s ?c) with (m r k 0%nat s c).
  apply seq_consumes.
  { by apply consumes_verb. }
  rewrite <- (sapp_nil_r kwc).
  eapply consumes_my; [by apply keyword_one|done..|].
  apply seq_consumes.
  { apply consumes_lit_i; [done|by apply keyword_one]. }
  reflexivity.
Qed.

(** ** The add-contact command *)

Lemma word_not_space c : is_word c = true -> is_space c = false.
Proof. each_char c; vm_compute; congruence. Qed.

Lemma space_not_word c : is_space c = true -> is_word c = false.
Proof. each_char c; vm_compute; congruence. Qed.

Lemma hex_not_space c : is_hex c = true -> is_space c = false.
Proof. each_char c; vm_compute; congruence. Qed.

Lemma hex_address_inv addr :
  hex_address addr = true ->
  exists x h, addr = String "0" (String x h)
              /\ (x = "x"%char \/ x = "X"%char)
              /\ String.length h = 40%nat /\ all_string is_hex h = true.
Proof.
  destruct addr as [|z [|x h]]; [done..|]. simpl.
  intros [[[Hz Hx]%andb_prop Hlen]%andb_prop Hh]%andb_prop.
  apply bool_decide_eq_true in Hz as ->. apply Nat.eqb_eq in Hlen.
  exists x, h. split; [done|]. split; [|done].
  apply orb_prop in Hx as [Hx|Hx]; apply bool_decide_eq_true in Hx; auto.
Qed.

Lemma consumes_address addr s :
  hex_address addr = true ->
  consumes (Seq (lit_i "0x") (Rep 40 (Chr is_hex))) addr s.
Proof.
  intros (x & h & -> & Hx & Hlen & Hh)%hex_address_inv.
  change (String "0" (String x h)) with (String "0" (String x "") ++ h).
  apply consumes_seq; [|by apply consumes_rep].
  intros k i caps res Hk. simpl in Hk.
  destruct Hx as [-> | ->]; simpl; by rewrite Nat.add_succ_r, Nat.add_1_r in Hk.
Qed.

Lemma consumes_link l addr :
  link_ok l = true -> hex_address addr = true ->
  consumes (Opt (Alt (seqs [ lit_i "with"; Plus is_space;
                             lit_i "address"; Plus is_space ])
                     (seqs [ lit_i "as"; Plus is_space ])))
           (link_text l) addr.
Proof.
  intros Hl Ha.
  assert (Has : starts_with is_space addr = false).
  { by apply hex_address_inv in Ha as (x & h & -> & _). }
  destruct l as [|kw1 ws1 kw2 ws2|kw ws]; simpl in Hl; simpl link_text.
  - apply consumes_opt_skip. intros k i caps.
    apply hex_address_inv in Ha as (x & h & -> & _). reflexivity.
  - apply andb_prop in Hl as [[[H1 H2]%andb_prop H3]%andb_prop H4].
    apply consumes_opt_take, consumes_alt_l. cbn [seqs].
    apply consumes_seq.
    { apply consumes_lit_i; [done|by apply keyword_one]. }
    apply consumes_seq.
    { apply consumes_plus; [by eapply run_ne|by apply run_all|].
      rewrite sapp_assoc. by eapply keyword_starts. }
    apply consumes_seq.
    { apply consumes_lit_i; [done|by apply keyword_one]. }
    by apply consumes_plus; [eapply run_ne|apply run_all|].
  - apply andb_prop in Hl as [H1 H2].
    apply consumes_opt_take, consumes_alt_r.
    { intros k i caps. cbn [seqs].
      change (m (Seq ?a ?b) ?k ?i ?s ?c) with (m a (m b k) i s c).
      rewrite sapp_assoc. eapply keyword_mismatch; [by apply keyword_one|done..]. }
    cbn [seqs]. apply consumes_seq.
    { apply consumes_lit_i; [done|by apply keyword_one]. }
    by apply consumes_plus; [eapply run_ne|apply run_all|].
Qed.

Lemma link_starts l addr :
  link_ok l = true -> hex_address addr = true ->
  starts_with is_space (link_text l ++ addr) = false.
Proof.
  intros Hl Ha.
  destruct l as [|kw1 ws1 kw2 ws2|kw ws]; simpl in Hl; simpl link_text.
  - by apply hex_address_inv in Ha as (x & h & -> & _).
  - apply andb_prop in Hl as [[[H1 H2]%andb_prop H3]%andb_prop H4].
    rewrite !sapp_assoc. by eapply keyword_starts.
  - apply andb_prop in Hl as [H1 H2].
    rewrite !sapp_assoc. by eapply keyword_starts.
Qed.

Lemma exec_ADD_shape kwa ws1 kwc ws2 name ws3 l addr :
  keyword ["add"] kwa = true -> run is_space ws1 = true ->
  keyword ["contact"] kwc = true -> run is_space ws2 = true ->
  run is_word name = true -> run is_space ws3 = true ->
  link_ok l = true -> hex_address addr = true ->
  exec ADD_CONTACT_re (kwa ++ ws1 ++ kwc ++ ws2 ++ name ++ ws3
                           ++ link_text l ++ addr)
  = Some (<[2%nat := addr]> (<[1%nat := name]> ∅)).
Proof.
  intros Ha H1 Hc H2 Hname H3 Hl Haddr.
  apply search_from_hit. unfold ADD_CONTACT_re. cbn [seqs].
  change (m (Seq Bol ?r) ?k 0%nat ?s ?c) with (m r k 0%nat s c).
  apply seq_consumes.
  { apply consumes_lit_i; [done|by apply keyword_one]. }
  apply seq_consumes.
  { apply consumes_plus; [by eapply run_ne|by apply run_all|].
    by eapply keyword_starts. }
  apply seq_consumes.
  { apply consumes_lit_i; [done|by apply keyword_one]. }
  apply seq_consumes.
  { apply consumes_plus; [by eapply run_ne|by apply run_all|].
    apply (starts_disjoint is_word); [apply word_not_space|].
    by apply run_starts. }
  rewrite (m_seq_group 1).
  apply group_consumes.
  { apply consumes_plus; [by eapply run_ne|by apply run_all|].
    apply (starts_disjoint is_space); [apply space_not_word|].
    by apply run_starts. }
  apply seq_consumes.
  { apply consumes_plus; [by eapply run_ne|by apply run_all|].
    by apply link_starts. }
  apply seq_consumes.
  { by apply consumes_link. }
  rewrite (m_seq_group 2).
  rewrite <- (sapp_nil_r addr) at 1.
  apply group_consumes.
  { by apply consumes_address. }
  reflexivity.
Qed.

(** ** Anchored patterns and texts that need no trimming *)

Lemma search_from_bol r : forall s i,
  i <> 0%nat -> search_from (Seq Bol r) i s = None.
Proof.
  induction s as [|c s IH]; intros i Hi; simpl;
    destruct (Nat.eqb_spec i 0); try done.
  by apply IH.
Qed.

(** A pattern that starts with [^] is tried at the start only. *)
Lemma exec_bol r s : exec (Seq Bol r) s = m r accept 0 s ∅.
Proof.
  unfold exec. destruct s as [|c s]; simpl.
  - by destruct (m r accept 0 "" ∅).
  - destruct (m r accept 0 (String c s) ∅); [done|]. by apply search_from_bol.
Qed.

Lemma alt_none r1 r2 (k : cont) i s caps :
  m r1 k i s caps = None -> m r2 k i s caps = None ->
  m (Alt r1 r2) k i s caps = None.
Proof. intros H1 H2. simpl. by rewrite H1. Qed.

Lemma trimEnd_run b : all_string nonspace b = true -> trimEnd b = b.
Proof.
  induction b as [|c b IH]; [done|]. simpl.
  intros [Hc Hb]%andb_prop. rewrite (IH Hb).
  unfold nonspace in Hc. apply negb_true_iff in Hc. rewrite Hc.
  by destruct b.
Qed.

Lemma trimEnd_end a b : run nonspace b = true -> trimEnd (a ++ b) = a ++ b.
Proof.
  intros Hb. pose proof (trimEnd_run b (run_all _ _ Hb)) as Hid.
  rewrite trimEnd_app; rewrite Hid; [done|by eapply run_ne].
Qed.

Lemma trim_core s :
  starts_with is_space s = false -> trimEnd s = s -> trim s = s.
Proof. intros Hs He. unfold trim. by rewrite trimStart_id. Qed.

Lemma run_mono (p P : ascii -> bool) w :
  (forall c, p c = true -> P c = true) -> run p w = true -> run P w = true.
Proof.
  intros H. unfold run. intros [-> Hw]%andb_prop.
  by rewrite (all_string_mono p P w H Hw).
Qed.

Lemma alpha_nonspace c : is_alpha c = true -> nonspace c = true.
Proof. intros H. unfold nonspace. by rewrite (alpha_not_space c H). Qed.

Lemma keyword_nonspace kws kw :
  keyword kws kw = true -> forallb (run is_lower) kws = true ->
  run nonspace kw = true.
Proof.
  intros H Hk. apply (run_mono is_alpha); [apply alpha_nonspace|].
  by eapply keyword_run.
Qed.

(** ** Letters and blanks *)

Lemma lob_alpha w :
  all_string is_alpha w = true -> all_string letter_or_blank w = true.
Proof.
  apply all_string_mono. intros c Hc. unfold letter_or_blank. by rewrite Hc.
Qed.

Lemma lob_space w :
  all_string is_space w = true -> all_string letter_or_blank w = true.
Proof.
  apply all_string_mono. intros c Hc. unfold letter_or_blank.
  by rewrite Hc, orb_true_r.
Qed.

Lemma lob_keyword kws kw :
  keyword kws kw = true -> forallb (run is_lower) kws = true ->
  all_string letter_or_blank kw = true.
Proof. intros H Hk. apply lob_alpha, run_all. by eapply keyword_run. Qed.

Lemma lob_my my :
  my_ok my = true -> all_string letter_or_blank (my_text my) = true.
Proof.
  destruct my as [[kw ws]|]; [|done]. simpl.
  intros [Hkw Hws]%andb_prop. rewrite all_string_app.
  by rewrite (lob_keyword _ _ Hkw), (lob_space _ Hws).
Qed.

Lemma lob_of tail :
  of_ok tail = true -> all_string letter_or_blank (of_text tail) = true.
Proof.
  destruct tail as [[[[ws3 kw] ws4] tok]|]; [|done]. simpl.
  intros [[[H3 Hof]%andb_prop H4]%andb_prop Htok]%andb_prop.
  rewrite !all_string_app.
  rewrite (lob_space _ (run_all _ _ H3)), (lob_keyword _ _ Hof) by done.
  by rewrite (lob_space _ (run_all _ _ H4)), (lob_alpha _ (run_all _ _ Htok)).
Qed.

(** [SEND] needs a digit. *)
Lemma lob_no_SEND text :
  all_string letter_or_blank text = true -> exec SEND text = None.
Proof.
  intros H. destruct (exec SEND text) as [caps|] eqn:E; [exfalso|done].
  apply (exec_requires is_digit) in E; [|by vm_compute].
  rewrite (all_not_any letter_or_blank is_digit text) in E; [done| |done].
  intros c. each_char c; vm_compute; congruence.
Qed.

(** ** The three other commands, from their texts *)

Lemma truthy_app_l a b : truthy a = true -> truthy (a ++ b) = true.
Proof. by destruct a. Qed.

Lemma keyword_truthy kws kw :
  keyword kws kw = true -> forallb (run is_lower) kws = true ->
  truthy kw = true.
Proof.
  intros H Hk. pose proof (keyword_run _ _ H Hk) as Hr.
  unfold run in Hr. by apply andb_prop in Hr as [? _].
Qed.

Lemma check_text_trim verb ws1 my kwb tail :
  keyword ["check"; "show"; "view"] verb = true ->
  keyword ["balance"] kwb = true -> of_ok tail = true ->
  trim (verb ++ ws1 ++ my_text my ++ kwb ++ of_text tail)
  = verb ++ ws1 ++ my_text my ++ kwb ++ of_text tail.
Proof.
  intros Hverb Hb Htail. apply trim_core; [by eapply keyword_starts|].
  destruct tail as [[[[ws3 kw] ws4] tok]|]; simpl of_text.
  - simpl in Htail. apply andb_prop in Htail as [_ Htok].
    rewrite <- !sapp_assoc. apply trimEnd_end.
    by apply (run_mono is_alpha); [apply alpha_nonspace|].
  - rewrite sapp_nil_r. rewrite <- !sapp_assoc. apply trimEnd_end.
    by eapply keyword_nonspace.
Qed.

Lemma parse_check_shape verb ws1 my kwb tail :
  keyword ["check"; "show"; "view"] verb = true -> run is_space ws1 = true ->
  my_ok my = true -> keyword ["balance"] kwb = true -> of_ok tail = true ->
  parseCommand (verb ++ ws1 ++ my_text my ++ kwb ++ of_text tail)
  = Some (CheckBalance (of_token tail)).
Proof.
  intros Hverb H1 Hmy Hb Htail. unfold parseCommand.
  rewrite truthy_app_l by by eapply keyword_truthy. cbn [negb].
  rewrite check_text_trim by done.
  rewrite lob_no_SEND.
  2:{ rewrite !all_string_app.
      rewrite (lob_keyword _ _ Hverb), (lob_space _ (run_all _ _ H1)) by done.
      by rewrite (lob_my _ Hmy), (lob_keyword _ _ Hb), (lob_of _ Htail). }
  rewrite exec_CHECK_shape by done.
  destruct tail as [[[[ws3 kw] ws4] tok]|]; [|done].
  simpl in Htail. apply andb_prop in Htail as [_ Htok].
  rewrite lookup_insert_eq. simpl.
  unfold run in Htok. by apply andb_prop in Htok as [-> _].
Qed.



Lemma lower_all (Q P : ascii -> bool) :
  (forall c, Q (lower_char c) = true -> P c = true) ->
  forall kw, all_string Q (toLowerCase kw) = true -> all_string P kw = true.
Proof.
  intros H. induction kw as [|c u IH]; [done|].
  unfold toLowerCase in *. simpl.
  intros [Hc Hu]%andb_prop. by rewrite (H c Hc), IH.
Qed.

Lemma no_b_keyword kws kw :
  keyword kws kw = true ->
  forallb (all_string (fun a => is_lower a && negb (bool_decide (a = "b"%char))))
          kws = true ->
  all_string no_b kw = true.
Proof.
  unfold keyword. intros H%bool_decide_eq_true Hk.
  rewrite forallb_forall in Hk. apply list_elem_of_In in H.
  specialize (Hk _ H). revert Hk. apply lower_all.
  intros c. each_char c; vm_compute; congruence.
Qed.

Lemma no_b_space w : all_string is_space w = true -> all_string no_b w = true.
Proof.
  apply all_string_mono. intros c. each_char c; vm_compute; congruence.
Qed.

Lemma no_b_my my : my_ok my = true -> all_string no_b (my_text my) = true.
Proof.
  destruct my as [[kw ws]|]; [|done]. simpl.
  intros [Hkw Hws]%andb_prop. rewrite all_string_app.
  by rewrite (no_b_keyword _ _ Hkw), (no_b_space _ Hws).
Qed.

(** [CHECK_BALANCE] needs a letter [b]. *)
Lemma no_b_no_CHECK text :
  all_string no_b text = true -> exec CHECK_BALANCE_re text = None.
Proof.
  intros H. destruct (exec CHECK_BALANCE_re text) as [caps|] eqn:E; [exfalso|done].
  apply (exec_requires (ieq "b")) in E; [|by vm_compute].
  rewrite (all_not_any no_b (ieq "b") text) in E; [done| |done].
  intros c. unfold no_b. by intros [_ ->%negb_true_iff]%andb_prop.
Qed.

(** [ADD_CONTACT] needs a digit. *)
Lemma lob_no_ADD text :
  all_string letter_or_blank text = true -> exec ADD_CONTACT_re text = None.
Proof.
  intros H. destruct (exec ADD_CONTACT_re text) as [caps|] eqn:E; [exfalso|done].
  apply (exec_requires is_digit) in E; [|by vm_compute].
  rewrite (all_not_any letter_or_blank is_digit text) in E; [done| |done].
  intros c. each_char c; vm_compute; congruence.
Qed.

Lemma no_b_lob w : all_string no_b w = true -> all_string letter_or_blank w = true.
Proof. apply all_string_mono. unfold no_b. by intros c [? _]%andb_prop. Qed.

(** X3.  A list command -- [list], [show] or [view], an optional [my] and
    [contacts], in any letter case -- reads as the listing of the
    contacts. *)
Theorem parse_list_contacts_shape verb ws1 my kwc :
  keyword ["list"; "show"; "view"] verb = true -> run is_space ws1 = true ->
  my_ok my = true -> keyword ["contacts"] kwc = true ->
  parseCommand (verb ++ ws1 ++ my_text my ++ kwc) = Some ListContacts.
Proof.
  intros Hverb H1 Hmy Hc. unfold parseCommand.
  rewrite truthy_app_l by by eapply keyword_truthy. cbn [negb].
  assert (Hnob : all_string no_b (verb ++ ws1 ++ my_text my ++ kwc) = true).
  { rewrite !all_string_app.
    rewrite (no_b_keyword _ _ Hverb), (no_b_space _ (run_all _ _ H1)) by done.
    by rewrite (no_b_my _ Hmy), (no_b_keyword _ _ Hc). }
  rewrite trim_core.
  2:{ by eapply keyword_starts. }
  2:{ rewrite <- !sapp_assoc. apply trimEnd_end. by eapply keyword_nonspace. }
  rewrite lob_no_SEND by by apply no_b_lob.
  rewrite no_b_no_CHECK by done.
  rewrite lob_no_ADD by by apply no_b_lob.
  by rewrite exec_LIST_shape.
Qed.

Lemma parse_list_contacts_shape_witness :
  parseCommand ("VIEW" ++ " " ++ my_text (Some ("my", "  ")) ++ "Contacts")
  = Some ListContacts.
Proof.
  by apply (parse_list_contacts_shape "VIEW" " " (Some ("my", "  ")) "Contacts").
Defined.

Lemma hex_address_nonspace addr :
  hex_address addr = true -> run nonspace addr = true.
Proof.
  intros (x & h & -> & Hx & _ & Hh)%hex_address_inv. unfold run. simpl.
  rewrite (all_string_mono is_hex nonspace h); [|intros c Hc|done].
  - by destruct Hx as [-> | ->].
  - unfold nonspace. by rewrite (hex_not_space c Hc).
Qed.

Lemma trim_run w : run nonspace w = true -> trim w = w.
Proof.
  intros Hw. apply trim_core.
  - destruct w as [|c w]; [done|]. unfold run in Hw. simpl in *.
    apply andb_prop in Hw as [Hc _]. unfold nonspace in Hc.
    by apply negb_true_iff in Hc.
  - by apply trimEnd_run, run_all.
Qed.

Lemma word_nonspace c : is_word c = true -> nonspace c = true.
Proof. intros H. unfold nonspace. by rewrite (word_not_space c H). Qed.

Lemma add_no_SEND kwa s :
  keyword ["add"] kwa = true -> exec SEND (kwa ++ s) = None.
Proof.
  intros Ha. unfold SEND. cbn [seqs]. rewrite exec_bol.
  change (m (Seq ?a ?b) ?k ?i ?t ?c) with (m a (m b k) i t c).
  eapply keyword_mismatch; [by apply keyword_one|done..].
Qed.

Lemma add_no_CHECK kwa s :
  keyword ["add"] kwa = true -> exec CHECK_BALANCE_re (kwa ++ s) = None.
Proof.
  intros Ha. unfold CHECK_BALANCE_re. cbn [seqs]. rewrite exec_bol.
  change (m (Seq ?a ?b) ?k ?i ?t ?c) with (m a (m b k) i t c).
  apply alt_none; [|apply alt_none];
    (eapply keyword_mismatch; [by apply keyword_one|done..]).
Qed.

(** X2.  An add-contact command -- [add contact <name>], then nothing, [with
    address] or [as], then an address of forty hexadecimal digits after
    [0x] or [0X] -- reads as the addition of the name as written and of
    the address as written. *)
Theorem parse_add_contact_shape kwa ws1 kwc ws2 name ws3 l addr :
  keyword ["add"] kwa = true -> run is_space ws1 = true ->
  keyword ["contact"] kwc = true -> run is_space ws2 = true ->
  run is_word name = true -> run is_space ws3 = true ->
  link_ok l = true -> hex_address addr = true ->
  parseCommand (kwa ++ ws1 ++ kwc ++ ws2 ++ name ++ ws3 ++ link_text l ++ addr)
  = Some (AddContact name addr).
Proof.
  intros Ha H1 Hc H2 Hname H3 Hl Haddr. unfold parseCommand.
  rewrite truthy_app_l by by eapply keyword_truthy. cbn [negb].
  rewrite trim_core.
  2:{ by eapply keyword_starts. }
  2:{ rewrite <- !sapp_assoc. apply trimEnd_end. by apply hex_address_nonspace. }
  rewrite add_no_SEND, add_no_CHECK by done.
  rewrite exec_ADD_shape by done.
  rewrite lookup_insert_ne, lookup_insert_eq by done.
  rewrite lookup_insert_eq.
  rewrite trim_run; [done|].
  by apply (run_mono is_word); [apply word_nonspace|].
Qed.

Lemma parse_add_contact_shape_witness :
  parseCommand ("Add" ++ " " ++ "contact" ++ "  " ++ "bob_2" ++ " "
                  ++ link_text (WithAddress "with" " " "Address" " ")
                  ++ "0X2222222222222222222222222222222222222222")
  = Some (AddContact "bob_2" "0X2222222222222222222222222222222222222222").
Proof.
  by apply (parse_add_contact_shape "Add" " " "contact" "  " "bob_2" " "
              (WithAddress "with" " " "Address" " ")
              "0X2222222222222222222222222222222222222222").
Defined.

(** ** From a parsed send command back to its text *)

Lemma lower_char_ascii c :
  is_lower (lower_ascii c) = true -> lower_char c = lower_ascii c.
Proof. each_char c; vm_compute; congruence. Qed.

Lemma low_lower lits : forall w,
  low w = lits -> all_string is_lower lits = true -> toLowerCase w = lits.
Proof.
  induction lits as [|a lits IH]; intros w Hw Hl.
  - by destruct w.
  - destruct w as [|c w]; [done|]. unfold low in Hw. simpl in Hw.
    injection Hw as Hc Hw. simpl in Hl. apply andb_prop in Hl as [Ha Hl].
    unfold toLowerCase. simpl. rewrite lower_char_ascii by by rewrite Hc.
    rewrite Hc. f_equal. by apply IH.
Qed.

Lemma matches_keyword lits i w rest :
  all_string is_lower lits = true ->
  matches (lit_i lits) i w rest -> toLowerCase w = lits.
Proof.
  intros Hl M. apply low_lower; [|done].
  rewrite (matches_lit_i_low _ _ _ _ M). clear M.
  induction lits as [|a lits IH]; [done|]. simpl in Hl.
  apply andb_prop in Hl as [Ha Hl]. unfold low in *. simpl.
  by rewrite (lower_ascii_lower a Ha), IH.
Qed.

Lemma matches_amount i w rest :
  matches SEND_amount i w rest ->
  exists int frac,
    w = decimal int frac /\ run is_digit int = true
    /\ forall f, frac = Some f -> run is_digit f = true.
Proof.
  unfold SEND_amount. intros (int & x & -> & Mint & Mx).
  apply (matches_run is_digit) in Mint; [|by vm_compute..].
  destruct Mx as [(d & f & -> & (c & -> & Hc) & Mf)| ->].
  - apply (matches_run is_digit) in Mf; [|by vm_compute..].
    apply bool_decide_eq_true in Hc as ->.
    exists int, (Some f). split; [done|]. split; [done|]. by intros ? [= <-].
  - exists int, None. split; [done|]. split; [done|]. done.
Qed.

Lemma sapp_inv_head a x y : a ++ x = a ++ y -> x = y.
Proof.
  induction a as [|c a IH]; [done|]. rewrite !sapp_cons. intros [= H]. auto.
Qed.

Lemma trimEnd_length s : (String.length (trimEnd s) <= String.length s)%nat.
Proof.
  destruct (trimEnd_split s) as (t & Ht & _).
  rewrite Ht at 2. rewrite length_sapp. lia.
Qed.

Lemma trimEnd_trim s : trimEnd (trim s) = trim s.
Proof. unfold trim. apply trimEnd_idem. Qed.

Lemma trimEnd_keeps_head s :
  starts_with is_space s = false -> s <> "" -> trimEnd s <> "".
Proof.
  destruct s as [|c s]; [done|]. simpl. intros Hc _.
  destruct (trimEnd s); [by rewrite Hc|done].
Qed.

(** The end of a trimmed text: what follows its last blanks. *)
Lemma trimmed_end text p m3 :
  trim text = p ++ m3 -> m3 <> "" ->
  exists l, m3 = l ++ trimStart m3 /\ all_string is_space l = true
            /\ trimStart m3 <> "" /\ trim (trimStart m3) = trimStart m3.
Proof.
  intros Ht Hne. destruct (trimStart_split m3) as (l & Hl & Hsp).
  exists l. split; [exact Hl|]. split; [exact Hsp|].
  pose proof (trimEnd_trim text) as Hid. rewrite Ht in Hid.
  assert (Hcore : trimStart m3 <> "").
  { intros E. apply trimStart_all in E.
    rewrite trimEnd_blank in Hid by done.
    pose proof (trimEnd_length p) as Hlen. rewrite Hid, length_sapp in Hlen.
    destruct m3; [done|]. simpl in Hlen. lia. }
  split; [exact Hcore|].
  apply trim_core; [apply trimStart_starts|].
  rewrite Hl, <- sapp_assoc in Hid.
  rewrite trimEnd_app in Hid.
  - by apply sapp_inv_head in Hid.
  - apply trimEnd_keeps_head; [apply trimStart_starts|exact Hcore].
Qed.

(** Where a [Send] comes from: the trimmed text is of the send shape,
    and the three parts of the command are read off it. *)
Lemma parse_send_inv text a t r :
  parseCommand text = Some (Send a t r) ->
  exists kw1 ws1 int frac ws2 tok ws3 kw2 ws4,
    trim text = kw1 ++ ws1 ++ decimal int frac ++ ws2 ++ tok ++ ws3
                    ++ kw2 ++ ws4 ++ r
    /\ toLowerCase kw1 = "send" /\ toLowerCase kw2 = "to"
    /\ run is_space ws1 = true /\ run is_space ws2 = true
    /\ run is_space ws3 = true /\ run is_space ws4 = true
    /\ run is_digit int = true
    /\ (forall f, frac = Some f -> run is_digit f = true)
    /\ run is_alpha tok = true
    /\ run is_dot r = true /\ starts_with is_space r = false /\ trim r = r
    /\ a = decimal int frac /\ t = alias (toUpperCase tok).
Proof.
  unfold parseCommand. destruct (truthy text); [|done]. cbn [negb].
  destruct (exec SEND (trim text)) as [caps|] eqn:E.
  2:{ intros H. repeat case_match; simplify_eq. }
  intros H. pose proof E as E0.
  apply exec_sound in E0 as (pre & w & post & Htext & M).
  unfold SEND in M. cbn [seqs matches] in M.
  destruct M as (b & r0 & -> & (-> & Hpre) & kw1 & r1 & -> & Mkw1
                 & ws1 & r2 & -> & M1 & amt & r3 & -> & Mamt
                 & ws2 & r4 & -> & M2 & tok & r5 & -> & Mtok
                 & ws3 & r6 & -> & M3 & kw2 & r7 & -> & Mkw2
                 & ws4 & r8 & -> & M4 & m3 & e & -> & Mm3 & (-> & ->)).
  destruct pre; [|done]. rewrite !sapp_nil, !sapp_nil_r in Htext.
  apply matches_keyword in Mkw1; [|done].
  apply matches_keyword in Mkw2; [|done].
  apply (matches_run is_space) in M1; [|by vm_compute..].
  apply (matches_run is_space) in M2; [|by vm_compute..].
  apply (matches_run is_space) in M3; [|by vm_compute..].
  apply (matches_run is_space) in M4; [|by vm_compute..].
  apply (matches_run is_alpha) in Mtok; [|by vm_compute..].
  apply (matches_run is_dot) in Mm3; [|by vm_compute..].
  apply matches_amount in Mamt as (int & frac & -> & Hint & Hfrac).
  destruct (trimmed_end text
              (kw1 ++ ws1 ++ decimal int frac ++ ws2 ++ tok ++ ws3 ++ kw2 ++ ws4)
              m3) as (l & Hl & Hsp & Hcore & Htrim).
  { by rewrite Htext, !sapp_assoc. }
  { by eapply run_ne. }
  assert (Hdot : run is_dot (trimStart m3) = true).
  { unfold run. rewrite (proj2 (truthy_ne _) Hcore).
    apply run_all in Mm3. rewrite Hl, all_string_app in Mm3.
    by apply andb_prop in Mm3 as [_ ->]. }
  destruct (exec_SEND_shape kw1 ws1 int frac ws2 tok ws3 kw2 (ws4 ++ l)
              (trimStart m3)) as (caps' & E' & C1 & C2 & C3); try done.
  { by apply run_app_all. }
  { apply trimStart_starts. }
  rewrite sapp_assoc, <- Hl, <- Htext, E in E'. injection E' as <-.
  rewrite C1, C2, C3, Htrim in H. injection H as <- <- <-.
  exists kw1, ws1, int, frac, ws2, tok, ws3, kw2, (ws4 ++ l).
  rewrite Htext, Hl at 1. rewrite !sapp_assoc.
  repeat split; try done.
  - by apply run_app_all.
  - apply trimStart_starts.
Qed.

Lemma upper_alpha tok :
  all_string is_alpha tok = true -> all_string is_upper (toUpperCase tok) = true.
Proof.
  induction tok as [|c tok IH]; [done|]. unfold toUpperCase in *. simpl.
  intros [Hc Htok]%andb_prop. rewrite (IH Htok), andb_true_r.
  revert Hc. each_char c; vm_compute; congruence.
Qed.

Lemma upper_char_idem c : upper_char (upper_char c) = upper_char c.
Proof. each_char c; vm_compute; reflexivity. Qed.

Lemma toUpperCase_idem s : toUpperCase (toUpperCase s) = toUpperCase s.
Proof.
  induction s as [|c s IH]; [reflexivity|].
  unfold toUpperCase in *. simpl. by rewrite upper_char_idem, IH.
Qed.

Lemma toUpperCase_truthy s : truthy (toUpperCase s) = truthy s.
Proof. by destruct s. Qed.

(** The token of a command: upper-case letters. *)
Lemma alias_upper tok :
  run is_alpha tok = true -> run is_upper (alias (toUpperCase tok)) = true.
Proof.
  intros Htok. unfold alias.
  destruct (_ || _); [done|].
  unfold run in *. apply andb_prop in Htok as [Hne Hall].
  by rewrite toUpperCase_truthy, Hne, upper_alpha.
Qed.

(** Reading a token again changes nothing. *)
Lemma alias_upper_idem tok :
  alias (toUpperCase (alias (toUpperCase tok))) = alias (toUpperCase tok).
Proof.
  set (u := toUpperCase tok).
  assert (Hu : toUpperCase u = u) by apply toUpperCase_idem.
  unfold alias at 2 3.
  destruct (_ || _) eqn:E; [done|].
  rewrite Hu. unfold alias. by rewrite E.
Qed.

Lemma upper_is_alpha c : is_upper c = true -> is_alpha c = true.
Proof. intros H. unfold is_alpha. by rewrite H. Qed.

(** X4.  Every [Send] that the parser returns is well formed: the amount is
    an unsigned decimal numeral, the token a non-empty run of upper-case
    ASCII letters (so the aliases [MY-TOKEN] and [MY_TOKEN] never apply),
    and the recipient is non-empty, on one line and without blanks
    around it. *)
Theorem send_result_well_formed text a t r :
  parseCommand text = Some (Send a t r) ->
  (exists int frac,
     a = decimal int frac /\ run is_digit int = true
     /\ forall f, frac = Some f -> run is_digit f = true)
  /\ run is_upper t = true
  /\ run is_dot r = true /\ trim r = r.
Proof.
  intros (kw1 & ws1 & int & frac & ws2 & tok & ws3 & kw2 & ws4 & _ & _ & _
          & _ & _ & _ & _ & Hint & Hfrac & Htok & Hr & _ & Htrim & -> & ->)
         %parse_send_inv.
  split; [by exists int, frac|]. split; [by apply alias_upper|]. done.
Qed.

Lemma send_result_well_formed_witness :
  run is_upper "MTK" = true /\ trim "bob" = "bob".
Proof.
  destruct (send_result_well_formed "send 1.5 mytoken to bob" "1.5" "MTK" "bob")
    as (_ & Ht & _ & Hr); [vm_compute; reflexivity|]. by split.
Defined.

Import CommandDescription.

(** X6.  The description of a send command reads as the same command. *)
Theorem send_description_round_trip text a t r :
  parseCommand text = Some (Send a t r) ->
  parseCommand (getCommandDescription (Some (Send a t r)))
  = Some (Send a t r).
Proof.
  intros (kw1 & ws1 & int & frac & ws2 & tok & ws3 & kw2 & ws4 & _ & _ & _
          & _ & _ & _ & _ & Hint & Hfrac & Htok & Hr & Hrs & Htrim & -> & ->)
         %parse_send_inv.
  simpl getCommandDescription.
  change ("Send " ++ ?x) with ("Send" ++ " " ++ x).
  change (" to " ++ r) with (" " ++ "to" ++ " " ++ r).
  pose proof (alias_upper tok Htok) as Hup.
  assert (Halpha : run is_alpha (alias (toUpperCase tok)) = true).
  { by apply (run_mono is_upper); [apply upper_is_alpha|]. }
  unfold parseCommand. cbn [truthy negb append].
  change (String "S" ("end" ++ ?x)) with ("Send" ++ x).
  rewrite trim_core.
  2:{ done. }
  2:{ rewrite <- !sapp_assoc. rewrite trimEnd_app.
      - f_equal. unfold trim in Htrim. by rewrite trimStart_id in Htrim.
      - unfold trim in Htrim. rewrite trimStart_id in Htrim by done.
        rewrite Htrim. by eapply run_ne. }
  destruct (exec_SEND_shape "Send" " " int frac " " (alias (toUpperCase tok))
              " " "to" " " r) as (caps & -> & -> & -> & ->); try done.
  by rewrite alias_upper_idem, Htrim.
Qed.

Lemma send_description_round_trip_witness :
  parseCommand "Send 5 USDC to Alice Smith"
  = Some (Send "5" "USDC" "Alice Smith").
Proof.
  apply (send_description_round_trip "  send 5 usdc   to Alice Smith "
           "5" "USDC" "Alice Smith").
  vm_compute. reflexivity.
Defined.

(** X5.  Blanks around a command do not change how it is read; a text of
    blanks only is an unknown command with an empty text. *)
Theorem parseCommand_padding l s t :
  blank l = true -> blank t = true ->
  (s <> "" -> parseCommand (l ++ s ++ t) = parseCommand s)
  /\ (l <> "" -> parseCommand l = Some (Unknown "")).
Proof.
  unfold blank. intros Hl Ht. split.
  - intros Hs. unfold parseCommand. rewrite trim_pad by done.
    destruct s as [|c s]; [done|]. by destruct l.
  - intros Hne. unfold parseCommand.
    assert (trim l = "") as ->.
    { unfold trim. by rewrite trimStart_blank_only. }
    by destruct l.
Qed.

Lemma parseCommand_padding_witness :
  parseCommand ("  " ++ "list contacts" ++ " ") = parseCommand "list contacts".
Proof.
  apply (proj1 (parseCommand_padding "  " "list contacts" " " eq_refl eq_refl)).
  discriminate.
Defined.

End ShapeFacts.

Module AgreementFacts.
Import JsString Regex Js App StringSpec RegexSpec ShapeSpec.
Import StringFacts RegexFacts CommandParserFacts ShapeFacts.

(** The longest prefix of a class. *)
Lemma span p s :
  exists a b, s = a ++ b /\ all_string p a = true /\ starts_with p b = false.
Proof.
  induction s as [|c s (a & b & -> & Ha & Hb)].
  - by exists "", "".
  - destruct (p c) eqn:Hc.
    + exists (String c a), b. simpl. by rewrite Hc, Ha.
    + exists "", (String c (a ++ b)). simpl. by rewrite Hc.
Qed.

Lemma space_not_s c : is_space c = true -> ieq "s" c = false.
Proof. each_char c; vm_compute; congruence. Qed.

(** The search of the helper passes over blanks. *)
Lemma search_skip_blank l s : forall i,
  all_string is_space l = true ->
  search_from send_re i (l ++ s) = search_from send_re (i + String.length l) s.
Proof.
  induction l as [|c l IH]; intros i Hl.
  - by rewrite sapp_nil, Nat.add_0_r.
  - simpl in Hl. apply andb_prop in Hl as [Hc Hl].
    rewrite sapp_cons. cbn [search_from].
    assert (m send_re accept i (String c (l ++ s)) ∅ = None) as ->.
    { unfold send_re. cbn [seqs].
      change (m (Seq ?a ?b) ?k ?j ?t ?d) with (m a (m b k) j t d).
      by apply lit_i_mismatch, space_not_s. }
    rewrite IH by done. simpl. by rewrite Nat.add_succ_r.
Qed.

(** The helper of app.js on a text of the send shape with blanks before
    it and a line break, or nothing, after it. *)
Lemma exec_send_re_shape l kw1 ws1 int frac ws2 tok ws3 kw2 ws4 core post :
  all_string is_space l = true ->
  toLowerCase kw1 = "send" -> toLowerCase kw2 = "to" ->
  run is_space ws1 = true -> run is_space ws2 = true ->
  run is_space ws3 = true -> run is_space ws4 = true ->
  run is_digit int = true ->
  (forall f, frac = Some f -> run is_digit f = true) ->
  run is_alpha tok = true ->
  run is_dot core = true -> starts_with is_space core = false ->
  starts_with is_dot post = false ->
  exists caps,
    exec send_re (l ++ kw1 ++ ws1 ++ decimal int frac ++ ws2 ++ tok ++ ws3
                    ++ kw2 ++ ws4 ++ core ++ post) = Some caps
    /\ caps !! 1%nat = Some (decimal int frac)
    /\ caps !! 2%nat = Some tok
    /\ caps !! 3%nat = Some core.
Proof.
  intros Hl Hk1 Hk2 H1 H2 H3 H4 Hint Hfrac Htok Hcore Hcs Hpost.
  eexists. split.
  - unfold exec. rewrite search_skip_blank by done.
    apply search_from_hit. unfold send_re. cbn [seqs].
    apply seq_consumes.
    { by apply consumes_lit_i. }
    apply seq_consumes.
    { apply consumes_plus; [by eapply run_ne|by apply run_all|].
      apply (starts_disjoint is_digit); [apply digit_not_space|].
      unfold decimal. rewrite sapp_assoc. by apply run_starts. }
    rewrite (m_seq_group 1).
    apply group_consumes.
    { apply consumes_amount; [done|done|by apply run_starts]. }
    apply seq_consumes.
    { apply consumes_plus; [by eapply run_ne|by apply run_all|].
      apply (starts_disjoint is_alpha); [apply alpha_not_space|].
      by apply run_starts. }
    rewrite (m_seq_group 2).
    apply group_consumes.
    { apply consumes_plus; [by eapply run_ne|by apply run_all|].
      apply (starts_disjoint is_space); [apply space_not_alpha|].
      by apply run_starts. }
    apply seq_consumes.
    { apply consumes_plus; [by eapply run_ne|by apply run_all|].
      by eapply lower_starts. }
    apply seq_consumes.
    { by apply consumes_lit_i. }
    apply seq_consumes.
    { apply consumes_plus; [by eapply run_ne|by apply run_all|].
      destruct core; [done|]. exact Hcs. }
    apply group_consumes.
    { by apply consumes_plus; [eapply run_ne|apply run_all|]. }
    reflexivity.
  - by simplify_map_eq.
Qed.

Lemma space_is_dot_or_break t :
  all_string is_space t = true ->
  exists t1 post, t = t1 ++ post /\ all_string is_space t1 = true
                  /\ all_string is_dot t1 = true
                  /\ starts_with is_dot post = false.
Proof.
  intros Ht. destruct (span is_dot t) as (t1 & post & -> & H1 & H2).
  exists t1, post. rewrite all_string_app in Ht.
  apply andb_prop in Ht as [Ht _]. done.
Qed.

(** X9.  A text that the parser of utils/commandParser.js reads as a send
    command is read by the helper of app.js as the same command, with
    the recipient in lower case. *)
Theorem parsers_agree_on_send text a t r :
  CommandParser.parseCommand text = Some (CommandParser.Send a t r) ->
  parseCommand text = Some (mkSend a t (toLowerCase r)).
Proof.
  intros (kw1 & ws1 & int & frac & ws2 & tok & ws3 & kw2 & ws4 & Htext & Hk1
          & Hk2 & H1 & H2 & H3 & H4 & Hint & Hfrac & Htok & Hr & Hrs & Htrim
          & -> & ->)%parse_send_inv.
  destruct (trimStart_split text) as (l & Hl & Hlsp).
  destruct (trimEnd_split (trimStart text)) as (t' & Ht & Htsp).
  fold (trim text) in Ht.
  destruct (space_is_dot_or_break t' Htsp) as (t1 & post & -> & Ht1 & Hd1 & Hpost).
  assert (Hsplit : text = l ++ kw1 ++ ws1 ++ decimal int frac ++ ws2 ++ tok
                         ++ ws3 ++ kw2 ++ ws4 ++ (r ++ t1) ++ post).
  { rewrite Hl at 1. rewrite Ht, Htext. by rewrite !sapp_assoc. }
  unfold parseCommand.
  destruct (exec_send_re_shape l kw1 ws1 int frac ws2 tok ws3 kw2 ws4
              (r ++ t1) post) as (caps & E & C1 & C2 & C3); try done.
  { by apply run_app_all. }
  { destruct r; [done|]. exact Hrs. }
  rewrite <- Hsplit in E. rewrite E, C1, C2, C3.
  rewrite <- (sapp_nil (r ++ t1)), trim_pad by done. by rewrite Htrim.
Qed.

Lemma parsers_agree_on_send_witness :
  parseCommand "  Send 5 usdc to Bob "
  = Some (mkSend "5" "USDC" "bob").
Proof.
  apply (parsers_agree_on_send "  Send 5 usdc to Bob " "5" "USDC" "Bob").
  vm_compute. reflexivity.
Defined.

End AgreementFacts.

Module AddContactFacts.
Import JsString Regex Js CommandParser StringSpec RegexSpec ShapeSpec.
Import ContactModel ContactSpec.
Import StringFacts RegexFacts CommandParserFacts ShapeFacts.

Lemma keyword_intro a kw : toLowerCase kw = a -> keyword [a] kw = true.
Proof. intros <-. unfold keyword. apply bool_decide_eq_true. set_solver. Qed.

Lemma matches_rep p : forall n i h rest,
  matches (Rep n (Chr p)) i h rest ->
  String.length h = n /\ all_string p h = true.
Proof.
  induction n as [|n IH]; intros i h rest M; simpl in M.
  - by subst.
  - destruct M as (w1 & w2 & -> & (c & -> & Hc) & M2).
    apply IH in M2 as [<- Hall]. rewrite sapp_cons, sapp_nil. simpl.
    by rewrite Hc, Hall.
Qed.

Lemma ieq_zero c : ieq "0" c = true -> c = "0"%char.
Proof. each_char c; vm_compute; congruence. Qed.

Lemma ieq_x c : ieq "x" c = true -> c = "x"%char \/ c = "X"%char.
Proof. each_char c; vm_compute; (congruence || auto). Qed.

Lemma matches_address i addr rest :
  matches (Seq (lit_i "0x") (Rep 40 (Chr is_hex))) i addr rest ->
  hex_address addr = true.
Proof.
  intros (z & h & -> & Mz & Mh). simpl in Mz.
  destruct Mz as (w1 & w2 & -> & (c1 & -> & Hc1)
                  & (w3 & w4 & -> & (c2 & -> & Hc2) & ->)).
  apply matches_rep in Mh as [Hlen Hall].
  apply ieq_zero in Hc1 as ->. rewrite !sapp_cons, !sapp_nil. simpl.
  rewrite !sapp_nil, Hlen, Hall. simpl.
  by destruct (ieq_x c2 Hc2) as [-> | ->].
Qed.

(** Where an [AddContact] comes from. *)
Lemma parse_add_inv text n a :
  parseCommand text = Some (AddContact n a) ->
  exists kwa ws1 kwc ws2 ws3 l,
    trim text = kwa ++ ws1 ++ kwc ++ ws2 ++ n ++ ws3 ++ link_text l ++ a
    /\ keyword ["add"] kwa = true /\ run is_space ws1 = true
    /\ keyword ["contact"] kwc = true /\ run is_space ws2 = true
    /\ run is_word n = true /\ run is_space ws3 = true
    /\ link_ok l = true /\ hex_address a = true.
Proof.
  unfold parseCommand. destruct (truthy text); [|done]. cbn [negb].
  destruct (exec SEND (trim text)) as [c0|]; [intros H; by repeat case_match|].
  destruct (exec CHECK_BALANCE_re (trim text)) as [c1|]; [done|].
  destruct (exec ADD_CONTACT_re (trim text)) as [caps|] eqn:E.
  2:{ intros H. by repeat case_match. }
  intros H. pose proof E as E0.
  apply exec_sound in E0 as (pre & w & post & Htext & M).
  unfold ADD_CONTACT_re in M. cbn [seqs matches] in M.
  destruct M as (b & r0 & -> & (-> & Hpre) & kwa & r1 & -> & Ma
                 & ws1 & r2 & -> & M1 & kwc & r3 & -> & Mc
                 & ws2 & r4 & -> & M2 & name & r5 & -> & Mname
                 & ws3 & r6 & -> & M3 & opt & r7 & -> & Mopt
                 & addr & e & -> & Maddr & (-> & ->)).
  destruct pre; [|done]. rewrite !sapp_nil, !sapp_nil_r in Htext.
  apply matches_keyword in Ma; [|done]. apply keyword_intro in Ma.
  apply matches_keyword in Mc; [|done]. apply keyword_intro in Mc.
  apply (matches_run is_space) in M1; [|by vm_compute..].
  apply (matches_run is_space) in M2; [|by vm_compute..].
  apply (matches_run is_word) in Mname; [|by vm_compute..].
  apply (matches_run is_space) in M3; [|by vm_compute..].
  apply matches_address in Maddr.
  assert (exists l, opt = link_text l /\ link_ok l = true) as (l & -> & Hl).
  { destruct Mopt as [[Mwith|Mas]| ->].
    - destruct Mwith as (wi & r8 & -> & Mwi & v4 & r9 & -> & Mv4
                         & ad & v5 & -> & Mad & Mv5).
      apply matches_keyword in Mwi; [|done]. apply keyword_intro in Mwi.
      apply matches_keyword in Mad; [|done]. apply keyword_intro in Mad.
      apply (matches_run is_space) in Mv4; [|by vm_compute..].
      apply (matches_run is_space) in Mv5; [|by vm_compute..].
      exists (WithAddress wi v4 ad v5). simpl. by rewrite Mwi, Mv4, Mad, Mv5.
    - destruct Mas as (as_ & v6 & -> & Mas & Mv6).
      apply matches_keyword in Mas; [|done]. apply keyword_intro in Mas.
      apply (matches_run is_space) in Mv6; [|by vm_compute..].
      exists (As as_ v6). simpl. by rewrite Mas, Mv6.
    - by exists NoLink. }
  pose proof (exec_ADD_shape kwa ws1 kwc ws2 name ws3 l addr
                Ma M1 Mc M2 Mname M3 Hl Maddr) as E'.
  rewrite <- Htext, E in E'. injection E' as ->.
  rewrite lookup_insert_ne, lookup_insert_eq in H by done.
  rewrite lookup_insert_eq in H.
  rewrite trim_run in H by by apply (run_mono is_word); [apply word_nonspace|].
  injection H as <- <-.
  exists kwa, ws1, kwc, ws2, ws3, l. by rewrite Htext.
Qed.

Lemma word_plain c : is_word c = true -> is_word c || is_space c = true.
Proof. by intros ->. Qed.

(** The schema validator on what the add command takes as an address:
    the prefix must be in lower case. *)
Lemma valid_hex_address a :
  hex_address a = true -> valid_address a = lower_prefix a.
Proof.
  intros (x & h & -> & Hx & Hlen & Hh)%hex_address_inv.
  unfold valid_address, test, ADDRESS_re. cbn [seqs]. rewrite exec_bol.
  destruct Hx as [-> | ->].
  - assert (m (Seq (lit "0x") (Seq (Rep 40 (Chr is_hex)) Eol)) accept 0
              (String "0" (String "x" h)) ∅ = Some ∅) as ->; [|done].
    change (m (Rep 40 (Chr is_hex)) (m Eol accept) 2 h ∅ = Some ∅).
    rewrite <- (sapp_nil_r h). by apply (consumes_rep is_hex 40 h "").
  - done.
Qed.

End AddContactFacts.

Module DescriptionFacts.
Import JsString Regex Js CommandParser CommandDescription.
Import StringSpec RegexSpec ShapeSpec.
Import StringFacts RegexFacts CommandParserFacts ShapeFacts AddContactFacts.

Lemma keyword_three a b c i w rest :
  all_string is_lower a = true -> all_string is_lower b = true ->
  all_string is_lower c = true ->
  matches (Alt (lit_i a) (Alt (lit_i b) (lit_i c))) i w rest ->
  keyword [a; b; c] w = true.
Proof.
  intros Ha Hb Hc M. unfold keyword. apply bool_decide_eq_true.
  destruct M as [M|[M|M]]; apply matches_keyword in M; try done;
    rewrite M; repeat first [by left | right].
Qed.

(** Where a [CheckBalance] comes from. *)
Lemma parse_check_inv text t :
  parseCommand text = Some (CheckBalance t) ->
  exists verb ws1 my kwb tail,
    trim text = verb ++ ws1 ++ my_text my ++ kwb ++ of_text tail
    /\ keyword ["check"; "show"; "view"] verb = true
    /\ run is_space ws1 = true /\ my_ok my = true
    /\ keyword ["balance"] kwb = true /\ of_ok tail = true
    /\ t = of_token tail.
Proof.
  unfold parseCommand. destruct (truthy text); [|done]. cbn [negb].
  destruct (exec SEND (trim text)) as [c0|]; [intros H; by repeat case_match|].
  destruct (exec CHECK_BALANCE_re (trim text)) as [caps|] eqn:E.
  2:{ intros H. by repeat case_match. }
  intros H. pose proof E as E0.
  apply exec_sound in E0 as (pre & w & post & Htext & M).
  unfold CHECK_BALANCE_re in M. cbn [seqs] in M.
  cbn [matches] in M.
  destruct M as (b & r0 & -> & (-> & Hpre) & verb & r1 & -> & Mverb
                 & ws1 & r2 & -> & M1 & my & r3 & -> & Mmy
                 & ws2 & r4 & -> & M2 & kwb & tl & -> & Mb & Mtail).
  destruct pre; [|done]. rewrite !sapp_nil in Htext.
  apply keyword_three in Mverb; [|done..].
  apply (matches_run is_space) in M1; [|by vm_compute..].
  apply matches_keyword in Mb; [|done]. apply keyword_intro in Mb.
  assert (exists tail, tl ++ post = of_text tail /\ of_ok tail = true)
    as (tail & Htl & Htail).
  { destruct Mtail as (o & e & -> & Mo & (-> & ->)).
    destruct Mo as [Mo| ->]; [|by exists None].
    destruct Mo as (v3 & r5 & -> & M3 & kwof & r6 & -> & Mof
                    & v4 & tok & -> & M4 & Mtok).
    apply (matches_run is_space) in M3; [|by vm_compute..].
    apply matches_keyword in Mof; [|done]. apply keyword_intro in Mof.
    apply (matches_run is_space) in M4; [|by vm_compute..].
    apply (matches_run is_alpha) in Mtok; [|by vm_compute..].
    exists (Some (v3, kwof, v4, tok)). simpl.
    rewrite !sapp_nil_r, ?sapp_assoc. by rewrite M3, Mof, M4, Mtok. }
  assert (exists ws1' my', ws1 ++ my ++ ws2 = ws1' ++ my_text my'
                           /\ run is_space ws1' = true /\ my_ok my' = true)
    as (ws1' & my' & Hmy & H1' & Hmy').
  { destruct Mmy as [Mmy| ->].
    - apply matches_keyword in Mmy; [|done]. apply keyword_intro in Mmy.
      exists ws1, (Some (my, ws2)). simpl. by rewrite Mmy, M2.
    - exists (ws1 ++ ws2), None. simpl. rewrite sapp_nil, sapp_nil_r.
      split; [done|]. split; [|done]. by apply run_app_all. }
  assert (Htext' : trim text
                   = verb ++ ws1' ++ my_text my' ++ kwb ++ of_text tail).
  { rewrite Htext, <- Htl. rewrite <- (sapp_assoc ws1' (my_text my')), <- Hmy.
    by rewrite !sapp_assoc. }
  pose proof (exec_CHECK_shape verb ws1' my' kwb tail Mverb H1' Hmy' Mb Htail)
    as E'.
  rewrite <- Htext', E in E'. injection E' as ->.
  exists verb, ws1', my', kwb, tail. split; [exact Htext'|].
  repeat split; try done.
  injection H as <-. destruct tail as [[[[v3 kwof] v4] tok]|]; [|done].
  rewrite lookup_insert_eq. simpl in Htail.
  apply andb_prop in Htail as [_ Htok]. unfold run in Htok.
  apply andb_prop in Htok as [-> _]. done.
Qed.

(** X7.  The description of a balance check of one token reads as the same
    command; the description of the check of all tokens is not a
    command.  The token of a balance check is [ALL] or a run of
    upper-case letters. *)
Theorem check_description_round_trip text t :
  parseCommand text = Some (CheckBalance t) ->
  (t = "ALL" \/ run is_upper t = true)
  /\ parseCommand (getCommandDescription (Some (CheckBalance t)))
     = Some (if bool_decide (t = "ALL")
             then Unknown "Check balance of all tokens"
             else CheckBalance t).
Proof.
  intros (verb & ws1 & my & kwb & tail & _ & _ & _ & _ & _ & Htail & ->)
         %parse_check_inv.
  assert (Hup : of_token tail = "ALL" \/ run is_upper (of_token tail) = true).
  { destruct tail as [[[[v3 kwof] v4] tok]|]; [|by left]. right. simpl in *.
    apply andb_prop in Htail as [_ Htok]. by apply alias_upper. }
  split; [exact Hup|].
  simpl getCommandDescription. case_bool_decide as Hall; [done|].
  destruct Hup as [?|Hup]; [done|].
  destruct tail as [[[[v3 kwof] v4] tok]|]; [|done]. simpl in *.
  apply andb_prop in Htail as [_ Htok].
  change ("Check balance of " ++ ?x)
    with ("Check" ++ " " ++ my_text None ++ "balance"
            ++ of_text (Some (" ", "of", " ", x))).
  rewrite parse_check_shape; try done.
  - simpl. by rewrite alias_upper_idem.
  - simpl. by apply (run_mono is_upper); [apply upper_is_alpha|].
Qed.

Lemma check_description_round_trip_witness :
  parseCommand (getCommandDescription (Some (CheckBalance "MTK")))
  = Some (CheckBalance "MTK").
Proof.
  apply (check_description_round_trip "view my balance of MyToken" "MTK").
  vm_compute. reflexivity.
Defined.

Lemma trimEnd_none s : trimEnd s = "" -> all_string is_space s = true.
Proof.
  induction s as [|c s IH]; [done|]. simpl.
  destruct (trimEnd s); [|done].
  destruct (is_space c); [intros _; by rewrite IH|done].
Qed.

(** Trimming a text keeps a start that ends in something other than a
    blank. *)
Lemma trim_keeps_start p s :
  trim p = p -> p <> "" -> exists x, trim (p ++ s) = p ++ x.
Proof.
  intros Hp Hne.
  assert (Hstart : starts_with is_space p = false).
  { rewrite <- Hp. apply trim_starts. by rewrite Hp. }
  assert (Hend : trimEnd p = p).
  { unfold trim in Hp. by rewrite trimStart_id in Hp. }
  unfold trim. rewrite trimStart_id by by destruct p.
  destruct (trimEnd s) as [|c u] eqn:E.
  - exists "". rewrite trimEnd_blank by by apply trimEnd_none.
    by rewrite sapp_nil_r.
  - exists (String c u). rewrite trimEnd_app by by rewrite E. by rewrite E.
Qed.

(** X8.  The descriptions of the other commands do not read as commands:
    the one of an add-contact command (the name is in quotes), of the
    listing, of an unknown command and of no command at all. *)
Theorem other_descriptions_are_unknown name address original :
  let unknown pc :=
    parseCommand (getCommandDescription pc)
    = Some (Unknown (trim (getCommandDescription pc))) in
  unknown (Some (AddContact name address))
  /\ unknown (Some ListContacts)
  /\ unknown (Some (Unknown original))
  /\ unknown None.
Proof.
  cbv zeta. split; [|split; [|split]]; [| done | | done].
  - simpl getCommandDescription.
    destruct (trim_keeps_start ("Add contact " ++ dq)
                (name ++ dq ++ " with address " ++ address)) as (x & Hx);
      [done..|].
    rewrite sapp_assoc in Hx. unfold parseCommand. cbn [truthy negb append].
    change (String "A" ("dd contact " ++ ?s)) with ("Add contact " ++ s).
    rewrite Hx. unfold SEND, CHECK_BALANCE_re, ADD_CONTACT_re, LIST_CONTACTS_re.
    cbn [seqs]. by rewrite !exec_bol.
  - simpl getCommandDescription.
    destruct (trim_keeps_start ("Unknown command: " ++ dq) (original ++ dq))
      as (x & Hx); [done..|].
    rewrite sapp_assoc in Hx. unfold parseCommand. cbn [truthy negb append].
    change (String "U" ("nknown command: " ++ ?s)) with ("Unknown command: " ++ s).
    rewrite Hx. unfold SEND, CHECK_BALANCE_re, ADD_CONTACT_re, LIST_CONTACTS_re.
    cbn [seqs]. by rewrite !exec_bol.
Qed.

End DescriptionFacts.

Module DirectoryFacts.
Import JsString Regex Js StringSpec RegexSpec ContactModel ContactSpec DirectorySpec.
Import StringFacts RegexFacts CommandParserFacts ContactFacts.

Lemma existsb_names key (db : collection) :
  existsb (fun c => bool_decide (name c = key)) db = bool_decide (key ∈ names db).
Proof.
  induction db as [|d db IH].
  - symmetry. apply bool_decide_eq_false. unfold names. set_solver.
  - cbn [existsb]. rewrite IH. unfold names. cbn [map].
    destruct (decide (name d = key)) as [<-|Hne].
    + rewrite (bool_decide_true (name d = name d)) by done.
      rewrite (bool_decide_true (name d ∈ name d :: map name db)) by set_solver.
      done.
    + rewrite (bool_decide_false (name d = key)) by done. cbn [orb].
      apply bool_decide_ext. rewrite elem_of_cons.
      split; [by right|]. by intros [?|?].
Qed.

Lemma valid_address_truthy a : valid_address a = true -> truthy a = true.
Proof. by destruct a. Qed.

(** The three ways an insert ends. *)
Lemma create_cases data db :
  let doc := mkContact (set_name (data_name data)) (data_address data) in
  if truthy (name doc) && valid_address (address doc) then
    if bool_decide (name doc ∈ names db)
    then create data db
         = (Throw (Error ("Contact with name " ++ dq ++ data_name data ++ dq
                          ++ " already exists")), db)
    else create data db = (Ok doc, (db ++ [doc])%list)
  else exists e, create data db = (Throw e, db) /\ code e = None.
Proof.
  cbv zeta. unfold create, save, validate. cbn [name address].
  rewrite existsb_names.
  destruct (truthy (set_name (data_name data))) eqn:Hn; cbn [andb].
  - destruct (valid_address (data_address data)) eqn:Ha.
    + rewrite (valid_address_truthy _ Ha). cbn [negb app].
      by destruct (bool_decide (_ ∈ names db)).
    + destruct (truthy (data_address data)); cbn [negb app];
        eexists; by split.
  - destruct (truthy (data_address data)); cbn [negb];
      [destruct (valid_address (data_address data))|];
      cbn [app]; eexists; by split.
Qed.

Lemma names_app (db : collection) c : names (db ++ [c]) = (names db ++ [name c])%list.
Proof. unfold names. by rewrite map_app. Qed.

Lemma create_keeps data db r db' :
  well_formed db -> create data db = (r, db') -> well_formed db'.
Proof.
  intros [Hnd Hall] H. pose proof (create_cases data db) as Hc. cbv zeta in Hc.
  cbn [name address] in Hc.
  destruct (truthy (set_name (data_name data))) eqn:Hn; cbn [andb] in Hc.
  2:{ destruct Hc as (e & He & _). rewrite He in H. by injection H as <- <-. }
  destruct (valid_address (data_address data)) eqn:Ha.
  2:{ destruct Hc as (e & He & _). rewrite He in H. by injection H as <- <-. }
  case_bool_decide as Hin; rewrite Hc in H; injection H as <- <-; [done|].
  split.
  - rewrite names_app. apply NoDup_app. split; [done|]. split.
    + intros x Hx ->%list_elem_of_singleton. done.
    + apply NoDup_singleton.
  - apply Forall_app. split; [done|]. apply Forall_singleton.
    split; [by apply truthy_ne|]. split; [apply set_name_idem|done].
Qed.

(** X12.  A collection built by [create] has pairwise different names, each
    non-empty, in lower case and trimmed, and addresses of the declared
    format. *)
Theorem built_well_formed db : built db -> well_formed db.
Proof.
  induction 1 as [|data db r db' _ IH H].
  - split; [apply NoDup_nil_2|apply Forall_nil_2].
  - by eapply create_keeps.
Qed.

Lemma built_well_formed_witness :
  well_formed [mkContact "bob" Demo.alice; mkContact "al" Demo.alice].
Proof.
  apply built_well_formed.
  apply (built_create (mkData "AL " Demo.alice) [mkContact "bob" Demo.alice]
           (Ok (mkContact "al" Demo.alice))); [|vm_compute; reflexivity].
  apply (built_create (mkData "bob" "nowhere") [mkContact "bob" Demo.alice]
           (Throw (ValidationError
                     [("address", "Invalid Ethereum address format")])));
    [|vm_compute; reflexivity].
  apply (built_create (mkData " Bob" Demo.alice) []
           (Ok (mkContact "bob" Demo.alice))); [|vm_compute; reflexivity].
  apply built_empty.
Defined.

(** X11.  An insert succeeds exactly when the name is not blank, the address
    has the declared format and the name is not taken; an insert that
    fails leaves the collection as it was, and the duplicate-name error
    is the one of a well-formed contact whose name is taken. *)
Theorem create_succeeds_iff data db :
  let n := set_name (data_name data) in
  ((exists c db', create data db = (Ok c, db'))
   <-> n <> "" /\ valid_address (data_address data) = true /\ n ∉ names db)
  /\ (forall e db', create data db = (Throw e, db') -> db' = db)
  /\ (n <> "" -> valid_address (data_address data) = true -> n ∈ names db ->
      create data db
      = (Throw (Error ("Contact with name " ++ dq ++ data_name data ++ dq
                       ++ " already exists")), db)).
Proof.
  cbv zeta. pose proof (create_cases data db) as Hc. cbv zeta in Hc.
  cbn [name address] in Hc.
  destruct (truthy (set_name (data_name data))) eqn:Hn; cbn [andb] in Hc.
  2:{ destruct Hc as (e & He & _). rewrite He.
      assert (set_name (data_name data) = "") as -> by by destruct (set_name _).
      split; [|split].
      - split; [by intros (c & db' & ?)|by intros [? _]].
      - by intros e' db' [= _ <-].
      - done. }
  apply truthy_ne in Hn.
  destruct (valid_address (data_address data)) eqn:Ha.
  2:{ destruct Hc as (e & He & _). rewrite He. split; [|split].
      - split; [by intros (c & db' & ?)|by intros (_ & ? & _)].
      - by intros e' db' [= _ <-].
      - done. }
  case_bool_decide as Hin; rewrite Hc; (split; [|split]).
  - split; [by intros (c & db' & ?)|by intros (_ & _ & ?)].
  - by intros e' db' [= _ <-].
  - done.
  - split; [done|]. intros _. eauto.
  - done.
  - done.
Qed.

Lemma create_succeeds_iff_witness :
  create (mkData " BOB " Demo.alice) [mkContact "bob" Demo.alice]
  = (Throw (Error ("Contact with name " ++ dq ++ " BOB " ++ dq
                   ++ " already exists")), [mkContact "bob" Demo.alice]).
Proof.
  apply (proj2 (proj2 (create_succeeds_iff (mkData " BOB " Demo.alice)
                         [mkContact "bob" Demo.alice]))).
  - discriminate.
  - vm_compute. reflexivity.
  - vm_compute. set_solver.
Defined.

(** ** Lookups in a well-formed collection *)

Lemma find_name_spec key (db : collection) c :
  NoDup (names db) ->
  List.find (fun d => bool_decide (name d = key)) db = Some c
  <-> c ∈ db /\ name c = key.
Proof.
  intros Hnd. induction db as [|d db IH]; simpl.
  - split; [done|]. intros [H _]. by apply elem_of_nil in H.
  - unfold names in Hnd. simpl in Hnd. apply NoDup_cons in Hnd as [Hd Hnd].
    case_bool_decide as Hk.
    + split.
      * intros [= <-]. split; [left|done].
      * intros [[->|Hin]%elem_of_cons Hc]; [done|]. exfalso. apply Hd.
        rewrite Hk, <- Hc. by apply list_elem_of_fmap_2.
    + rewrite (IH Hnd). split.
      * intros [Hin Hc]. split; [by right|done].
      * intros [[->|Hin]%elem_of_cons Hc]; [done|by split].
Qed.

Lemma anchored_lit_i_low src s :
  test (seqs [Bol; lit_i src; Eol]) s = true -> low s = low src.
Proof.
  unfold test. destruct (exec _ s) as [caps|] eqn:E; [intros _|done].
  apply exec_sound in E as (pre & w & post & -> & M).
  cbn [seqs] in M. simpl in M.
  destruct M as (w1 & w2 & -> & (-> & Hpre) & (w3 & w4 & -> & M3 & (-> & ->))).
  destruct pre; [|done].
  rewrite !sapp_nil, !sapp_nil_r. by eapply matches_lit_i_low.
Qed.

Lemma lower_fixed_ascii c : lower_char c = c -> lower_ascii c = c.
Proof. each_char c; vm_compute; congruence. Qed.

Lemma low_of_lower s : toLowerCase s = s -> low s = s.
Proof.
  induction s as [|c s IH]; [done|]. unfold toLowerCase, low in *. simpl.
  intros [= Hc Hs]. by rewrite (lower_fixed_ascii c Hc), IH.
Qed.

Lemma filter_lower p s :
  toLowerCase s = s -> toLowerCase (filter_string p s) = filter_string p s.
Proof.
  induction s as [|c s IH]; [done|]. unfold toLowerCase in *. simpl.
  intros [= Hc Hs]. destruct (p c); simpl; [by rewrite Hc, IH|auto].
Qed.

Lemma normalize_lower text : toLowerCase (normalize text) = normalize text.
Proof. unfold normalize. apply filter_lower. fold (set_name text). apply set_name_lower. Qed.

(** What the case-insensitive search finds in a well-formed collection
    has the normalized text as its name. *)
Lemma regex_finds_exact text (db : collection) c :
  Forall stored_ok db -> findOne_regex_i (normalize text) db = Some c ->
  c ∈ db /\ name c = normalize text.
Proof.
  intros Hall H. unfold findOne_regex_i in H.
  apply find_some in H as [Hin Ht]. apply list_elem_of_In in Hin.
  split; [done|].
  rewrite List.Forall_forall in Hall.
  destruct (Hall c (proj1 (list_elem_of_In _ _) Hin)) as (_ & Hset & _).
  apply anchored_lit_i_low in Ht.
  rewrite low_of_lower in Ht by (rewrite <- Hset; apply set_name_lower).
  by rewrite low_of_lower in Ht by apply normalize_lower.
Qed.

Lemma stored_cast b c : stored_ok c -> cast_query b (name c) = name c.
Proof. intros (_ & Hset & _). rewrite <- Hset. apply cast_query_stored. Qed.

Lemma findByName_well_formed runSettersOnQuery text db :
  well_formed db ->
  (forall c, findByName runSettersOnQuery text db = Some c
             <-> c ∈ db /\ name c = cast_query runSettersOnQuery (normalize text))
  /\ findByName runSettersOnQuery text db
     = findOne_name runSettersOnQuery (normalize text) db.
Proof.
  intros [Hnd Hall].
  assert (Hdead : findOne_name runSettersOnQuery (normalize text) db = None ->
                  findOne_regex_i (normalize text) db = None).
  { intros Hnone. destruct (findOne_regex_i _ db) as [c|] eqn:E; [exfalso|done].
    apply regex_finds_exact in E as [Hin Hc]; [|done].
    assert (Hcast : name c = cast_query runSettersOnQuery (normalize text)).
    { rewrite <- Hc. symmetry. apply stored_cast.
      rewrite List.Forall_forall in Hall. apply Hall. by apply list_elem_of_In. }
    unfold findOne_name in Hnone.
    pose proof (find_none _ _ Hnone c (proj1 (list_elem_of_In _ _) Hin)) as Hf.
    by apply bool_decide_eq_false in Hf. }
  assert (Heq : findByName runSettersOnQuery text db
                = findOne_name runSettersOnQuery (normalize text) db).
  { unfold findByName. destruct (findOne_name _ _ db) eqn:E; [done|]. auto. }
  split; [|exact Heq].
  intros c. rewrite Heq. unfold findOne_name. by apply find_name_spec.
Qed.

(** X13.  In a well-formed collection a lookup returns the contact stored
    under the normalized text (as the query casts it), and no other;
    the case-insensitive second search never adds a result. *)
Theorem lookup_in_well_formed runSettersOnQuery text db :
  well_formed db ->
  (forall c, findByName runSettersOnQuery text db = Some c
             <-> c ∈ db /\ name c = cast_query runSettersOnQuery (normalize text))
  /\ findByName runSettersOnQuery text db
     = findOne_name runSettersOnQuery (normalize text) db.
Proof. apply findByName_well_formed. Qed.

Lemma demo_well_formed :
  well_formed [mkContact "bob" Demo.alice; mkContact "al" Demo.alice].
Proof.
  split.
  - unfold names. simpl. apply NoDup_cons. split; [|apply NoDup_singleton].
    by intros [=]%list_elem_of_singleton.
  - repeat constructor; done.
Qed.

Lemma lookup_in_well_formed_witness :
  findByName true "Bob!" [mkContact "bob" Demo.alice; mkContact "al" Demo.alice]
  = Some (mkContact "bob" Demo.alice).
Proof.
  apply (proj1 (lookup_in_well_formed true "Bob!"
                  [mkContact "bob" Demo.alice; mkContact "al" Demo.alice]
                  demo_well_formed)).
  split; [left|vm_compute; reflexivity].
Defined.

End DirectoryFacts.

Module CommandDirectoryFacts.
Import JsString Regex Js CommandParser StringSpec RegexSpec ShapeSpec.
Import ContactModel ContactSpec DirectorySpec.
Import StringFacts RegexFacts CommandParserFacts ContactFacts ShapeFacts.
Import AddContactFacts DirectoryFacts.

Lemma lower_word_char c : is_word c = true -> is_word (lower_char c) = true.
Proof. each_char c; vm_compute; congruence. Qed.

Lemma lower_word n : run is_word n = true -> run is_word (toLowerCase n) = true.
Proof.
  unfold run. intros [Hne Hall]%andb_prop.
  assert (truthy (toLowerCase n) = true) as -> by by destruct n.
  clear Hne. induction n as [|c n IH]; [done|].
  unfold toLowerCase in *. simpl in *. apply andb_prop in Hall as [Hc Hn].
  by rewrite (lower_word_char c Hc), IH.
Qed.

(** The name of an add command is stored in lower case, and the lookup
    leaves that form as it is. *)
Lemma word_name n :
  run is_word n = true ->
  set_name n = toLowerCase n /\ normalize n = toLowerCase n
  /\ plain (toLowerCase n) = true.
Proof.
  intros Hn%lower_word.
  assert (Htrim : trim (toLowerCase n) = toLowerCase n).
  { by apply trim_run, (run_mono is_word); [apply word_nonspace|]. }
  assert (Hplain : plain (toLowerCase n) = true).
  { unfold plain. apply (all_string_mono is_word); [apply word_plain|].
    by apply run_all. }
  split; [exact Htrim|]. split; [|exact Hplain].
  unfold normalize. rewrite Htrim. by apply filter_all.
Qed.

(** X10.  What an add command carries: a name of word characters, which a
    lookup leaves as it is, and an address of forty hexadecimal digits
    after [0x] or [0X]; the schema of the directory accepts the address
    exactly when the prefix is in lower case. *)
Theorem add_contact_result text n a :
  parseCommand text = Some (AddContact n a) ->
  run is_word n = true /\ plain n = true
  /\ hex_address a = true /\ valid_address a = lower_prefix a.
Proof.
  intros (kwa & ws1 & kwc & ws2 & ws3 & l & _ & _ & _ & _ & _ & Hn & _ & _ & Ha)
         %parse_add_inv.
  split; [exact Hn|]. split.
  - unfold plain. apply (all_string_mono is_word); [apply word_plain|].
    by apply run_all.
  - split; [exact Ha|by apply valid_hex_address].
Qed.

Lemma add_contact_result_witness :
  valid_address "0X2222222222222222222222222222222222222222"
  = lower_prefix "0X2222222222222222222222222222222222222222".
Proof.
  apply (add_contact_result
           "Add contact Bob_1 as 0X2222222222222222222222222222222222222222"
           "Bob_1").
  vm_compute. reflexivity.
Defined.

(** X14.  A contact added as an add command says -- its address with the
    lower-case prefix, its name not taken -- is stored under the name in
    lower case and found by the name as the command gave it. *)
Theorem added_by_command_is_found runSettersOnQuery text n a db :
  parseCommand text = Some (AddContact n a) ->
  lower_prefix a = true -> well_formed db -> toLowerCase n ∉ names db ->
  create (mkData n a) db
  = (Ok (mkContact (toLowerCase n) a),
     (db ++ [mkContact (toLowerCase n) a])%list)
  /\ findByName runSettersOnQuery n (db ++ [mkContact (toLowerCase n) a])%list
     = Some (mkContact (toLowerCase n) a).
Proof.
  intros (kwa & ws1 & kwc & ws2 & ws3 & l & _ & _ & _ & _ & _ & Hn & _ & _ & Ha)
         %parse_add_inv Hlow Hwf Hfresh.
  destruct (word_name n Hn) as (Hset & Hnorm & Hplain).
  pose proof (create_cases (mkData n a) db) as Hc. cbv zeta in Hc.
  cbn [name address data_name data_address] in Hc.
  rewrite Hset, valid_hex_address, Hlow in Hc by done.
  assert (truthy (toLowerCase n) = true) as Ht.
  { apply lower_word in Hn. unfold run in Hn. by apply andb_prop in Hn as [? _]. }
  rewrite Ht, bool_decide_false in Hc by done. cbn [andb] in Hc.
  split; [exact Hc|].
  pose proof (create_keeps _ _ _ _ Hwf Hc) as Hwf'.
  apply (findByName_well_formed runSettersOnQuery n) in Hwf' as [Hiff _].
  apply Hiff. split.
  - apply elem_of_app. right. by apply list_elem_of_singleton.
  - cbn [name]. rewrite Hnorm, <- Hset. symmetry. apply cast_query_stored.
Qed.

Lemma added_by_command_is_found_witness :
  findByName false "Carol" [mkContact "bob" Demo.alice; mkContact "carol" Demo.alice]
  = Some (mkContact "carol" Demo.alice).
Proof.
  apply (added_by_command_is_found false
           "add contact Carol with address 0x2222222222222222222222222222222222222222"
           "Carol" Demo.alice [mkContact "bob" Demo.alice]).
  - vm_compute. reflexivity.
  - reflexivity.
  - split; [apply NoDup_singleton|repeat constructor; done].
  - by intros [=]%list_elem_of_singleton.
Defined.

End CommandDirectoryFacts.

Module TransferFacts.
Import JsString Js Blockchain ServiceSpec TransferSpec.
Import BlockchainFacts.

Section Service.

Variable eth : Ethers.
Variable TOKEN_ADDRESSES : gmap string string.

Abbreviation getTokenAddress' := (getTokenAddress TOKEN_ADDRESSES).
Abbreviation getTokenDecimals' := (getTokenDecimals eth TOKEN_ADDRESSES).
Abbreviation sendTokens' := (sendTokens eth TOKEN_ADDRESSES).
Abbreviation resolved := (TransferSpec.resolved eth TOKEN_ADDRESSES).
Abbreviation balance_read := (TransferSpec.balance_read eth TOKEN_ADDRESSES).
Abbreviation submission := (TransferSpec.submission eth TOKEN_ADDRESSES).

(** The decimals of a token with an address are always resolved. *)
Lemma decimals_supported sym addr st :
  getTokenAddress' sym = Some addr ->
  exists d st1, getTokenDecimals' sym st = (Ok d, st1).
Proof.
  intros Ha. unfold getTokenDecimals. unfold_M.
  destruct (truthy_num (TOKEN_DECIMALS st !! sym)); [by eauto|].
  case_bool_decide; [by eauto|]. rewrite Ha.
  destruct (decimals eth (trace st) addr); simpl; eauto.
Qed.

(** X15.  A transfer that returns has validated the address, converted the
    amount at the resolved decimals, read a balance that covers it,
    submitted one transaction -- the converted amount, to the given
    address -- and awaited it; these are its only calls after the
    decimals are resolved. *)
Theorem transfer_success sym toAddress amount_ st res st' :
  sendTokens' sym toAddress amount_ st = (Ok res, st') ->
  exists d st1 a b read submit tx,
    isAddress eth toAddress = true
    /\ resolved sym st d st1
    /\ parseUnits eth amount_ d = Ok a
    /\ balance_read sym (trace st1) = Some (read, Ok b) /\ a <= b
    /\ submission sym toAddress a (trace st1 ++ [read])%list
       = Some (submit, Ok tx)
    /\ trace st' = (trace st1 ++ [read; submit; Wait tx])%list
    /\ TOKEN_DECIMALS st' = TOKEN_DECIMALS st1
    /\ from res = wallet_address eth /\ to res = toAddress
    /\ amount res = amount_ /\ token res = sym.
Proof.
  intros H. unfold sendTokens in H.
  destruct (isAddress eth toAddress) eqn:Haddr; cbn [negb] in H; [|done].
  unfold TransferSpec.resolved, TransferSpec.balance_read,
    TransferSpec.submission.
  case_bool_decide as Hs.
  - unfold sendEth in H. rewrite Haddr in H. cbn [negb] in H. unfold_M.
    destruct (parseUnits eth amount_ 18) as [a|e] eqn:Hp; [|done].
    destruct (getBalance eth (trace st) _) as [b|e] eqn:Hb; [|done].
    destruct (b <? a)%Z eqn:Hlt; [done|]. simpl in H.
    destruct (sendTransaction eth _ _ _ _) as [tx|e] eqn:Hsub; [|done].
    destruct (wait eth _ tx) as [rc|e] eqn:Hw; [|done].
    injection H as <- <-. simpl.
    exists 18, st, a, b, (GetBalance (wallet_address eth)),
      (SendTransaction toAddress a 250000), tx.
    rewrite Hb, Hsub, <- !app_assoc. apply Z.ltb_ge in Hlt.
    by repeat split.
  - destruct (getTokenAddress' sym) as [addr|] eqn:Ha; [|done]. unfold_M.
    destruct (getTokenDecimals' sym st) as [[d|e] st1] eqn:Hd; [|done].
    destruct (parseUnits eth amount_ d) as [a|e] eqn:Hp; [|done].
    destruct (balanceOf eth (trace st1) _ _) as [b|e] eqn:Hb; [|done].
    destruct (b <? a)%Z eqn:Hlt; [done|]. simpl in H.
    destruct (transfer eth _ _ _ _ _) as [tx|e] eqn:Hsub; [|done].
    destruct (wait eth _ tx) as [rc|e] eqn:Hw; [|done].
    injection H as <- <-. simpl.
    exists d, st1, a, b, (BalanceOf addr (wallet_address eth)),
      (Transfer addr toAddress a 250000), tx.
    rewrite Hb, Hsub, <- !app_assoc. apply Z.ltb_ge in Hlt.
    by repeat split.
Qed.

Lemma submissions_app l1 l2 :
  submissions (l1 ++ l2) = (submissions l1 ++ submissions l2)%list.
Proof. apply List.filter_app. Qed.

Lemma submissions_reads new : forallb is_read new = true -> submissions new = [].
Proof.
  induction new as [|c new IH]; [done|]. simpl. unfold is_read at 1.
  intros [Hc Hnew]%andb_prop. apply negb_true_iff in Hc.
  unfold submissions in *. simpl. by rewrite Hc, IH.
Qed.

(** The calls of a transfer: reads, and after them at most one
    submission and its confirmation. *)
Lemma sendTokens_calls sym toAddress amount_ st r st' :
  sendTokens' sym toAddress amount_ st = (r, st') ->
  exists reads rest,
    calls_between st st' (reads ++ rest) /\ forallb is_read reads = true
    /\ (rest = [] /\ (forall res, r <> Ok res)
        \/ exists d st1 a submit rs,
             resolved sym st d st1 /\ parseUnits eth amount_ d = Ok a
             /\ submission sym toAddress a (trace st ++ reads)%list
                = Some (submit, rs)
             /\ match rs with
                | Ok tx => rest = [submit; Wait tx]
                | Throw _ => rest = [submit] /\ forall res, r <> Ok res
                end).
Proof.
  intros H. unfold sendTokens in H.
  destruct (isAddress eth toAddress) eqn:Haddr; cbn [negb] in H.
  2:{ injection H as <- <-. exists [], []. unfold calls_between.
      rewrite app_nil_r. split; [done|]. split; [done|]. by left. }
  unfold TransferSpec.resolved, TransferSpec.submission.
  case_bool_decide as Hs.
  - unfold sendEth in H. rewrite Haddr in H. cbn [negb] in H. unfold_M.
    destruct (parseUnits eth amount_ 18) as [a|e] eqn:Hp.
    2:{ injection H as <- <-. exists [], []. unfold calls_between.
        rewrite app_nil_r. split; [done|]. split; [done|]. by left. }
    destruct (getBalance eth (trace st) _) as [b|e] eqn:Hb.
    2:{ injection H as <- <-. exists [GetBalance (wallet_address eth)], [].
        unfold calls_between. rewrite app_nil_r. split; [done|].
        split; [done|]. by left. }
    destruct (b <? a)%Z eqn:Hlt.
    { injection H as <- <-. exists [GetBalance (wallet_address eth)], [].
      unfold calls_between. rewrite app_nil_r. split; [done|].
      split; [done|]. by left. }
    simpl in H. exists [GetBalance (wallet_address eth)].
    destruct (sendTransaction eth _ _ _ _) as [tx|e] eqn:Hsub.
    + exists [SendTransaction toAddress a 250000; Wait tx].
      split; [|split; [done|]].
      * destruct (wait eth _ tx); injection H as <- <-;
          unfold calls_between; simpl; by rewrite <- !app_assoc.
      * right. exists 18, st, a, (SendTransaction toAddress a 250000), (Ok tx).
        by rewrite Hsub.
    + injection H as <- <-. exists [SendTransaction toAddress a 250000].
      split; [|split; [done|]].
      * unfold calls_between. simpl. by rewrite <- !app_assoc.
      * right. exists 18, st, a, (SendTransaction toAddress a 250000), (Throw e).
        by rewrite Hsub.
  - destruct (getTokenAddress' sym) as [addr|] eqn:Ha.
    2:{ injection H as <- <-. exists [], []. unfold calls_between.
        rewrite app_nil_r. split; [done|]. split; [done|]. by left. }
    unfold_M.
    destruct (getTokenDecimals' sym st) as [[d|e] st1] eqn:Hd.
    2:{ destruct (decimals_supported sym addr st Ha) as (d & st2 & Hd').
        rewrite Hd' in Hd. done. }
    destruct (getTokenDecimals_reads _ _ _ _ _ _ Hd) as (pre & Hpre & Hreads).
    unfold calls_between in Hpre.
    destruct (parseUnits eth amount_ d) as [a|e] eqn:Hp.
    2:{ injection H as <- <-. exists pre, []. unfold calls_between.
        rewrite app_nil_r. split; [done|]. split; [done|]. by left. }
    destruct (balanceOf eth (trace st1) _ _) as [b|e] eqn:Hb.
    2:{ injection H as <- <-.
        exists (pre ++ [BalanceOf addr (wallet_address eth)])%list, [].
        unfold calls_between. simpl. rewrite app_nil_r, Hpre, app_assoc.
        split; [done|]. rewrite forallb_app, Hreads. split; [done|]. by left. }
    destruct (b <? a)%Z eqn:Hlt.
    { injection H as <- <-.
      exists (pre ++ [BalanceOf addr (wallet_address eth)])%list, [].
      unfold calls_between. simpl. rewrite app_nil_r, Hpre, app_assoc.
      split; [done|]. rewrite forallb_app, Hreads. split; [done|]. by left. }
    simpl in H. exists (pre ++ [BalanceOf addr (wallet_address eth)])%list.
    rewrite forallb_app, Hreads.
    destruct (transfer eth _ _ _ _ _) as [tx|e] eqn:Hsub.
    + exists [Transfer addr toAddress a 250000; Wait tx].
      split; [|split; [done|]].
      * destruct (wait eth _ tx); injection H as <- <-;
          unfold calls_between; simpl; by rewrite Hpre, <- !app_assoc.
      * right. exists d, st1, a, (Transfer addr toAddress a 250000), (Ok tx).
        rewrite app_assoc, <- Hpre. by rewrite Hsub.
    + injection H as <- <-. exists [Transfer addr toAddress a 250000].
      split; [|split; [done|]].
      * unfold calls_between. simpl. by rewrite Hpre, <- !app_assoc.
      * right. exists d, st1, a, (Transfer addr toAddress a 250000), (Throw e).
        rewrite app_assoc, <- Hpre. by rewrite Hsub.
Qed.

Lemma submission_is sym toAddress a tr c rs :
  submission sym toAddress a tr = Some (c, rs) -> is_submission c = true.
Proof.
  unfold TransferSpec.submission. case_bool_decide; [by intros [= <- _]|].
  destruct (getTokenAddress' sym); [by intros [= <- _]|done].
Qed.

Lemma sendTokens_submissions sym toAddress amount_ st r st' :
  sendTokens' sym toAddress amount_ st = (r, st') ->
  exists new,
    calls_between st st' new
    /\ (List.length (submissions new) <= 1)%nat
    /\ (forall res, r = Ok res -> List.length (submissions new) = 1%nat)
    /\ (forall c, c ∈ submissions new ->
          exists a tr rs, submission sym toAddress a tr = Some (c, rs)).
Proof.
  intros (reads & rest & Hnew & Hreads & Hrest)%sendTokens_calls.
  exists (reads ++ rest)%list. split; [exact Hnew|].
  rewrite submissions_app, (submissions_reads _ Hreads). cbn [app].
  destruct Hrest as [[-> Hr]|(d & st1 & a & submit & rs & _ & _ & Hsub & Hrs)].
  - split; [simpl; lia|]. split; [intros res ->; by destruct (Hr res)|].
    intros c Hc. by apply elem_of_nil in Hc.
  - pose proof (submission_is _ _ _ _ _ _ Hsub) as Hs.
    destruct rs as [tx|e].
    + subst rest. unfold submissions. simpl. rewrite Hs.
      split; [simpl; lia|]. split; [done|].
      intros c ->%list_elem_of_singleton. eauto.
    + destruct Hrs as [-> Hr]. unfold submissions. simpl. rewrite Hs.
      split; [simpl; lia|]. split; [intros res ->; by destruct (Hr res)|].
      intros c ->%list_elem_of_singleton. eauto.
Qed.

(** X16.  A transfer submits at most one transaction, and exactly one when it
    returns; what it submits is the submission of some amount of the
    token to the given address. *)
Theorem one_submission_at_most sym toAddress amount_ st r st' :
  sendTokens' sym toAddress amount_ st = (r, st') ->
  exists new,
    calls_between st st' new
    /\ (List.length (submissions new) <= 1)%nat
    /\ (forall res, r = Ok res -> List.length (submissions new) = 1%nat)
    /\ (forall c, c ∈ submissions new ->
          exists a tr rs, submission sym toAddress a tr = Some (c, rs)).
Proof. apply sendTokens_submissions. Qed.

(** X17.  The error of a failed transfer either has the form [Failed to send
    <token>: ...], or it is the address error, the unsupported-token
    error or the conversion error of a token other than ETH; in the
    latter three cases the transfer made reads only. *)
Theorem unwrapped_errors_submit_nothing sym toAddress amount_ st e st' :
  sendTokens' sym toAddress amount_ st = (Throw e, st') ->
  (exists e0, e = failed_to_send sym e0)
  \/ ((isAddress eth toAddress = false /\ e = Error "Invalid Ethereum address"
       \/ (sym <> "ETH" /\ getTokenAddress' sym = None /\ e = Unsupported sym)
       \/ (sym <> "ETH"
           /\ exists d st1, getTokenDecimals' sym st = (Ok d, st1)
                            /\ parseUnits eth amount_ d = Throw e))
      /\ exists new, calls_between st st' new /\ forallb is_read new = true).
Proof.
  intros H. unfold sendTokens in H.
  destruct (isAddress eth toAddress) eqn:Haddr; cbn [negb] in H.
  2:{ injection H as <- <-. right. split; [by left|].
      exists []. unfold calls_between. by rewrite app_nil_r. }
  case_bool_decide as Hs.
  - left. subst sym. unfold sendEth in H. rewrite Haddr in H. cbn [negb] in H.
    unfold try_catch in H.
    destruct (bind _ _ st) as [[x|e0] st2]; [done|].
    unfold throw in H. injection H as <- <-. eauto.
  - destruct (getTokenAddress' sym) as [addr|] eqn:Ha.
    2:{ injection H as <- <-. right. split; [by right; left|].
        exists []. unfold calls_between. by rewrite app_nil_r. }
    unfold bind at 1 in H.
    destruct (getTokenDecimals' sym st) as [[d|e1] st1] eqn:Hd.
    2:{ destruct (decimals_supported sym addr st Ha) as (d & st2 & Hd').
        rewrite Hd' in Hd. done. }
    unfold bind at 1, lift in H.
    destruct (parseUnits eth amount_ d) as [a|e1] eqn:Hp.
    + left. unfold try_catch in H.
      destruct (bind _ _ st1) as [[x|e0] st2]; [done|].
      unfold throw in H. injection H as <- <-. eauto.
    + injection H as <- <-. right. split; [right; right; by eauto|].
      by eapply getTokenDecimals_reads.
Qed.

(** X18.  A transfer whose submission is accepted and whose confirmation
    fails reports [Failed to send], after the transaction was
    submitted. *)
Theorem failure_after_submission sym toAddress amount_ st d st1 a b read
        submit tx e :
  isAddress eth toAddress = true -> resolved sym st d st1 ->
  parseUnits eth amount_ d = Ok a ->
  balance_read sym (trace st1) = Some (read, Ok b) -> a <= b ->
  submission sym toAddress a (trace st1 ++ [read])%list = Some (submit, Ok tx) ->
  wait eth (trace st1 ++ [read; submit])%list tx = Throw e ->
  sendTokens' sym toAddress amount_ st
  = (Throw (failed_to_send sym e),
     mkState (TOKEN_DECIMALS st1) (trace st1 ++ [read; submit; Wait tx])%list)
  /\ submissions [read; submit; Wait tx] = [submit].
Proof.
  intros Haddr Hres Hp Hread Hab Hsub Hw.
  unfold TransferSpec.resolved, TransferSpec.balance_read,
    TransferSpec.submission in *.
  apply Z.ltb_ge in Hab.
  unfold sendTokens. rewrite Haddr. cbn [negb].
  case_bool_decide as Hs.
  - destruct Hres as [-> ->]. injection Hread as <- Hb. injection Hsub as <- Hsub.
    split; [|done].
    unfold sendEth. rewrite Haddr. cbn [negb]. unfold_M.
    rewrite Hp, Hb, Hab. simpl. rewrite Hsub. rewrite <- !app_assoc. simpl.
    by rewrite Hw, Hs.
  - destruct (getTokenAddress' sym) as [addr|]; [|done].
    injection Hread as <- Hb. injection Hsub as <- Hsub. split; [|done].
    unfold_M. rewrite Hres, Hp, Hb, Hab. simpl. rewrite Hsub.
    rewrite <- !app_assoc. simpl. by rewrite Hw.
Qed.

End Service.

End TransferFacts.

Module BalanceFacts.
Import JsString Js Blockchain ServiceSpec TransferSpec.
Import BlockchainFacts TransferFacts.

Section Service.

Variable eth : Ethers.
Variable TOKEN_ADDRESSES : gmap string string.

Abbreviation getTokenAddress' := (getTokenAddress TOKEN_ADDRESSES).
Abbreviation getTokenDecimals' := (getTokenDecimals eth TOKEN_ADDRESSES).
Abbreviation getTokenBalance' := (getTokenBalance eth TOKEN_ADDRESSES).
Abbreviation getBalances' := (getBalances eth TOKEN_ADDRESSES).
Abbreviation runs := (ServiceSpec.runs eth TOKEN_ADDRESSES).

Lemma getTokenBalance_reads sym address st r st' :
  getTokenBalance' sym address st = (r, st') ->
  exists new, calls_between st st' new /\ forallb is_read new = true
              /\ (List.length new <= 2)%nat.
Proof.
  destruct (decide (sym = "ETH")) as [->|Hs].
  { rewrite getTokenBalance_native. intros [= _ <-].
    exists [GetBalance (ServiceSpec.target_of eth address)].
    unfold calls_between. simpl. split; [done|]. split; [done|lia]. }
  destruct (getTokenAddress' sym) as [addr|] eqn:Ha.
  - rewrite (getTokenBalance_token _ _ _ _ _ _ Hs Ha). cbv zeta.
    destruct (getTokenDecimals' sym _) as [r1 st2] eqn:Hd.
    destruct (getTokenDecimals_reads _ _ _ _ _ _ Hd) as (new & Hnew & Hreads).
    assert (Hlen : (List.length new <= 1)%nat).
    { revert Hd Hnew. unfold getTokenDecimals, calls_between. unfold_M.
      destruct (truthy_num _);
        [intros [= _ <-] E; apply (f_equal List.length) in E;
         rewrite length_app in E; lia|].
      case_bool_decide;
        [intros [= _ <-] E; apply (f_equal List.length) in E;
         rewrite length_app in E; lia|].
      rewrite Ha. destruct (decimals eth _ addr); simpl;
        intros [= _ <-] E; apply (f_equal List.length) in E; simpl in E;
        rewrite !length_app in E; simpl in E; lia. }
    intros H.
    assert (st' = st2) as ->.
    { destruct r1; by injection H. }
    exists (BalanceOf addr (ServiceSpec.target_of eth address) :: new).
    unfold calls_between in *. simpl in *.
    rewrite Hnew, <- app_assoc. repeat split; [done..|lia].
  - rewrite getTokenBalance_unsupported by done. intros [= _ <-].
    exists []. unfold calls_between. rewrite app_nil_r.
    repeat split; [done..|simpl; lia].
Qed.

Lemma runs_reads address syms st infos st' :
  runs address syms st infos st' ->
  exists new, calls_between st st' new /\ forallb is_read new = true
              /\ (List.length new <= 2 * List.length syms)%nat.
Proof.
  induction 1 as [st|sym syms st info st1 infos st2 H _ (n2 & H2 & R2 & L2)].
  - exists []. unfold calls_between. rewrite app_nil_r.
    repeat split; [done..|simpl; lia].
  - apply getTokenBalance_reads in H as (n1 & H1 & R1 & L1).
    exists (n1 ++ n2)%list. unfold calls_between in *.
    rewrite H2, H1, app_assoc, forallb_app, R1, R2, length_app.
    repeat split; [done..|simpl; lia].
Qed.

(** X20.  The balance queries never submit: the calls of a query for some
    symbols are reads, at most two for each symbol. *)
Theorem balance_queries_only_read syms address st r st' :
  getBalances' syms address st = (r, st') ->
  exists new,
    calls_between st st' new /\ submissions new = []
    /\ forallb is_read new = true
    /\ (List.length new <= 2 * List.length (default default_symbols syms))%nat.
Proof.
  intros H. unfold getBalances in H.
  destruct (all_runs eth TOKEN_ADDRESSES address (default default_symbols syms) st)
    as (infos & st2 & Hall & Hruns).
  rewrite Hall in H. injection H as <- <-.
  apply runs_reads in Hruns as (new & Hnew & Hreads & Hlen).
  exists new. split; [done|]. split; [by apply submissions_reads|]. done.
Qed.

(** X19.  A token whose contract answers 0 for its decimals is asked again by
    every later call (0 does not count as a cached value), and the
    answer of a call whose query fails is 18. *)
Theorem zero_decimals_not_cached sym addr st :
  truthy_num (TOKEN_DECIMALS st !! sym) = None -> sym <> "ETH" ->
  getTokenAddress' sym = Some addr ->
  decimals eth (trace st) addr = Ok 0 ->
  let st1 := mkState (<[sym := 0]> (TOKEN_DECIMALS st))
               (trace st ++ [Decimals addr])%list in
  getTokenDecimals' sym st = (Ok 0, st1)
  /\ forall st2, TOKEN_DECIMALS st2 = TOKEN_DECIMALS st1 ->
       exists d st3,
         getTokenDecimals' sym st2 = (Ok d, st3)
         /\ trace st3 = (trace st2 ++ [Decimals addr])%list
         /\ (forall e, decimals eth (trace st2) addr = Throw e -> d = 18).
Proof.
  intros Hc Hs Ha Hd st1. split; [by apply decimals_queried|].
  intros st2 Ht.
  assert (Hc2 : truthy_num (TOKEN_DECIMALS st2 !! sym) = None).
  { rewrite Ht. subst st1. simpl. by rewrite lookup_insert_eq. }
  destruct (decimals eth (trace st2) addr) as [d|e] eqn:Hd2.
  - exists d. eexists. split; [by apply decimals_queried|]. by split.
  - exists 18. eexists. split; [by eapply decimals_query_failed|]. by split.
Qed.

Abbreviation balance_call := (TransferSpec.balance_call eth TOKEN_ADDRESSES).

Lemma truthy_num_cached v : is_Some (truthy_num v) ->
  exists d, v = Some d /\ d <> 0.
Proof.
  destruct v as [d|]; simpl; [|by intros [? ?]].
  destruct (Z.eqb_spec d 0); [by intros [? ?]|]. eauto.
Qed.

Lemma runs_cached address syms st infos st' :
  Forall (fun sym => is_Some (truthy_num (TOKEN_DECIMALS st !! sym))) syms ->
  runs address syms st infos st' ->
  trace st' = (trace st ++ omap (balance_call address) syms)%list
  /\ TOKEN_DECIMALS st' = TOKEN_DECIMALS st.
Proof.
  intros Hall Hruns. revert Hall.
  induction Hruns as [st|sym syms st info st1 infos st2 H _ IH]; intros Hall.
  - by rewrite app_nil_r.
  - apply Forall_cons in Hall as [Hsym Hall].
    apply truthy_num_cached in Hsym as (d & Hd & Hd0).
    assert (trace st1 = (trace st ++ option_list (balance_call address sym))%list
            /\ TOKEN_DECIMALS st1 = TOKEN_DECIMALS st) as [Ht Hk].
    { unfold TransferSpec.balance_call. cbv zeta.
      destruct (decide (sym = "ETH")) as [->|Hs].
      { rewrite getTokenBalance_native in H. by injection H as _ <-. }
      rewrite bool_decide_false by done.
      destruct (getTokenAddress' sym) as [addr|] eqn:Ha.
      - rewrite (getTokenBalance_token _ _ _ _ _ _ Hs Ha) in H. cbv zeta in H.
        rewrite (decimals_cached _ _ _ _ d) in H by done.
        by injection H as _ <-.
      - rewrite getTokenBalance_unsupported in H by done.
        injection H as _ <-. by rewrite app_nil_r. }
    destruct IH as [IH1 IH2]; [by rewrite Hk|].
    rewrite IH1, IH2, Ht, Hk, <- app_assoc. split; [|done]. f_equal.
    simpl. by destruct (balance_call address sym).
Qed.

(** X21.  A balance query for symbols whose decimals are in the table makes
    one read for each symbol that has an address or is ETH, in the
    order of the symbols, never asks for decimals, and leaves the table
    as it is. *)
Theorem one_read_per_cached_symbol syms address st r st' :
  Forall (fun sym => is_Some (truthy_num (TOKEN_DECIMALS st !! sym)))
         (default default_symbols syms) ->
  getBalances' syms address st = (r, st') ->
  trace st' = (trace st ++ omap (balance_call address)
                             (default default_symbols syms))%list
  /\ TOKEN_DECIMALS st' = TOKEN_DECIMALS st.
Proof.
  intros Hall H. unfold getBalances in H.
  destruct (all_runs eth TOKEN_ADDRESSES address (default default_symbols syms) st)
    as (infos & st2 & Ha & Hruns).
  rewrite Ha in H. injection H as _ <-. by eapply runs_cached.
Qed.

End Service.

End BalanceFacts.

Module RouteFacts.
Import JsString Regex Js App AppRoutes StringSpec RegexSpec RouteSpec.
Import DirectorySpec ServiceSpec TransferSpec.
Import StringFacts RegexFacts CommandParserFacts ContactFacts DirectoryFacts.
Import BlockchainFacts TransferFacts BalanceFacts.

(** X22.  [POST /api/contacts]: 400 when the name or the address is missing or
    empty, 201 with the stored document when the insert succeeds, 500
    with the message of the error otherwise.  Only a 201 changes the
    directory, by the one document; the directory stays well formed and
    the service is not touched. *)
Theorem post_contacts_outcomes name address w :
  let resp := fst (post_contacts name address w) in
  let w' := snd (post_contacts name address w) in
  service w' = service w
  /\ (well_formed (contacts w) -> well_formed (contacts w'))
  /\ match Blockchain.truthy_str name, Blockchain.truthy_str address with
     | Some n, Some a =>
         match contacts_body resp with
         | ContactDocument c =>
             contacts_status resp = 201
             /\ c = ContactModel.mkContact (ContactModel.set_name n) a
             /\ contacts w' = (contacts w ++ [c])%list
             /\ ContactModel.name c ∉ names (contacts w)
         | ContactsError msg =>
             contacts_status resp = 500 /\ w' = w
             /\ (ContactModel.set_name n = ""
                 \/ ContactModel.valid_address a = false
                 \/ ContactModel.set_name n ∈ names (contacts w)
                    /\ msg = "Contact with name " ++ dq ++ n ++ dq
                             ++ " already exists")
         end
     | _, _ =>
         resp = mkContactsResponse 400
                  (ContactsError "Name and address are required")
         /\ w' = w
     end.
Proof.
  cbv zeta. unfold post_contacts.
  destruct (Blockchain.truthy_str name) as [n|]; [|done].
  destruct (Blockchain.truthy_str address) as [a|]; [|done].
  pose proof (create_cases (ContactModel.mkData n a) (contacts w)) as Hc.
  pose proof (create_keeps (ContactModel.mkData n a) (contacts w)) as Hk.
  cbv zeta in Hc. cbn [ContactModel.name ContactModel.address
                       ContactModel.data_name ContactModel.data_address] in Hc.
  destruct (ContactModel.create _ _) as [[c|e] db'] eqn:E; cbn [fst snd].
  - split; [done|]. split; [intros Hwf; by eapply Hk|].
    cbn [contacts_body contacts_status contacts].
    destruct (truthy (ContactModel.set_name n)); cbn [andb] in Hc;
      [|by destruct Hc as (? & ? & _)].
    destruct (ContactModel.valid_address a); [|by destruct Hc as (? & ? & _)].
    case_bool_decide as Hin; [done|]. by injection Hc as -> ->.
  - split; [done|]. split; [intros Hwf; by eapply Hk|].
    cbn [contacts_body contacts_status].
    destruct (truthy (ContactModel.set_name n)) eqn:Hn; cbn [andb] in Hc.
    2:{ destruct Hc as (e' & [= -> ->] & _). destruct w.
        split; [done|]. split; [done|]. left.
        by destruct (ContactModel.set_name n). }
    destruct (ContactModel.valid_address a).
    2:{ destruct Hc as (e' & [= -> ->] & _). destruct w. by auto. }
    case_bool_decide as Hin; [|done]. injection Hc as -> ->. destruct w.
    split; [done|]. split; [done|]. right. right. by split.
Qed.

(** The upper case of a text is outside the model exactly when the text
    has U+00B5 or U+00FF in it. *)
Lemma toUpperCase_text_None t :
  toUpperCase_text t = None <-> any_string upper_case_above t = true.
Proof.
  induction t as [|c t IH]; [done|]. simpl.
  destruct (upper_case_above c); [done|]. simpl. rewrite <- IH.
  by destruct (toUpperCase_text t).
Qed.

(** On a text without U+00B5, U+00DF and U+00FF it is [toUpperCase]. *)
Lemma toUpperCase_text_plain t :
  all_string (fun c => negb (upper_case_above c || (code_unit c =? 223)%N)) t
  = true ->
  toUpperCase_text t = Some (toUpperCase t).
Proof.
  induction t as [|c t IH]; [done|]. simpl.
  intros [Hc Ht]%andb_true_iff. apply negb_true_iff, orb_false_iff in Hc as [H1 H2].
  by rewrite H1, H2, (IH Ht).
Qed.

Section Routes.

Variable eth : Blockchain.Ethers.
Variable runSettersOnQuery : bool.

Abbreviation execute := (App.execute eth runSettersOnQuery).
Abbreviation findByName := (ContactModel.findByName runSettersOnQuery).
Abbreviation sendTokens' :=
  (Blockchain.sendTokens eth Blockchain.TOKEN_ADDRESSES_sepolia).
Abbreviation submission :=
  (TransferSpec.submission eth Blockchain.TOKEN_ADDRESSES_sepolia).

Lemma findByName_elem text (db : list ContactModel.Contact) c :
  findByName text db = Some c -> c ∈ db.
Proof.
  unfold ContactModel.findByName, ContactModel.findOne_name,
    ContactModel.findOne_regex_i.
  destruct (List.find _ db) as [x|] eqn:E.
  - intros [= <-]. apply find_some in E as [E _]. by apply list_elem_of_In.
  - intros E'. apply find_some in E' as [E' _]. by apply list_elem_of_In.
Qed.

(** X24.  One request to [POST /api/execute] submits at most one transaction,
    and exactly one when the answer is 200; a 400 or 404 answer means
    that the chain was not called at all.  Whatever is submitted goes to
    the address of a contact of the directory, which the route never
    changes. *)
Theorem execute_pays_contacts_only command w :
  let resp := fst (execute command w) in
  let w' := snd (execute command w) in
  contacts w' = contacts w
  /\ exists new,
       calls_between (service w) (service w') new
       /\ (List.length (submissions new) <= 1)%nat
       /\ (status resp = 200 -> List.length (submissions new) = 1%nat)
       /\ (status resp = 400 \/ status resp = 404 -> new = [])
       /\ (forall c, c ∈ submissions new ->
             exists contact sym a tr rs,
               contact ∈ contacts w
               /\ submission sym (ContactModel.address contact) a tr
                  = Some (c, rs)).
Proof.
  cbv zeta. unfold App.execute.
  assert (Hquiet : forall resp : Response,
            (status resp = 200 -> False) ->
            contacts w = contacts w
            /\ exists new,
                 calls_between (service w) (service w) new
                 /\ (List.length (submissions new) <= 1)%nat
                 /\ (status resp = 200 -> List.length (submissions new) = 1%nat)
                 /\ (status resp = 400 \/ status resp = 404 -> new = [])
                 /\ (forall c, c ∈ submissions new ->
                       exists contact sym a tr rs,
                         contact ∈ contacts w
                         /\ submission sym (ContactModel.address contact) a tr
                            = Some (c, rs))).
  { intros resp H200. split; [done|]. exists [].
    unfold calls_between. rewrite app_nil_r.
    split; [done|]. split; [simpl; lia|]. split; [done|]. split; [done|].
    intros c Hc. by apply elem_of_nil in Hc. }
  destruct (Blockchain.truthy_str command) as [text|]; [|by apply Hquiet].
  destruct (parseCommand text) as [cmd|]; [|by apply Hquiet].
  destruct (ContactModel.findByName _ _ _) as [contact|] eqn:Hfind;
    [|by apply Hquiet].
  apply findByName_elem in Hfind.
  destruct (Blockchain.sendTokens _ _ _ _ _ _) as [r st'] eqn:E.
  apply sendTokens_submissions in E as (new & Hnew & Hle & Hone & Hto).
  assert (Hgoal : forall resp : Response,
            (status resp = 200 -> exists res, r = Ok res) ->
            (status resp = 400 \/ status resp = 404 -> False) ->
            exists new0,
              calls_between (service w) st' new0
              /\ (List.length (submissions new0) <= 1)%nat
              /\ (status resp = 200 -> List.length (submissions new0) = 1%nat)
              /\ (status resp = 400 \/ status resp = 404 -> new0 = [])
              /\ (forall c, c ∈ submissions new0 ->
                    exists contact0 sym a tr rs,
                      contact0 ∈ contacts w
                      /\ submission sym (ContactModel.address contact0) a tr
                         = Some (c, rs))).
  { intros resp H200 H4. exists new. split; [done|]. split; [done|].
    split; [intros [res ->]%H200; by eapply Hone|].
    split; [by intros ?%H4|].
    intros c (a & tr & rs & Hc)%Hto. by exists contact, (token cmd), a, tr, rs. }
  destruct r as [tx|e]; cbn [fst snd contacts service]; (split; [done|]);
    apply Hgoal; cbn [status]; try (intros [?|?]; done); [by eauto|done].
Qed.

(** X25.  [GET /api/balance] answers 200, never 500, for no token and for
    every token text whose upper case the model can write, that is every
    text without U+00B5 and U+00FF: the entry of the token in upper case
    (with [SS] for U+00DF), or the entries of the five default symbols.
    It makes reads only and leaves the directory as it is. *)
Theorem get_balance_always_200 token w :
  match get_balance eth token w with
  | Some (resp, w') =>
      balance_status resp = 200 /\ contacts w' = contacts w
      /\ (exists new, calls_between (service w) (service w') new
                      /\ submissions new = [])
      /\ match Blockchain.truthy_str token with
         | Some t =>
             exists info, balance_body resp = OneBalance info
                          /\ toUpperCase_text t = Some (Blockchain.b_token info)
         | None =>
             exists infos, balance_body resp = AllBalances infos
                           /\ map Blockchain.b_token infos
                              = Blockchain.default_symbols
         end
  | None =>
      exists t, Blockchain.truthy_str token = Some t
                /\ any_string upper_case_above t = true
  end.
Proof.
  unfold get_balance.
  destruct (Blockchain.truthy_str token) as [t|].
  - destruct (toUpperCase_text t) as [u|] eqn:Hu;
      [|exists t; split; [done|by apply toUpperCase_text_None]].
    destruct (getTokenBalance_returns eth Blockchain.TOKEN_ADDRESSES_sepolia
                u None (service w)) as (info & st' & H & Ht & _).
    rewrite H. cbn [fst snd balance_status balance_body contacts service].
    split; [done|]. split; [done|]. split; [|exists info; by rewrite Ht].
    apply getTokenBalance_reads in H as (new & Hnew & Hreads & _).
    exists new. split; [done|]. by apply submissions_reads.
  - destruct (all_runs eth Blockchain.TOKEN_ADDRESSES_sepolia None
                Blockchain.default_symbols (service w))
      as (infos & st' & H & Hruns).
    unfold Blockchain.getBalances. cbn [default]. rewrite H.
    cbn [fst snd balance_status balance_body contacts service].
    split; [done|]. split; [done|]. split.
    + apply runs_reads in Hruns as (new & Hnew & Hreads & _).
      exists new. split; [done|]. by apply submissions_reads.
    + exists infos. split; [done|].
      by destruct (runs_entries _ _ _ _ _ _ _ Hruns).
Qed.

(** X23.  A contact stored through [POST /api/contacts] can be paid by name:
    a send command whose recipient normalizes to the stored name reaches
    the transfer with the address of that contact. *)
Theorem added_contact_is_payable n a w c w' text cmd :
  well_formed (contacts w) ->
  post_contacts (Some n) (Some a) w
  = (mkContactsResponse 201 (ContactDocument c), w') ->
  parseCommand text = Some cmd ->
  ContactModel.normalize (recipient cmd) = ContactModel.name c ->
  execute (Some text) w'
  = match sendTokens' (token cmd) (ContactModel.address c) (amount cmd)
            (service w) with
    | (Ok transaction, st') =>
        (mkResponse 200
           (Success ("Successfully sent " ++ amount cmd ++ " " ++ token cmd
                     ++ " to " ++ recipient cmd) transaction),
         mkWorld (contacts w') st')
    | (Throw error, st') =>
        (mkResponse 500 (Failure (message error) None),
         mkWorld (contacts w') st')
    end.
Proof.
  intros Hwf Hpost Hcmd Hname. unfold post_contacts in Hpost. simpl in Hpost.
  destruct (truthy n); [|done]. destruct (truthy a); [|done].
  destruct (ContactModel.create _ _) as [[c'|e] db'] eqn:E; [|done].
  injection Hpost as -> <-.
  pose proof (create_keeps _ _ _ _ Hwf E) as Hwf'.
  apply create_ok in E as (_ & -> & _ & _).
  assert (Hc : stored_ok c).
  { destruct Hwf' as [_ Hall]. apply Forall_app in Hall as [_ Hall].
    by inversion_clear Hall. }
  assert (Hfind : findByName (recipient cmd) (contacts w ++ [c])%list = Some c).
  { apply (findByName_well_formed runSettersOnQuery (recipient cmd)) in Hwf'
      as [Hiff _].
    apply Hiff. split.
    - apply elem_of_app. right. by apply list_elem_of_singleton.
    - rewrite Hname. symmetry. by apply stored_cast. }
  unfold App.execute. cbn [contacts service].
  assert (Blockchain.truthy_str (Some text) = Some text) as ->.
  { simpl. destruct text; [|done]. by vm_compute in Hcmd. }
  by rewrite Hcmd, Hfind.
Qed.

End Routes.

(** The token text [u], U+00DF, [d] is answered with the entry of the
    symbol [USSD], which is not supported. *)
Lemma get_balance_always_200_witness :
  let eth := Demo.client (Ok 5) (Ok 7) (Ok 18) in
  let token := String "u" (String (ascii_of_N 223) "d") in
  exists resp w' info,
    get_balance eth (Some token) demo_world = Some (resp, w')
    /\ balance_status resp = 200
    /\ balance_body resp = OneBalance info
    /\ Blockchain.b_token info = "USSD"
    /\ Blockchain.b_error info = Some "Unsupported token: USSD".
Proof.
  intros eth token.
  pose proof (get_balance_always_200 eth (Some token) demo_world) as H.
  destruct (get_balance eth (Some token) demo_world) as [[resp w']|] eqn:E;
    [|by vm_compute in E].
  destruct H as (H1 & _ & _ & info & H2 & H3).
  exists resp, w', info. split; [done|]. split; [done|]. split; [done|].
  vm_compute in H3. injection H3 as H3. split; [done|].
  vm_compute in E. injection E as <- _. by injection H2 as <-.
Defined.

(** [bob] is added through the route and then paid by the command
    [send 5 usdc to BOB!]. *)
Lemma added_contact_is_payable_witness :
  let eth := Demo.client (Ok 0) (Ok 10000000) (Ok 6) in
  let bob := ContactModel.mkContact "bob" Demo.wallet in
  let w' := mkWorld (contacts demo_world ++ [bob])%list (service demo_world) in
  let cmd := mkSend "5" "USDC" "bob!" in
  App.execute eth true (Some "send 5 usdc to BOB!") w'
  = match Blockchain.sendTokens eth Blockchain.TOKEN_ADDRESSES_sepolia
            (token cmd) (ContactModel.address bob) (amount cmd)
            (service demo_world) with
    | (Ok transaction, st') =>
        (mkResponse 200
           (Success ("Successfully sent " ++ amount cmd ++ " " ++ token cmd
                     ++ " to " ++ recipient cmd) transaction),
         mkWorld (contacts w') st')
    | (Throw error, st') =>
        (mkResponse 500 (Failure (message error) None),
         mkWorld (contacts w') st')
    end.
Proof.
  intros eth bob w' cmd.
  apply (added_contact_is_payable eth true " Bob " Demo.wallet demo_world bob w'
           "send 5 usdc to BOB!" cmd).
  - split; [apply NoDup_singleton|repeat constructor; done].
  - vm_compute. reflexivity.
  - vm_compute. reflexivity.
  - vm_compute. reflexivity.
Defined.

End RouteFacts.

Module ScenarioFacts.
Import JsString Js Blockchain ServiceSpec TransferSpec Scenario.
Import BlockchainFacts TransferFacts BalanceFacts.

(** 5 USDC of 10 are sent to [alice]: one balance read, one submission
    of 5 * 10^6 units, one confirmation. *)
Lemma transfer_success_witness :
  let eth := Demo.client (Ok 0) (Ok 10000000) (Ok 6) in
  let res := mkTransferResult "0xabc" Demo.wallet Demo.alice "5" "USDC" 7
               "testnet" in
  let st' := mkState TOKEN_DECIMALS_initial
               [BalanceOf usdc Demo.wallet;
                Transfer usdc Demo.alice 5000000 250000; Wait "0xabc"] in
  exists d st1 a b read submit tx,
    isAddress eth Demo.alice = true
    /\ resolved eth TOKEN_ADDRESSES_sepolia "USDC" initial_state d st1
    /\ parseUnits eth "5" d = Ok a
    /\ balance_read eth TOKEN_ADDRESSES_sepolia "USDC" (trace st1)
       = Some (read, Ok b) /\ a <= b
    /\ submission eth TOKEN_ADDRESSES_sepolia "USDC" Demo.alice a
         (trace st1 ++ [read])%list = Some (submit, Ok tx)
    /\ trace st' = (trace st1 ++ [read; submit; Wait tx])%list
    /\ TOKEN_DECIMALS st' = TOKEN_DECIMALS st1
    /\ from res = wallet_address eth /\ to res = Demo.alice
    /\ amount res = "5" /\ token res = "USDC".
Proof.
  intros eth res st'.
  apply (transfer_success eth TOKEN_ADDRESSES_sepolia "USDC" Demo.alice "5"
           initial_state res st').
  vm_compute. reflexivity.
Defined.

(** The same transfer with 1 unit in the account submits nothing. *)
Lemma one_submission_at_most_witness :
  let eth := Demo.client (Ok 0) (Ok 1) (Ok 6) in
  let st' := mkState TOKEN_DECIMALS_initial [BalanceOf usdc Demo.wallet] in
  exists new,
    calls_between initial_state st' new
    /\ (List.length (submissions new) <= 1)%nat
    /\ (forall c, c ∈ submissions new ->
          exists a tr rs,
            submission eth TOKEN_ADDRESSES_sepolia "USDC" Demo.alice a tr
            = Some (c, rs)).
Proof.
  intros eth st'.
  destruct (one_submission_at_most eth TOKEN_ADDRESSES_sepolia "USDC"
              Demo.alice "5" initial_state
              (Throw (Error "Failed to send USDC: Insufficient USDC balance"))
              st') as (new & H1 & H2 & _ & H3); [vm_compute; reflexivity|].
  by exists new.
Defined.

(** An amount that does not convert: the error is the one of the
    conversion, and nothing was called. *)
Lemma unwrapped_errors_submit_nothing_witness :
  let eth := Demo.client (Ok 0) (Ok 1) (Ok 6) in
  let e := Error "invalid decimal value" in
  (exists e0, e = failed_to_send "USDC" e0)
  \/ ((isAddress eth Demo.alice = false
       /\ e = Error "Invalid Ethereum address"
       \/ ("USDC" <> "ETH"
           /\ getTokenAddress TOKEN_ADDRESSES_sepolia "USDC" = None
           /\ e = Unsupported "USDC")
       \/ ("USDC" <> "ETH"
           /\ exists d st1,
                getTokenDecimals eth TOKEN_ADDRESSES_sepolia "USDC" initial_state
                = (Ok d, st1)
                /\ parseUnits eth "five" d = Throw e))
      /\ exists new, calls_between initial_state initial_state new
                     /\ forallb is_read new = true).
Proof.
  intros eth e.
  apply (unwrapped_errors_submit_nothing eth TOKEN_ADDRESSES_sepolia "USDC"
           Demo.alice "five" initial_state).
  vm_compute. reflexivity.
Defined.

(** 5 USDC of 10 with a client whose confirmations time out: the
    transfer is submitted and the call fails. *)
Lemma failure_after_submission_witness :
  let eth := stalled (Ok 0) (Ok 10000000) (Ok 6) in
  sendTokens eth TOKEN_ADDRESSES_sepolia "USDC" Demo.alice "5" initial_state
  = (Throw (Error "Failed to send USDC: timeout"),
     mkState TOKEN_DECIMALS_initial
       [BalanceOf usdc Demo.wallet; Transfer usdc Demo.alice 5000000 250000;
        Wait "0xabc"])
  /\ submissions [BalanceOf usdc Demo.wallet;
                  Transfer usdc Demo.alice 5000000 250000; Wait "0xabc"]
     = [Transfer usdc Demo.alice 5000000 250000].
Proof.
  intros eth.
  apply (failure_after_submission eth TOKEN_ADDRESSES_sepolia "USDC" Demo.alice
           "5" initial_state 6 initial_state 5000000 10000000
           (BalanceOf usdc Demo.wallet)
           (Transfer usdc Demo.alice 5000000 250000) "0xabc"
           (Error "timeout")); try (vm_compute; reflexivity).
  vm_compute. discriminate.
Defined.

(** The default request with USDC unreachable: five reads. *)
Lemma balance_queries_only_read_witness :
  let eth := Demo.client (Ok 5) Demo.unreachable (Ok 18) in
  exists new,
    calls_between initial_state
      (snd (getBalances eth TOKEN_ADDRESSES_sepolia None None initial_state)) new
    /\ submissions new = [] /\ forallb is_read new = true
    /\ (List.length new <= 2 * List.length default_symbols)%nat.
Proof.
  intros eth.
  apply (balance_queries_only_read eth TOKEN_ADDRESSES_sepolia None None
           initial_state
           (fst (getBalances eth TOKEN_ADDRESSES_sepolia None None initial_state))).
  by destruct (getBalances eth TOKEN_ADDRESSES_sepolia None None initial_state).
Defined.

(** The token FOO of the extended table, whose contract answers 0. *)
Lemma zero_decimals_not_cached_witness :
  let eth := Demo.client (Ok 0) (Ok 0) (Ok 0) in
  let foo := "0x3333333333333333333333333333333333333333" in
  let st1 := mkState (<["FOO" := 0]> TOKEN_DECIMALS_initial) [Decimals foo] in
  getTokenDecimals eth Demo.TOKEN_ADDRESSES_extended "FOO" initial_state
  = (Ok 0, st1)
  /\ forall st2, TOKEN_DECIMALS st2 = TOKEN_DECIMALS st1 ->
       exists d st3,
         getTokenDecimals eth Demo.TOKEN_ADDRESSES_extended "FOO" st2
         = (Ok d, st3)
         /\ trace st3 = (trace st2 ++ [Decimals foo])%list
         /\ (forall e, decimals eth (trace st2) foo = Throw e -> d = 18).
Proof.
  intros eth foo st1.
  apply (zero_decimals_not_cached eth Demo.TOKEN_ADDRESSES_extended "FOO" foo
           initial_state); by vm_compute.
Defined.

(** The default request from the start of the process. *)
Lemma one_read_per_cached_symbol_witness :
  let eth := Demo.client (Ok 5) (Ok 7) Demo.unreachable in
  let st' := snd (getBalances eth TOKEN_ADDRESSES_sepolia None None
                    initial_state) in
  trace st'
  = (trace initial_state
       ++ omap (balance_call eth TOKEN_ADDRESSES_sepolia None) default_symbols)%list
  /\ TOKEN_DECIMALS st' = TOKEN_DECIMALS initial_state.
Proof.
  intros eth st'.
  apply (one_read_per_cached_symbol eth TOKEN_ADDRESSES_sepolia None None
           initial_state
           (fst (getBalances eth TOKEN_ADDRESSES_sepolia None None initial_state))).
  - cbn [default]. unfold default_symbols.
    repeat (apply Forall_cons_2; [vm_compute; by eexists|]). apply Forall_nil_2.
  - by destruct (getBalances eth TOKEN_ADDRESSES_sepolia None None initial_state).
Defined.

End ScenarioFacts.
